(** * Die Scan Calculator CLI: the calculator [calc] and the input resolver of [main]

    A shallow embedding of [die-scan-calculator-cli.ts].  A TypeScript
    [number] is an IEEE 754 binary64 value with round-to-nearest-even
    arithmetic, which is what Rocq's primitive [float] is: [+], [-], [*]
    and [/] below are the very operations the program runs, overflow to
    infinity, underflow to zero and NaN included.  The facts proved about
    them go through the bit-level specification of the Floats library
    ([Prim2SF] and the [SF64...] operations). *)

From Stdlib Require Import ZArith QArith Qpower Qabs Floats Bool List String Lia Lqa.
Import ListNotations.

#[local] Set Warnings "-inexact-float".
#[local] Open Scope float_scope.

(** ** JavaScript numbers *)

Module JS.

(** The exact value of a finite binary64 number, as a rational
    (zeros, infinities and NaN are sent to 0; [is_finite] tells them apart). *)
Definition SF2Q (x : spec_float) : Q :=
  match x with
  | S754_finite s m e => inject_Z (cond_Zopp s (Zpos m)) * (2 ^ e)%Q
  | _ => 0%Q
  end.

Definition F2Q (x : float) : Q := SF2Q (Prim2SF x).

(** Truthiness of a number: [0], [-0] and [NaN] are falsy. *)
Definition truthy (x : float) : bool := negb (is_zero x || is_nan x).

(** [a || b] on numbers. *)
Definition or (a b : float) : float := if truthy a then a else b.

(** [Number.isInteger]. *)
Definition isInteger (x : float) : bool :=
  match Prim2SF x with
  | S754_zero _ => true
  | S754_finite _ m e => (0 <=? e)%Z || (Zpos m mod 2 ^ (- e) =? 0)%Z
  | _ => false
  end.

(** The least integer not below [(-1)^s * m * 2^e], for [e < 0]. *)
Definition ceilZ (s : bool) (m : positive) (e : Z) : Z :=
  (- ((- cond_Zopp s (Zpos m)) / 2 ^ (- e)))%Z.

(** An integer of magnitude at most [2^53] as a number (exact). *)
Definition ofZ (n : Z) : float :=
  match n with
  | Z0 => zero
  | Zpos _ => of_uint63 (Uint63.of_Z n)
  | Zneg p => - of_uint63 (Uint63.of_Z (Zpos p))
  end.

(** [Math.ceil]: NaN, the infinities, the zeros and every integral value
    are returned as they are; a value in ]-1, 0[ gives [-0]; any other
    value has magnitude below [2^53], so its ceiling converts exactly. *)
Definition Math_ceil (x : float) : float :=
  match Prim2SF x with
  | S754_finite s m e =>
      if (0 <=? e)%Z then x
      else
        let n := ceilZ s m e in
        if (n =? 0)%Z then (if s then neg_zero else zero) else ofZ n
  | _ => x
  end.

End JS.

(** ** Types *)

Record Inputs := {
  widthMm : float;       (* object width to cover (mm) *)
  lengthMm : float;      (* scan length direction (mm) *)
  dpi : float;           (* target sampling dpi on object *)
  sensorPx : float;      (* camera sensor pixels across width *)
  pixelPitchUm : float;  (* sensor pixel pitch (um) *)
  wdMm : float;          (* working distance (mm) *)
  speedMmS : float;      (* traverse speed (mm/s) *)
  overlap : float;       (* overlap fraction total (e.g. 0.12 for 12%) *)
  cameras : float;       (* planned number of cameras across width *)
  json : bool            (* output JSON only *)
}.

Record Results := {
  pixelSizeObjMm : float;
  eqDpi : float;
  pxNeededAcross : float;
  pxNeededWithMargin : float;
  usablePxPerCam : float;
  camsRequired : float;
  fovPerCamMm : float;
  sensorLengthMm : float;
  magnification : float;
  focalLengthMm : float;
  linePitchMm : float;
  linesNeeded : float;
  lineRateHz : float
}.

(** ** Helpers *)

Definition mmPerInch : float := 25.4.

Definition calc (inputs : Inputs) : Results :=
  let widthMm := widthMm inputs in
  let lengthMm := lengthMm inputs in
  let dpi := dpi inputs in
  let sensorPx := sensorPx inputs in
  let pixelPitchUm := pixelPitchUm inputs in
  let wdMm := wdMm inputs in
  let speedMmS := speedMmS inputs in
  let overlap := overlap inputs in
  let cameras := cameras inputs in
  (* pixel size on object from desired dpi *)
  let pixelSizeObjMm := mmPerInch / dpi in
  (* pixels needed across whole width *)
  let pxNeededAcross := widthMm / pixelSizeObjMm in
  let pxNeededWithMargin := pxNeededAcross * (1 + overlap) in
  let camsRequired :=
    JS.Math_ceil (pxNeededWithMargin / (sensorPx * (1 - overlap))) in
  let camsUsed := JS.or cameras camsRequired in
  let usablePxPerCam := sensorPx in
  (* FOV per camera on object (mm) *)
  let fovPerCamMm := (widthMm * (1 + overlap)) / camsUsed in
  (* sensor length (mm) *)
  let sensorLengthMm := sensorPx * (pixelPitchUm / 1000) in
  (* magnification M = sensorLength / FOV *)
  let magnification := sensorLengthMm / fovPerCamMm in
  (* thin lens approx: f = (M * WD) / (1 + M) *)
  let focalLengthMm := (magnification * wdMm) / (1 + magnification) in
  (* along travel direction, line pitch = pixelSizeObjMm *)
  let linePitchMm := pixelSizeObjMm in
  let linesNeeded := lengthMm / linePitchMm in
  let lineRateHz := speedMmS / linePitchMm in
  let eqDpi := mmPerInch / pixelSizeObjMm in
  {| pixelSizeObjMm := pixelSizeObjMm;
     eqDpi := eqDpi;
     pxNeededAcross := pxNeededAcross;
     pxNeededWithMargin := pxNeededWithMargin;
     usablePxPerCam := usablePxPerCam;
     camsRequired := camsRequired;
     fovPerCamMm := fovPerCamMm;
     sensorLengthMm := sensorLengthMm;
     magnification := magnification;
     focalLengthMm := focalLengthMm;
     linePitchMm := linePitchMm;
     linesNeeded := linesNeeded;
     lineRateHz := lineRateHz |}.

(** ** CLI: the input resolver of [main]

    What [main] hands to [calc].  The presenter (banner, tables, JSON
    printing) is left out; [Computed inputs result] records the call
    [calc(inputs)] and its value, [Cancelled] the return before it. *)

Inductive Lang := en | tr.

(** [loc[lang].validation] of [localization.ts]. *)
Record ValidationStrings := {
  positiveNumber : string;
  positiveInteger : string;
  fraction : string;
  nonNegative : string
}.

Definition loc_validation (lang : Lang) : ValidationStrings :=
  match lang with
  | en => {| positiveNumber := "Enter a positive number";
             positiveInteger := "Enter a positive integer";
             fraction := "Enter 0–1";
             nonNegative := "Enter >= 0" |}
  | tr => {| positiveNumber := "Pozitif bir sayı girin";
             positiveInteger := "Pozitif bir tamsayı girin";
             fraction := "0–1 arası bir değer girin";
             nonNegative := ">= 0 girin" |}
  end.

(** The command line as yargs parses it, when it holds documented flags
    and nothing else: each flag given at most once with its value as a
    number ([NaN] when the text is not numeric), or absent. *)
Record Argv := {
  arg_width_mm : option float;
  arg_length_mm : option float;
  arg_dpi : option float;
  arg_sensor_px : option float;
  arg_pixel_pitch_um : option float;
  arg_wd_mm : option float;
  arg_speed_mm_s : option float;
  arg_overlap : option float;
  arg_cameras : option float;
  arg_json : option bool
}.

Definition given {A} (o : option A) : bool :=
  match o with Some _ => true | None => false end.

(** [process.argv.slice(2).length === 0] *)
Definition noFlags (a : Argv) : bool :=
  negb (given (arg_width_mm a) || given (arg_length_mm a) || given (arg_dpi a)
        || given (arg_sensor_px a) || given (arg_pixel_pitch_um a)
        || given (arg_wd_mm a) || given (arg_speed_mm_s a)
        || given (arg_overlap a) || given (arg_cameras a) || given (arg_json a)).

Definition option_default {A} (d : A) (o : option A) : A :=
  match o with Some v => v | None => d end.

(** The [yargs] options with their defaults, read into [inputs]. *)
Definition inputs_of_argv (a : Argv) : Inputs :=
  {| widthMm := option_default 1200 (arg_width_mm a);
     lengthMm := option_default 1200 (arg_length_mm a);
     dpi := option_default 250 (arg_dpi a);
     sensorPx := option_default 8192 (arg_sensor_px a);
     pixelPitchUm := option_default 7 (arg_pixel_pitch_um a);
     wdMm := option_default 600 (arg_wd_mm a);
     speedMmS := option_default 200 (arg_speed_mm_s a);
     overlap := option_default 0.12 (arg_overlap a);
     cameras := option_default 0 (arg_cameras a);
     json := option_default false (arg_json a) |}.

(** A [validate] callback returns [true] or the message to show. *)
Inductive Validation := Accepted | Rejected (message : string).

Definition or_message (ok : bool) (message : string) : Validation :=
  if ok then Accepted else Rejected message.

(** The callbacks of the nine prompts, on [Number(v)]. *)
Definition validate_positive (message : string) (v : float) : Validation :=
  or_message (negb (is_nan v) && (0 <? v)) message.

Definition validate_fraction (message : string) (v : float) : Validation :=
  or_message (negb (is_nan v) && (0 <=? v) && (v <? 1)) message.

Definition validate_nonNegative (message : string) (v : float) : Validation :=
  or_message (negb (is_nan v) && (0 <=? v)) message.

(** One [input] prompt: the user types answers ([Number(v)] of each)
    until the callback accepts one; running out of answers is the user
    cancelling the prompt. *)
Fixpoint ask (validate : float -> Validation) (typed : list float) : option float :=
  match typed with
  | [] => None
  | v :: rest =>
      match validate v with
      | Accepted => Some v
      | Rejected _ => ask validate rest
      end
  end.

(** What the user does at the terminal: the language picked ([None]:
    cancelled) and the answers typed at each prompt. *)
Record User := {
  pick_lang : option Lang;
  type_widthMm : list float;
  type_lengthMm : list float;
  type_dpi : list float;
  type_sensorPx : list float;
  type_pixelPitchUm : list float;
  type_wdMm : list float;
  type_speedMmS : list float;
  type_overlap : list float;
  type_cameras : list float
}.

Definition bind {A B} (o : option A) (k : A -> option B) : option B :=
  match o with Some a => k a | None => None end.

Notation "x <- c ;; k" := (bind c (fun x => k))
  (at level 61, c at next level, right associativity).

(** The [enquirer.prompt([...])] call and [inputs = { ...inputs, ...numericAnswers }]. *)
Definition prompts (lang : Lang) (inputs : Inputs) (u : User) : option Inputs :=
  let t := loc_validation lang in
  widthMm' <- ask (validate_positive (positiveNumber t)) (type_widthMm u) ;;
  lengthMm' <- ask (validate_positive (positiveNumber t)) (type_lengthMm u) ;;
  dpi' <- ask (validate_positive (positiveNumber t)) (type_dpi u) ;;
  sensorPx' <- ask (validate_positive (positiveInteger t)) (type_sensorPx u) ;;
  pixelPitchUm' <- ask (validate_positive (positiveNumber t)) (type_pixelPitchUm u) ;;
  wdMm' <- ask (validate_positive (positiveNumber t)) (type_wdMm u) ;;
  speedMmS' <- ask (validate_positive (positiveNumber t)) (type_speedMmS u) ;;
  overlap' <- ask (validate_fraction (fraction t)) (type_overlap u) ;;
  cameras' <- ask (validate_nonNegative (nonNegative t)) (type_cameras u) ;;
  Some {| widthMm := widthMm'; lengthMm := lengthMm'; dpi := dpi';
          sensorPx := sensorPx'; pixelPitchUm := pixelPitchUm';
          wdMm := wdMm'; speedMmS := speedMmS'; overlap := overlap';
          cameras := cameras'; json := json inputs |}.

Inductive Outcome :=
| Cancelled
| Computed (inputs : Inputs) (result : Results).

Definition main (argv : Argv) (u : User) : Outcome :=
  let noFlags := noFlags argv in
  match (if noFlags then pick_lang u else Some en) with
  | None => Cancelled
  | Some lang =>
      let inputs := inputs_of_argv argv in
      if noFlags then
        match prompts lang inputs u with
        | None => Cancelled
        | Some inputs => Computed inputs (calc inputs)
        end
      else Computed inputs (calc inputs)
  end.

(** ** The constraints of the data model on [Inputs] *)

Definition positive_finite (x : float) : bool := is_finite x && (0 <? x).

Definition validInputs (i : Inputs) : bool :=
  positive_finite (widthMm i)
  && positive_finite (lengthMm i)
  && positive_finite (dpi i)
  && (positive_finite (sensorPx i) && JS.isInteger (sensorPx i))
  && positive_finite (pixelPitchUm i)
  && positive_finite (wdMm i)
  && positive_finite (speedMmS i)
  && ((0 <=? overlap i) && (overlap i <? 1))
  && (JS.isInteger (cameras i) && (0 <=? cameras i)).

(** The quotient whose ceiling is [camsRequired], from the result and the inputs. *)
Definition camsQuotient (i : Inputs) : float :=
  pxNeededWithMargin (calc i) / (sensorPx i * (1 - overlap i)).

(** [x] is within [tol] of the rational [target]. *)
Definition near (x : float) (target tol : Q) : bool :=
  is_finite x && Qle_bool (Qabs (JS.F2Q x - target)) tol.

(** [x] is within the relative error [tol] of [y]. *)
Definition rel_near (x y : float) (tol : Q) : bool :=
  is_finite x && Qle_bool (Qabs (JS.F2Q x - JS.F2Q y)) (tol * Qabs (JS.F2Q y)).

(** ** Inputs and runs the properties are stated on *)

(** The documented example run. *)
Definition example_inputs : Inputs :=
  {| widthMm := 1200; lengthMm := 1200; dpi := 250; sensorPx := 8192;
     pixelPitchUm := 7; wdMm := 600; speedMmS := 200; overlap := 0.12;
     cameras := 2; json := false |}.

Definition with_widthMm (w : float) (i : Inputs) : Inputs :=
  {| widthMm := w; lengthMm := lengthMm i; dpi := dpi i; sensorPx := sensorPx i;
     pixelPitchUm := pixelPitchUm i; wdMm := wdMm i; speedMmS := speedMmS i;
     overlap := overlap i; cameras := cameras i; json := json i |}.

Definition with_cameras (c : float) (i : Inputs) : Inputs :=
  {| widthMm := widthMm i; lengthMm := lengthMm i; dpi := dpi i; sensorPx := sensorPx i;
     pixelPitchUm := pixelPitchUm i; wdMm := wdMm i; speedMmS := speedMmS i;
     overlap := overlap i; cameras := c; json := json i |}.

(** Inputs of a plausible order of magnitude. *)
Definition plausibleInputs (i : Inputs) : bool :=
  (0.1 <=? widthMm i) && (widthMm i <=? 1e5)
  && (1 <=? dpi i) && (dpi i <=? 1e5)
  && (sensorPx i <=? 1e5)
  && (0.1 <=? pixelPitchUm i) && (pixelPitchUm i <=? 100)
  && (overlap i <=? 0.5)
  && (cameras i <=? 1e5)
  && (0.001 <=? wdMm i) && (wdMm i <=? 1e6).

(** An empty command line, and [--dpi 0] alone. *)
Definition argv_empty : Argv :=
  {| arg_width_mm := None; arg_length_mm := None; arg_dpi := None;
     arg_sensor_px := None; arg_pixel_pitch_um := None; arg_wd_mm := None;
     arg_speed_mm_s := None; arg_overlap := None; arg_cameras := None;
     arg_json := None |}.

Definition argv_dpi_zero : Argv :=
  {| arg_width_mm := None; arg_length_mm := None; arg_dpi := Some 0;
     arg_sensor_px := None; arg_pixel_pitch_um := None; arg_wd_mm := None;
     arg_speed_mm_s := None; arg_overlap := None; arg_cameras := None;
     arg_json := None |}.

(** A user who picks English and confirms the defaults, but types
    [8192.5] for the sensor pixels. *)
Definition user_fractional_sensor : User :=
  {| pick_lang := Some en;
     type_widthMm := [1200]; type_lengthMm := [1200]; type_dpi := [250];
     type_sensorPx := [8192.5]; type_pixelPitchUm := [7]; type_wdMm := [600];
     type_speedMmS := [200]; type_overlap := [0.12]; type_cameras := [0] |}.

(** A width and a density whose quotient [widthMm / (25.4 / dpi)] overflows. *)
Definition overflow_inputs : Inputs :=
  {| widthMm := 1e308; lengthMm := 1200; dpi := 1e308; sensorPx := 8192;
     pixelPitchUm := 7; wdMm := 600; speedMmS := 200; overlap := 0.12;
     cameras := 0; json := false |}.

(** The smallest positive width: [widthMm / 25.4] underflows to zero. *)
Definition underflow_inputs : Inputs :=
  {| widthMm := 5e-324; lengthMm := 1200; dpi := 1; sensorPx := 8192;
     pixelPitchUm := 7; wdMm := 600; speedMmS := 200; overlap := 0.12;
     cameras := 0; json := false |}.

(** A density so small that [25.4 / dpi] overflows. *)
Definition tiny_dpi_inputs : Inputs :=
  {| widthMm := 1200; lengthMm := 1200; dpi := 1e-310; sensorPx := 8192;
     pixelPitchUm := 7; wdMm := 600; speedMmS := 200; overlap := 0.12;
     cameras := 2; json := false |}.

(** A width of [2^-60] mm (8.673617379884035e-19) under one camera with a
    sensor 1 mm long: the magnification is [2^60]. *)
Definition huge_magnification_inputs : Inputs :=
  {| widthMm := 0x1p-60; lengthMm := 1200; dpi := 1; sensorPx := 1;
     pixelPitchUm := 1000; wdMm := 1; speedMmS := 200; overlap := 0;
     cameras := 1; json := false |}.

(** The documented example with no overlap. *)
Definition zero_overlap_inputs : Inputs :=
  {| widthMm := 1200; lengthMm := 1200; dpi := 250; sensorPx := 8192;
     pixelPitchUm := 7; wdMm := 600; speedMmS := 200; overlap := 0;
     cameras := 0; json := false |}.

(** The smallest [dpi] whose pixel size [25.4 / dpi] does not overflow:
    1.412921900152073e-307. *)
Definition dpi_min : float := 0x1.9666666666667p-1020.

(** The largest finite number, 1.7976931348623157e+308. *)
Definition Number_MAX_VALUE : float := 0x1.fffffffffffffp1023.

(** ** One input changed, the others kept *)

Definition with_dpi (d : float) (i : Inputs) : Inputs :=
  {| widthMm := widthMm i; lengthMm := lengthMm i; dpi := d; sensorPx := sensorPx i;
     pixelPitchUm := pixelPitchUm i; wdMm := wdMm i; speedMmS := speedMmS i;
     overlap := overlap i; cameras := cameras i; json := json i |}.

Definition with_sensorPx (s : float) (i : Inputs) : Inputs :=
  {| widthMm := widthMm i; lengthMm := lengthMm i; dpi := dpi i; sensorPx := s;
     pixelPitchUm := pixelPitchUm i; wdMm := wdMm i; speedMmS := speedMmS i;
     overlap := overlap i; cameras := cameras i; json := json i |}.

Definition with_overlap (o : float) (i : Inputs) : Inputs :=
  {| widthMm := widthMm i; lengthMm := lengthMm i; dpi := dpi i; sensorPx := sensorPx i;
     pixelPitchUm := pixelPitchUm i; wdMm := wdMm i; speedMmS := speedMmS i;
     overlap := o; cameras := cameras i; json := json i |}.

Definition with_lengthMm (l : float) (i : Inputs) : Inputs :=
  {| widthMm := widthMm i; lengthMm := l; dpi := dpi i; sensorPx := sensorPx i;
     pixelPitchUm := pixelPitchUm i; wdMm := wdMm i; speedMmS := speedMmS i;
     overlap := overlap i; cameras := cameras i; json := json i |}.

Definition with_speedMmS (s : float) (i : Inputs) : Inputs :=
  {| widthMm := widthMm i; lengthMm := lengthMm i; dpi := dpi i; sensorPx := sensorPx i;
     pixelPitchUm := pixelPitchUm i; wdMm := wdMm i; speedMmS := s;
     overlap := overlap i; cameras := cameras i; json := json i |}.

(** ** More vocabulary for the properties *)

(** A scan length and a traverse speed of a plausible order of magnitude. *)
Definition plausibleTravel (i : Inputs) : bool :=
  (0.1 <=? lengthMm i) && (lengthMm i <=? 1e5)
  && (0.001 <=? speedMmS i) && (speedMmS i <=? 1e5).

(** A positive finite number below [1e21], the numbers [toFixed] prints
    in plain decimal notation. *)
Definition plainNumber (x : float) : bool := positive_finite x && (x <? 1e21).

(** ** CLI: the console of [main] *)

(** What [main] writes to the console, in order.  [LogBanner lang] is
    [console.log(banner(lang))], [LogTable inputs result lang] is
    [console.log(prettyTable(inputs, result, lang))], [LogJson] the
    [JSON.stringify] line and [LogCancelled lang] the cancelled message of
    [loc[lang]]. *)
Inductive Output :=
| Clear
| LogCancelled (lang : Lang)
| LogBanner (lang : Lang)
| LogJson (inputs : Inputs) (result : Results)
| LogTable (inputs : Inputs) (result : Results) (lang : Lang).

(** [main] with its console: the same control flow as [main] above, each
    [console] call recorded, on the runs [Argv] and [User] describe.  A
    flag given twice (yargs then hands [main] an array, and [prettyTable]
    throws at [toFixed] after the banner) and an input stream that ends
    under a prompt are no values of these types. *)
Definition main_console (argv : Argv) (u : User) : list Output :=
  let noFlags := noFlags argv in
  match (if noFlags then pick_lang u else Some en) with
  | None => [LogCancelled en]
  | Some lang =>
      let inputs := inputs_of_argv argv in
      let shown := if noFlags then [Clear; LogBanner lang] else [] in
      match (if noFlags then prompts lang inputs u else Some inputs) with
      | None => shown ++ [LogCancelled lang]
      | Some inputs =>
          let result := calc inputs in
          if json inputs then shown ++ [LogJson inputs result]
          else shown ++ (if noFlags then [Clear] else [])
                     ++ [LogBanner lang; LogTable inputs result lang]
      end
  end.

(** The language an output is written in, if any. *)
Definition output_lang (o : Output) : option Lang :=
  match o with
  | LogCancelled l | LogBanner l | LogTable _ _ l => Some l
  | Clear | LogJson _ _ => None
  end.

(** Screen clearing and banners, as opposed to a result or a cancellation. *)
Definition is_chrome (o : Output) : bool :=
  match o with
  | Clear | LogBanner _ => true
  | _ => false
  end.

(** A user who picks Turkish, mistypes the density twice and asks for two
    cameras. *)
Definition user_example : User :=
  {| pick_lang := Some tr;
     type_widthMm := [1200]; type_lengthMm := [1200]; type_dpi := [nan; -250; 250];
     type_sensorPx := [8192]; type_pixelPitchUm := [7]; type_wdMm := [600];
     type_speedMmS := [200]; type_overlap := [1.2; 0.12]; type_cameras := [2] |}.

(** ** The presenter: [prettyTable] and the locale table *)

(** A cell of a [cli-table3] row: a string or a number. *)
Inductive Cell :=
| Text (s : string)
| Number (x : float).

Module Table.

(** [new Table({ head, colWidths, style: { head, border } })] and the rows
    pushed on it. *)
Record t := {
  head : list string;
  colWidths : list Z;
  style_head : list string;
  style_border : list string;
  rows : list (list Cell)
}.

End Table.

(** The libraries the presenter writes through, and the one built-in
    that makes text of a number: [chalk]'s styles, [toString] of a
    [cli-table3] table and [Number.prototype.toFixed], as the operations
    of an interface.  Nothing proved below depends on what they return. *)
Class Terminal := {
  chalk_bold : string -> string;
  chalk_bold_cyan : string -> string;
  chalk_bold_magenta : string -> string;
  Number_toFixed : float -> Z -> string;
  Table_toString : Table.t -> string
}.

Module Prompts.

Record t := {
  widthMm : string;
  lengthMm : string;
  dpi : string;
  sensorPx : string;
  pixelPitchUm : string;
  wdMm : string;
  speedMmS : string;
  overlap : string;
  cameras : string
}.

End Prompts.

Module Tables.

Record t := {
  inputsHeader : string;
  outputsHeader : string;
  parameter : string;
  value : string;
  units : string;
  metric : string;
  notes : string
}.

End Tables.

Module InputsTable.

Record t := {
  width : string;
  length : string;
  dpi : string;
  sensorPx : string;
  pixelPitch : string;
  wd : string;
  speed : string;
  overlap : string;
  plannedCams : string
}.

End InputsTable.

Module OutputsTable.

Record t := {
  pixelSize : string;
  eqDpi : string;
  pxNeeded : string;
  pxNeededMargin : string;
  camsRequired : string;
  fovPerCam : string;
  sensorLength : string;
  magnification : string;
  focalLength : string;
  linePitch : string;
  linesNeeded : string;
  lineRate : string
}.

End OutputsTable.

Module Tips.

Record t := {
  pixelSize : string;
  eqDpi : string;
  pxNeeded : string;
  pxNeededMargin : string;
  camsRequired : string;
  fovPerCam : string;
  sensorLength : string;
  magnification : string;
  focalLength : string;
  linePitch : string;
  linesNeeded : string;
  lineRate : string
}.

End Tips.

Module Misc.

Record t := {
  cancelled : string;
  languagePrompt : string
}.

End Misc.

Module Locale.

(** [LocaleStrings] of [localization.ts]. *)
Record t := {
  banner : string;
  prompts : Prompts.t;
  validation : ValidationStrings;
  tables : Tables.t;
  inputsTable : InputsTable.t;
  outputsTable : OutputsTable.t;
  tips : Tips.t;
  misc : Misc.t
}.

End Locale.

(** [loc] of [localization.ts]. *)
Definition loc `{Terminal} (lang : Lang) : Locale.t :=
  match lang with
  | en =>
  {|
     Locale.banner := "Die Scan Calc";
     Locale.prompts :=
       {|
          Prompts.widthMm := "Object width to cover (mm):";
          Prompts.lengthMm := "Object length (scan direction) (mm):";
          Prompts.dpi := "Target DPI on object:";
          Prompts.sensorPx := "Sensor pixels (e.g., 4096, 8192):";
          Prompts.pixelPitchUm := "Pixel pitch (µm):";
          Prompts.wdMm := "Working distance WD (mm):";
          Prompts.speedMmS := "Traverse speed (mm/s):";
          Prompts.overlap := "Total overlap fraction (e.g. 0.12 = 12%):";
          Prompts.cameras := "Number of cameras (0 = auto-calc):" |};
     Locale.validation := loc_validation en;
     Locale.tables :=
       {|
          Tables.inputsHeader := "INPUTS";
          Tables.outputsHeader := "OUTPUTS";
          Tables.parameter := "Parameter";
          Tables.value := "Value";
          Tables.units := "Units";
          Tables.metric := "Metric";
          Tables.notes := "Notes/Tips" |};
     Locale.inputsTable :=
       {|
          InputsTable.width := "Object width";
          InputsTable.length := "Object length (scan)";
          InputsTable.dpi := "Target DPI";
          InputsTable.sensorPx := "Sensor pixels";
          InputsTable.pixelPitch := "Pixel pitch";
          InputsTable.wd := "Working distance";
          InputsTable.speed := "Traverse speed";
          InputsTable.overlap := "Overlap (total)";
          InputsTable.plannedCams := "Planned cameras" |};
     Locale.outputsTable :=
       {|
          OutputsTable.pixelSize := "Pixel size on object";
          OutputsTable.eqDpi := "Equivalent DPI";
          OutputsTable.pxNeeded := "Pixels needed across";
          OutputsTable.pxNeededMargin := "Pixels w/ margin";
          OutputsTable.camsRequired := "Cameras required";
          OutputsTable.fovPerCam := "FOV per camera";
          OutputsTable.sensorLength := "Sensor length";
          OutputsTable.magnification := "Magnification";
          OutputsTable.focalLength := "Lens focal length";
          OutputsTable.linePitch := "Line pitch";
          OutputsTable.linesNeeded := "Lines needed (length)";
          OutputsTable.lineRate := "Line rate needed" |};
     Locale.tips :=
       {|
          Tips.pixelSize := "Defines the smallest feature you can resolve.";
          Tips.eqDpi := "Higher is better, but this is fixed by your choice of DPI.";
          Tips.pxNeeded := "Total required resolution for the object width.";
          Tips.pxNeededMargin := "Accounts for overlap, giving a safety margin.";
          Tips.camsRequired := "If this seems too high, consider wider-sensor cameras.";
          Tips.fovPerCam := "Check for lens distortion at edges.";
          Tips.sensorLength := "Physical size of the camera sensor array.";
          Tips.magnification := "Optical mag. < 0.1 or > 10 can be tricky.";
          Tips.focalLength := "Select a standard lens close to this value.";
          Tips.linePitch := "Distance object moves per scan line (set by DPI).";
          Tips.linesNeeded := "Total scan lines to cover the object length.";
          Tips.lineRate := "Select a camera with at least " ++ chalk_bold "2x" ++ " this rate for margin." |};
     Locale.misc :=
       {|
          Misc.cancelled := "Cancelled.";
          Misc.languagePrompt := "Select language / Dil seçin:" |} |}
  | tr =>
  {|
     Locale.banner := "Yüzey Tarama Hesaplayıcı";
     Locale.prompts :=
       {|
          Prompts.widthMm := "Taranacak nesne genişliği (mm):";
          Prompts.lengthMm := "Nesne uzunluğu (tarama yönü) (mm):";
          Prompts.dpi := "Nesne üzerindeki hedef DPI:";
          Prompts.sensorPx := "Sensör pikseli (örn: 4096, 8192):";
          Prompts.pixelPitchUm := "Piksel aralığı (µm):";
          Prompts.wdMm := "Çalışma mesafesi (mm):";
          Prompts.speedMmS := "Tarama hızı (mm/s):";
          Prompts.overlap := "Toplam bindirme oranı (örn: 0.12 = %12):";
          Prompts.cameras := "Kamera sayısı (0 = otomatik hesapla):" |};
     Locale.validation := loc_validation tr;
     Locale.tables :=
       {|
          Tables.inputsHeader := "GİRDİLER";
          Tables.outputsHeader := "ÇIKTILAR";
          Tables.parameter := "Parametre";
          Tables.value := "Değer";
          Tables.units := "Birim";
          Tables.metric := "Metrik";
          Tables.notes := "Notlar/İpuçları" |};
     Locale.inputsTable :=
       {|
          InputsTable.width := "Nesne genişliği";
          InputsTable.length := "Nesne uzunluğu (tarama)";
          InputsTable.dpi := "Hedef DPI";
          InputsTable.sensorPx := "Sensör pikselleri";
          InputsTable.pixelPitch := "Piksel aralığı";
          InputsTable.wd := "Çalışma mesafesi";
          InputsTable.speed := "Tarama hızı";
          InputsTable.overlap := "Bindirme (toplam)";
          InputsTable.plannedCams := "Planlanan kamera sayısı" |};
     Locale.outputsTable :=
       {|
          OutputsTable.pixelSize := "Nesne üzerindeki piksel boyutu";
          OutputsTable.eqDpi := "Eşdeğer DPI";
          OutputsTable.pxNeeded := "Gereken piksel (genişlik)";
          OutputsTable.pxNeededMargin := "Gereken piksel (marjlı)";
          OutputsTable.camsRequired := "Gereken kamera sayısı";
          OutputsTable.fovPerCam := "Kamera başına FOV";
          OutputsTable.sensorLength := "Sensör uzunluğu";
          OutputsTable.magnification := "Büyütme oranı";
          OutputsTable.focalLength := "Lens odak uzaklığı";
          OutputsTable.linePitch := "Satır aralığı";
          OutputsTable.linesNeeded := "Gereken satır sayısı (uzunluk)";
          OutputsTable.lineRate := "Gereken satır hızı" |};
     Locale.tips :=
       {|
          Tips.pixelSize := "Çözebileceğiniz en küçük ayrıntıyı tanımlar.";
          Tips.eqDpi := "Daha yüksek daha iyidir, ancak bu DPI seçiminizle sabittir.";
          Tips.pxNeeded := "Nesne genişliği için gereken toplam çözünürlük.";
          Tips.pxNeededMargin := "Bindirmeyi hesaba katarak bir güvenlik payı sağlar.";
          Tips.camsRequired := "Bu sayı çok yüksekse, daha geniş sensörlü kameraları düşünün.";
          Tips.fovPerCam := "Kenarlarda lens bozulmasını kontrol edin.";
          Tips.sensorLength := "Kamera sensör dizisinin fiziksel boyutu.";
          Tips.magnification := "Optik büyütme. < 0.1 veya > 10 olması durumu zorlaştırabilir.";
          Tips.focalLength := "Bu değere yakın standart bir lens seçin.";
          Tips.linePitch := "Nesnenin taranan satır başına hareket ettiği mesafe (DPI ile ayarlanır).";
          Tips.linesNeeded := "Nesne uzunluğunu taramak için gereken toplam satır sayısı.";
          Tips.lineRate := "Güvenlik payı için bu oranın en az " ++ chalk_bold "2 katı" ++ " hıza sahip bir kamera seçin." |};
     Locale.misc :=
       {|
          Misc.cancelled := "İptal edildi.";
          Misc.languagePrompt := "Select language / Dil seçin:" |} |}
  end.

Definition newline : string := String (Ascii.ascii_of_nat 10) EmptyString.

(** The rows pushed on the inputs table [t1]. *)
Definition inputRows `{Terminal} (t : Locale.t) (inputs : Inputs) (res : Results)
  : list (list Cell) :=
  let l := Locale.inputsTable t in
  [ [Text (InputsTable.width l); Text (Number_toFixed (widthMm inputs) 1); Text "mm"];
    [Text (InputsTable.length l); Text (Number_toFixed (lengthMm inputs) 1); Text "mm"];
    [Text (InputsTable.dpi l); Text (Number_toFixed (dpi inputs) 1); Text "dpi"];
    [Text (InputsTable.sensorPx l); Number (sensorPx inputs); Text "px"];
    [Text (InputsTable.pixelPitch l); Text (Number_toFixed (pixelPitchUm inputs) 2); Text "µm"];
    [Text (InputsTable.wd l); Text (Number_toFixed (wdMm inputs) 1); Text "mm"];
    [Text (InputsTable.speed l); Text (Number_toFixed (speedMmS inputs) 1); Text "mm/s"];
    [Text (InputsTable.overlap l); Text (Number_toFixed (overlap inputs * 100) 1); Text "%"];
    [Text (InputsTable.plannedCams l); Number (JS.or (cameras inputs) (camsRequired res));
     Text "pcs"] ].

(** The rows pushed on the outputs table [t2]. *)
Definition outputRows `{Terminal} (t : Locale.t) (res : Results) : list (list Cell) :=
  let l := Locale.outputsTable t in
  let tip := Locale.tips t in
  [ [Text (OutputsTable.pixelSize l); Text (Number_toFixed (pixelSizeObjMm res) 4);
     Text "mm/px"; Text (Tips.pixelSize tip)];
    [Text (OutputsTable.eqDpi l); Text (Number_toFixed (eqDpi res) 1);
     Text "dpi"; Text (Tips.eqDpi tip)];
    [Text (OutputsTable.pxNeeded l); Text (Number_toFixed (pxNeededAcross res) 0);
     Text "px"; Text (Tips.pxNeeded tip)];
    [Text (OutputsTable.pxNeededMargin l); Text (Number_toFixed (pxNeededWithMargin res) 0);
     Text "px"; Text (Tips.pxNeededMargin tip)];
    [Text (OutputsTable.camsRequired l); Number (camsRequired res);
     Text "pcs"; Text (Tips.camsRequired tip)];
    [Text (OutputsTable.fovPerCam l); Text (Number_toFixed (fovPerCamMm res) 1);
     Text "mm"; Text (Tips.fovPerCam tip)];
    [Text (OutputsTable.sensorLength l); Text (Number_toFixed (sensorLengthMm res) 3);
     Text "mm"; Text (Tips.sensorLength tip)];
    [Text (OutputsTable.magnification l); Text (Number_toFixed (magnification res) 4);
     Text "—"; Text (Tips.magnification tip)];
    [Text (OutputsTable.focalLength l); Text (Number_toFixed (focalLengthMm res) 1);
     Text "mm"; Text (Tips.focalLength tip)];
    [Text (OutputsTable.linePitch l); Text (Number_toFixed (linePitchMm res) 3);
     Text "mm/line"; Text (Tips.linePitch tip)];
    [Text (OutputsTable.linesNeeded l); Text (Number_toFixed (linesNeeded res) 0);
     Text "lines"; Text (Tips.linesNeeded tip)];
    [Text (OutputsTable.lineRate l); Text (Number_toFixed (lineRateHz res) 2);
     Text "Hz"; Text (Tips.lineRate tip)] ].

(** The two tables of [prettyTable], before they are drawn. *)
Definition inputsTable `{Terminal} (inputs : Inputs) (res : Results) (lang : Lang)
  : Table.t :=
  let t := loc lang in
  {| Table.head := [chalk_bold (Tables.parameter (Locale.tables t));
                    chalk_bold (Tables.value (Locale.tables t));
                    chalk_bold (Tables.units (Locale.tables t))];
     Table.colWidths := [35; 15; 10]%Z;
     Table.style_head := ["green"%string];
     Table.style_border := ["grey"%string];
     Table.rows := inputRows t inputs res |}.

Definition outputsTable `{Terminal} (res : Results) (lang : Lang) : Table.t :=
  let t := loc lang in
  {| Table.head := [chalk_bold (Tables.metric (Locale.tables t));
                    chalk_bold (Tables.value (Locale.tables t));
                    chalk_bold (Tables.units (Locale.tables t));
                    chalk_bold (Tables.notes (Locale.tables t))];
     Table.colWidths := [35; 15; 15; 70]%Z;
     Table.style_head := ["magenta"%string];
     Table.style_border := ["grey"%string];
     Table.rows := outputRows t res |}.

Definition prettyTable `{Terminal} (inputs : Inputs) (res : Results) (lang : Lang)
  : string :=
  let t := loc lang in
  (chalk_bold_cyan (newline ++ Tables.inputsHeader (Locale.tables t))
   ++ newline
   ++ Table_toString (inputsTable inputs res lang)
   ++ newline
   ++ chalk_bold_magenta (Tables.outputsHeader (Locale.tables t))
   ++ newline
   ++ Table_toString (outputsTable res lang))%string.

(** What a row says apart from its label and its tip: the value and the unit. *)
Definition value_and_unit (row : list Cell) : list Cell := firstn 2 (tl row).

(** A terminal that draws nothing, to run the presenter on an example. *)
Definition blank_terminal : Terminal :=
  {| chalk_bold := fun s => s;
     chalk_bold_cyan := fun s => s;
     chalk_bold_magenta := fun s => s;
     Number_toFixed := fun _ _ => EmptyString;
     Table_toString := fun _ => EmptyString |}.

(** * Binary64 arithmetic

    The operations of the Floats library on finite numbers, characterised
    as the exact rational result rounded to nearest: monotonicity,
    exactness on the grid of the format, relative error in the normal
    range, and [Math.ceil]. *)

Module Binary64.

#[local] Open Scope Z_scope.

Definition bpow (e : Z) : Q := (2 ^ e)%Q.

(** Canonical mantissa/exponent pairs of binary64, the exponent unbounded above. *)
Definition canon (m e : Z) : Prop :=
  -1074 <= e /\ 0 < m < 2 ^ 53 /\ (2 ^ 52 <= m \/ e = -1074).

(** [v] lies in the slice [m * 2^e, (m + 1) * 2^e[ at the place [l] says. *)
Definition inbetween (m e : Z) (l : location) (v : Q) : Prop :=
  match l with
  | loc_Exact => (v == inject_Z m * bpow e)%Q
  | loc_Inexact c =>
      (inject_Z m * bpow e < v)%Q /\ (v < (inject_Z m + 1) * bpow e)%Q /\
      (v ?= (inject_Z m + (1 # 2)) * bpow e)%Q = c
  end.

(** The number of sign [s] and magnitude [m * 2^e], for [(m, e)] canonical,
    [m = 0] or [m = 2^53]: zero, a finite number, or infinity past the
    largest exponent. *)
Definition pack (s : bool) (m e : Z) : spec_float :=
  match m with
  | Zpos p =>
      if m =? 2 ^ 53 then
        if e + 1 <=? 971 then S754_finite s (2 ^ 52)%positive (e + 1)
        else S754_infinity s
      else if e <=? 971 then S754_finite s p e else S754_infinity s
  | _ => S754_zero s
  end.

(** Points of the format's grid, the exponent unbounded above:
    [m * 2^e] with [(m, e)] canonical, or [m = 0], or [m = 2^53]. *)
Definition grid (m e : Z) : Prop :=
  -1074 <= e /\ 0 <= m <= 2 ^ 53 /\ (2 ^ 52 <= m \/ e = -1074).

(** [v >= 0] lies in the slice [m1 * 2^e1, (m1 + 1) * 2^e1[ of the grid
    and [m2 * 2^e1] is an end of the slice within half its width of [v]. *)
Definition Slice (v : Q) (m1 e1 m2 : Z) : Prop :=
  grid m1 e1 /\ m1 < 2 ^ 53 /\
  (inject_Z m1 * bpow e1 <= v)%Q /\ (v < (inject_Z m1 + 1) * bpow e1)%Q /\
  (m2 = m1 \/ m2 = m1 + 1) /\
  (inject_Z m2 * bpow e1 - bpow (e1 - 1) <= v)%Q /\
  (v <= inject_Z m2 * bpow e1 + bpow (e1 - 1))%Q.

(** [z] is [v >= 0] rounded to nearest, with sign [s]. *)
Definition Rounds (v : Q) (s : bool) (z : spec_float) : Prop :=
  exists m1 e1 m2, Slice v m1 e1 m2 /\ z = pack s m2 e1.

Definition Qmag (m : positive) (e : Z) : Q := inject_Z (Zpos m) * bpow e.

Definition SPosFin (z : spec_float) : Prop :=
  exists m e, z = S754_finite false m e /\ canon (Zpos m) e /\ e <= 971.

(** Non-negative and not NaN: a zero, a positive finite number or [+infinity]. *)
Definition SNonNeg (z : spec_float) : Prop :=
  z = S754_zero false \/ SPosFin z \/ z = S754_infinity false.

Definition PosFin (x : float) : Prop := SPosFin (Prim2SF x).
Definition NonNeg (x : float) : Prop := SNonNeg (Prim2SF x).

(** The largest finite number. *)
Definition Qmax : Q := inject_Z (2 ^ 53 - 1) * bpow 971.

(** Not negative: non-negative, or NaN. *)
Definition SNotNeg (z : spec_float) : Prop := z = S754_nan \/ SNonNeg z.

(** [lo <= x <= hi], in the order of the format. *)
Definition Between (lo hi x : float) : Prop :=
  (lo <=? x)%float = true /\ (x <=? hi)%float = true.

Ltac qcompare_to_order :=
  repeat match goal with
  | H : (_ ?= _)%Q = Lt |- _ => rewrite <- Qlt_alt in H
  | H : (_ ?= _)%Q = Gt |- _ => rewrite <- Qgt_alt in H
  | H : (_ ?= _)%Q = Eq |- _ => rewrite <- Qeq_alt in H
  | |- (_ ?= _)%Q = Lt => rewrite <- Qlt_alt
  | |- (_ ?= _)%Q = Gt => rewrite <- Qgt_alt
  | |- (_ ?= _)%Q = Eq => rewrite <- Qeq_alt
  end.

Ltac qle_compute := apply Qle_bool_iff; vm_compute; reflexivity.

Ltac interval_step lem Ba Bb name :=
  match type of Ba with
  | Between ?la ?ha ?a =>
      match type of Bb with
      | Between ?lb ?hb ?b =>
          assert (name := lem la ha lb hb a b eq_refl eq_refl eq_refl eq_refl Ba Bb)
      end
  end.

(** ** Powers of two, and the rounding of a bracketed value *)

Lemma bpow_pos e : (0 < bpow e)%Q.
Proof. apply Qpower_0_lt. reflexivity. Qed.

Lemma bpow_plus a b : (bpow (a + b) == bpow a * bpow b)%Q.
Proof. apply Qpower_plus. discriminate. Qed.

Lemma bpow_0 : (bpow 0 == 1)%Q.
Proof. reflexivity. Qed.

Lemma bpow_1 : (bpow 1 == 2)%Q.
Proof. reflexivity. Qed.

Lemma bpow_succ e : (bpow (e + 1) == 2 * bpow e)%Q.
Proof. rewrite bpow_plus, bpow_1. ring. Qed.

Lemma bpow_pred e : (2 * bpow (e - 1) == bpow e)%Q.
Proof. rewrite <- bpow_succ. replace (e - 1 + 1) with e by lia. reflexivity. Qed.

Lemma bpow_le a b : a <= b -> (bpow a <= bpow b)%Q.
Proof. intros H. apply Qpower_le_compat_l; [exact H | discriminate]. Qed.

Lemma bpow_lt a b : a < b -> (bpow a < bpow b)%Q.
Proof. intros H. apply Qpower_lt_compat_l; [exact H | reflexivity]. Qed.

Lemma bpow_inject n : 0 <= n -> (bpow n == inject_Z (2 ^ n))%Q.
Proof. intros H. unfold bpow. rewrite Zpower_Qpower by exact H. reflexivity. Qed.

Lemma digits2_size p : digits2_pos p = Pos.size p.
Proof. induction p; simpl; congruence. Qed.

Lemma digits2_bounds p :
  2 ^ (Zpos (digits2_pos p) - 1) <= Zpos p < 2 ^ Zpos (digits2_pos p).
Proof.
  rewrite digits2_size. split.
  - pose proof (Pos.size_le p) as H.
    assert (H' : 2 ^ Zpos (Pos.size p) <= 2 * Zpos p).
    { change 2 with (Zpos 2) at 1. rewrite <- Pos2Z.inj_pow. exact H. }
    replace (Zpos (Pos.size p)) with (Z.succ (Zpos (Pos.size p) - 1)) in H' by lia.
    rewrite Z.pow_succ_r in H' by lia. lia.
  - pose proof (Pos.size_gt p) as H.
    change 2 with (Zpos 2). rewrite <- Pos2Z.inj_pow. exact H.
Qed.

Lemma fexp64 x : fexp prec emax x = Z.max (x - 53) (-1074).
Proof. reflexivity. Qed.

Lemma digits2_le p n : 0 <= n -> (Zpos (digits2_pos p) <= n <-> Zpos p < 2 ^ n).
Proof.
  intros Hn. pose proof (digits2_bounds p) as [Hlo Hhi]. split; intros H.
  - apply Z.lt_le_trans with (1 := Hhi). apply Z.pow_le_mono_r; lia.
  - destruct (Z_le_gt_dec (Zpos (digits2_pos p)) n) as [|Hgt]; [assumption|].
    assert (2 ^ n <= 2 ^ (Zpos (digits2_pos p) - 1)) by (apply Z.pow_le_mono_r; lia).
    lia.
Qed.

Lemma digits2_ge p n : 0 < n -> (n <= Zpos (digits2_pos p) <-> 2 ^ (n - 1) <= Zpos p).
Proof.
  intros Hn. pose proof (digits2_le p (n - 1) ltac:(lia)). lia.
Qed.

Lemma canonical_mantissa_canon m e :
  canonical_mantissa prec emax m e = true <-> canon (Zpos m) e.
Proof.
  unfold canonical_mantissa, canon. rewrite fexp64, Z.eqb_eq.
  pose proof (digits2_le m 53 ltac:(lia)).
  pose proof (digits2_ge m 53 ltac:(lia)).
  change (53 - 1) with 52 in *. lia.
Qed.

Lemma bounded_canon m e :
  bounded prec emax m e = true <-> canon (Zpos m) e /\ e <= 971.
Proof.
  unfold bounded. rewrite andb_true_iff, canonical_mantissa_canon, Z.leb_le.
  reflexivity.
Qed.

Lemma inject_Z_xO p : (inject_Z (Zpos p~0) == 2 * inject_Z (Zpos p))%Q.
Proof. rewrite Pos2Z.inj_xO, inject_Z_mult. reflexivity. Qed.

Lemma inject_Z_xI p : (inject_Z (Zpos p~1) == 2 * inject_Z (Zpos p) + 1)%Q.
Proof. rewrite Pos2Z.inj_xI, inject_Z_plus, inject_Z_mult. reflexivity. Qed.

Lemma shr_1_spec mrs e v :
  0 <= shr_m mrs ->
  inbetween (shr_m mrs) e (loc_of_shr_record mrs) v ->
  0 <= shr_m (shr_1 mrs) /\ shr_m (shr_1 mrs) = shr_m mrs / 2 /\
  inbetween (shr_m (shr_1 mrs)) (e + 1) (loc_of_shr_record (shr_1 mrs)) v.
Proof.
  destruct mrs as [m r s]. simpl shr_m at 1 2. intros Hm Hv.
  pose proof (bpow_succ e) as Hs. pose proof (bpow_pos e) as Hp.
  destruct m as [|p|p]; [| |lia].
  - split; [destruct r, s; simpl; lia|]. split; [destruct r, s; reflexivity|].
    destruct r, s; simpl in *; unfold inbetween in *; rewrite ?Hs;
      repeat match goal with H : _ /\ _ |- _ => destruct H end;
      qcompare_to_order; change (inject_Z 0) with 0%Q in *;
      repeat split; qcompare_to_order; lra.
  - destruct p as [p|p|].
    + pose proof (inject_Z_xI p) as Hi.
      split; [destruct r, s; simpl; lia|].
      split; [destruct r, s; simpl; rewrite Pos2Z.inj_xI;
              apply Z.div_unique with 1; lia|].
      destruct r, s; simpl in *; unfold inbetween in *; rewrite ?Hs;
        repeat match goal with H : _ /\ _ |- _ => destruct H end;
        qcompare_to_order; rewrite Hi in *; repeat split; qcompare_to_order; lra.
    + pose proof (inject_Z_xO p) as Hi.
      split; [destruct r, s; simpl; lia|].
      split; [destruct r, s; simpl; rewrite Pos2Z.inj_xO;
              apply Z.div_unique with 0; lia|].
      destruct r, s; simpl in *; unfold inbetween in *; rewrite ?Hs;
        repeat match goal with H : _ /\ _ |- _ => destruct H end;
        qcompare_to_order; rewrite Hi in *; repeat split; qcompare_to_order; lra.
    + split; [destruct r, s; simpl; lia|]. split; [destruct r, s; reflexivity|].
      destruct r, s; simpl in *; unfold inbetween in *; rewrite ?Hs;
        repeat match goal with H : _ /\ _ |- _ => destruct H end;
        qcompare_to_order; change (inject_Z 0) with 0%Q in *;
        change (inject_Z 1) with 1%Q in *;
        repeat split; qcompare_to_order; lra.
Qed.

Lemma iter_shr_1_spec n : forall mrs e v,
  0 <= shr_m mrs ->
  inbetween (shr_m mrs) e (loc_of_shr_record mrs) v ->
  0 <= shr_m (iter_pos shr_1 n mrs) /\
  shr_m (iter_pos shr_1 n mrs) = shr_m mrs / 2 ^ Zpos n /\
  inbetween (shr_m (iter_pos shr_1 n mrs)) (e + Zpos n)
            (loc_of_shr_record (iter_pos shr_1 n mrs)) v.
Proof.
  induction n as [n IH|n IH|]; intros mrs e v Hm Hv; simpl iter_pos.
  - destruct (shr_1_spec mrs e v Hm Hv) as (H1 & E1 & B1).
    destruct (IH _ _ _ H1 B1) as (H2 & E2 & B2).
    destruct (IH _ _ _ H2 B2) as (H3 & E3 & B3).
    split; [exact H3|]. split.
    + rewrite E3, E2, E1, !Z.div_div by lia.
      f_equal. replace (Zpos n~1) with (1 + Zpos n + Zpos n) by lia.
      rewrite !Z.pow_add_r by lia. ring.
    + replace (e + Zpos n~1) with (e + 1 + Zpos n + Zpos n) by lia. exact B3.
  - destruct (IH _ _ _ Hm Hv) as (H2 & E2 & B2).
    destruct (IH _ _ _ H2 B2) as (H3 & E3 & B3).
    split; [exact H3|]. split.
    + rewrite E3, E2, !Z.div_div by lia.
      f_equal. replace (Zpos n~0) with (Zpos n + Zpos n) by lia.
      rewrite !Z.pow_add_r by lia. ring.
    + replace (e + Zpos n~0) with (e + Zpos n + Zpos n) by lia. exact B3.
  - exact (shr_1_spec mrs e v Hm Hv).
Qed.

Lemma shr_record_of_loc_m m l : shr_m (shr_record_of_loc m l) = m.
Proof. destruct l as [|[]]; reflexivity. Qed.

Lemma loc_of_shr_record_of_loc m l :
  loc_of_shr_record (shr_record_of_loc m l) = l.
Proof. destruct l as [|[]]; reflexivity. Qed.

(** The first step of rounding: the slice is widened to the exponent of
    the format, keeping track of where [v] lies in it. *)
Lemma shr_fexp_spec m e l v :
  0 <= m -> inbetween m e l v -> e <= fexp prec emax (Zdigits2 m + e) ->
  let e1 := fexp prec emax (Zdigits2 m + e) in
  let mrs := fst (shr_fexp prec emax m e l) in
  snd (shr_fexp prec emax m e l) = e1 /\
  0 <= shr_m mrs /\ shr_m mrs = m / 2 ^ (e1 - e) /\
  inbetween (shr_m mrs) e1 (loc_of_shr_record mrs) v.
Proof.
  intros Hm Hv He e1 mrs. subst mrs. unfold shr_fexp, shr. fold e1.
  destruct (e1 - e) as [|n|n] eqn:En; simpl fst; simpl snd.
  - rewrite shr_record_of_loc_m, loc_of_shr_record_of_loc, Z.div_1_r.
    replace e1 with e by lia. auto.
  - pose proof (iter_shr_1_spec n (shr_record_of_loc m l) e v) as H.
    rewrite shr_record_of_loc_m, loc_of_shr_record_of_loc in H.
    destruct (H Hm Hv) as (H1 & H2 & H3).
    replace (e + Zpos n) with e1 in * by lia. auto.
  - subst e1. lia.
Qed.

Lemma inbetween_bounds m e l v :
  inbetween m e l v ->
  (inject_Z m * bpow e <= v)%Q /\ (v < (inject_Z m + 1) * bpow e)%Q.
Proof.
  pose proof (bpow_pos e). destruct l; unfold inbetween; intros Hv.
  - rewrite Hv. split; lra.
  - destruct Hv as (H1 & H2 & _). split; lra.
Qed.

Lemma round_nearest_even_spec m e l v :
  inbetween m e l v ->
  let m2 := round_nearest_even m l in
  (m2 = m \/ m2 = m + 1) /\
  (inject_Z m2 * bpow e - bpow (e - 1) <= v)%Q /\
  (v <= inject_Z m2 * bpow e + bpow (e - 1))%Q.
Proof.
  intros Hv m2. subst m2. pose proof (bpow_pos e). pose proof (bpow_pred e) as Hh.
  assert (Hi : (inject_Z (m + 1) == inject_Z m + 1)%Q)
    by (rewrite inject_Z_plus; reflexivity).
  destruct l as [|[]]; unfold inbetween, round_nearest_even in *.
  - split; [auto|]. rewrite Hv. split; lra.
  - destruct Hv as (H1 & H2 & H3). qcompare_to_order.
    destruct (Z.even m); (split; [auto|]); rewrite ?Hi; split; lra.
  - destruct Hv as (H1 & H2 & H3). qcompare_to_order.
    split; [auto|]. split; lra.
  - destruct Hv as (H1 & H2 & H3). qcompare_to_order.
    split; [auto|]. rewrite Hi. split; lra.
Qed.

Lemma shr_fexp_exact_noshift m e :
  fexp prec emax (Zdigits2 m + e) = e ->
  shr_fexp prec emax m e loc_Exact
  = ({| shr_m := m; shr_r := false; shr_s := false |}, e).
Proof. intros H. unfold shr_fexp. rewrite H, Z.sub_diag. reflexivity. Qed.

(** The rounding step shared by all the operations. *)
Theorem binary_round_aux_spec s m e l v :
  0 <= m -> inbetween m e l v -> e <= fexp prec emax (Zdigits2 m + e) ->
  Rounds v s (binary_round_aux prec emax s m e l).
Proof.
  intros Hm Hv He.
  destruct (shr_fexp_spec m e l v Hm Hv He) as (E1 & P1 & D1 & B1).
  unfold binary_round_aux.
  destruct (shr_fexp prec emax m e l) as [mrs e1'] eqn:E.
  simpl fst in *; simpl snd in *. subst e1'.
  set (e1 := fexp prec emax (Zdigits2 m + e)) in *.
  set (m1 := shr_m mrs) in *.
  destruct (round_nearest_even_spec m1 e1 _ v B1) as (C & A1 & A2).
  set (m2 := round_nearest_even m1 (loc_of_shr_record mrs)) in *.
  assert (F1 : -1074 <= e1) by (unfold e1; rewrite fexp64; lia).
  assert (F23 : m1 < 2 ^ 53 /\ (2 ^ 52 <= m1 \/ e1 = -1074)).
  { destruct m as [|p|p]; [| |lia].
    - rewrite Z.div_0_l in D1 by (apply Z.pow_nonzero; lia).
      unfold e1 in *. rewrite fexp64 in *. simpl Zdigits2 in *. lia.
    - pose proof (digits2_bounds p) as [Hlo Hhi].
      unfold e1 in He, F1, D1 |- *. rewrite fexp64 in *. simpl Zdigits2 in *.
      set (d := Zpos (digits2_pos p)) in *.
      set (n := Z.max (d + e - 53) (-1074) - e) in *.
      assert (Hn : 0 <= n) by lia.
      assert (Hd : 0 < d) by (unfold d; lia).
      split.
      + rewrite D1. apply Z.div_lt_upper_bound; [apply Z.pow_pos_nonneg; lia|].
        rewrite <- Z.pow_add_r by lia.
        apply Z.lt_le_trans with (1 := Hhi). apply Z.pow_le_mono_r; lia.
      + destruct (Z.eq_dec (Z.max (d + e - 53) (-1074)) (-1074)) as [|Hne];
          [right; assumption | left].
        rewrite D1. apply Z.div_le_lower_bound; [apply Z.pow_pos_nonneg; lia|].
        rewrite <- Z.pow_add_r by lia.
        replace (n + 52) with (d - 1) by lia. exact Hlo. }
  destruct F23 as [F2 F3].
  destruct (inbetween_bounds _ _ _ _ B1) as [V1 V2].
  exists m1, e1, m2. split; [unfold Slice, grid; repeat (split; [assumption || lia|]); assumption|].
  destruct (Z.eq_dec m2 0) as [Z0|NZ0].
  - assert (e1 = -1074) by lia.
    rewrite Z0, shr_fexp_exact_noshift by (subst e1; rewrite H; reflexivity).
    reflexivity.
  - destruct (Z.eq_dec m2 (2 ^ 53)) as [Z1|NZ1].
    + rewrite Z1. unfold shr_fexp. rewrite fexp64.
      change (Zdigits2 (2 ^ 53)) with 54.
      replace (Z.max (54 + e1 - 53) (-1074) - e1) with 1 by lia.
      reflexivity.
    + destruct m2 as [|p|p]; [lia| |lia].
      assert (Hp : Zpos p < 2 ^ 53) by lia.
      rewrite shr_fexp_exact_noshift.
      * unfold pack. simpl shr_m.
        destruct (Z.eqb_spec (Zpos p) (2 ^ 53)); [contradiction|].
        reflexivity.
      * rewrite fexp64. simpl Zdigits2.
        pose proof (digits2_le p 53 ltac:(lia)).
        pose proof (digits2_ge p 53 ltac:(lia)).
        change (53 - 1) with 52 in *. lia.
Qed.

Lemma bpow_split a b : (bpow a == bpow (a - b) * bpow b)%Q.
Proof. rewrite <- bpow_plus. replace (a - b + b) with a by lia. reflexivity. Qed.

Lemma inject_Z_le a b : a <= b -> (inject_Z a <= inject_Z b)%Q.
Proof. rewrite Zle_Qle. auto. Qed.

Lemma inject_Z_lt a b : a < b -> (inject_Z a < inject_Z b)%Q.
Proof. rewrite Zlt_Qlt. auto. Qed.

Lemma inject_Z_succ a : (inject_Z (a + 1) == inject_Z a + 1)%Q.
Proof. rewrite inject_Z_plus. reflexivity. Qed.

(** No point of the grid lies strictly inside a slice. *)
Lemma grid_gap m1 e1 k ef :
  grid m1 e1 -> m1 < 2 ^ 53 -> grid k ef ->
  (inject_Z k * bpow ef <= inject_Z m1 * bpow e1)%Q \/
  ((inject_Z m1 + 1) * bpow e1 <= inject_Z k * bpow ef)%Q.
Proof.
  intros (G1 & G2 & G3) Hlt (K1 & K2 & K3).
  pose proof (bpow_pos e1) as P1. pose proof (bpow_pos ef) as Pf.
  destruct (Z_le_gt_dec e1 ef) as [Hle|Hgt].
  - assert (E : (inject_Z k * bpow ef == inject_Z (k * 2 ^ (ef - e1)) * bpow e1)%Q).
    { rewrite inject_Z_mult, (bpow_split ef e1), (bpow_inject (ef - e1)) by lia.
      ring. }
    rewrite E. clear E.
    assert (0 < 2 ^ (ef - e1)) by (apply Z.pow_pos_nonneg; lia).
    destruct (Z_le_gt_dec (k * 2 ^ (ef - e1)) m1) as [L|G].
    + left. apply Qmult_le_compat_r; [apply inject_Z_le; exact L | lra].
    + right. rewrite <- inject_Z_succ.
      apply Qmult_le_compat_r; [apply inject_Z_le; lia | lra].
  - left.
    assert (M : 2 ^ 52 <= m1) by lia.
    apply inject_Z_le in M.
    assert (K : (inject_Z k <= inject_Z (2 ^ 53))%Q) by (apply inject_Z_le; lia).
    assert (K0 : (0 <= inject_Z k)%Q) by (apply (inject_Z_le 0); lia).
    pose proof (bpow_le ef (e1 - 1) ltac:(lia)) as B.
    pose proof (bpow_pred e1) as Hh.
    change (inject_Z (2 ^ 53)) with (9007199254740992 # 1)%Q in K.
    change (inject_Z (2 ^ 52)) with (4503599627370496 # 1)%Q in M.
    apply Qle_trans with ((9007199254740992 # 1) * bpow (e1 - 1))%Q.
    + apply Qmult_le_compat_nonneg; split; lra.
    + apply Qle_trans with ((4503599627370496 # 1) * bpow e1)%Q; [lra|].
      apply Qmult_le_compat_r; lra.
Qed.

Lemma Slice_grid_end v m1 e1 m2 : Slice v m1 e1 m2 -> grid m2 e1.
Proof. unfold Slice, grid. intros (G & L & _ & _ & C & _). lia. Qed.

Lemma Slice_grid_hi v m1 e1 m2 : Slice v m1 e1 m2 -> grid (m1 + 1) e1.
Proof. unfold Slice, grid. intros (G & L & _). lia. Qed.

(** Rounding to nearest is monotone. *)
Lemma Slice_mono v m1 e1 m2 v' m1' e1' m2' :
  Slice v m1 e1 m2 -> Slice v' m1' e1' m2' -> (v < v')%Q ->
  (inject_Z m2 * bpow e1 <= inject_Z m2' * bpow e1')%Q.
Proof.
  intros S S' Hv.
  pose proof (Slice_grid_hi _ _ _ _ S) as Gh.
  pose proof (Slice_grid_hi _ _ _ _ S') as Gh'.
  destruct S as (G & L & V1 & V2 & C & A1 & A2).
  destruct S' as (G' & L' & V1' & V2' & C' & A1' & A2').
  pose proof (grid_gap m1' e1' m1 e1 G' L' G) as N1.
  pose proof (grid_gap m1 e1 (m1' + 1) e1' G L Gh') as N2.
  pose proof (grid_gap m1 e1 m1' e1' G L G') as N3.
  pose proof (grid_gap m1' e1' (m1 + 1) e1 G' L' Gh) as N4.
  rewrite inject_Z_succ in N2, N4.
  pose proof (bpow_pred e1) as Hh. pose proof (bpow_pred e1') as Hh'.
  pose proof (bpow_pos e1). pose proof (bpow_pos e1').
  destruct C as [-> | ->], C' as [-> | ->]; rewrite ?inject_Z_succ in *;
    destruct N1, N2, N3, N4; lra.
Qed.

Lemma canon_grid m e : canon m e -> grid m e.
Proof. unfold canon, grid. lia. Qed.

Lemma canon_exp_lt m e m' e' :
  canon m e -> canon m' e' -> e < e' ->
  (inject_Z m * bpow e < inject_Z m' * bpow e')%Q.
Proof.
  intros (C1 & C2 & C3) (C1' & C2' & C3') He.
  assert (M : 2 ^ 52 <= m') by lia. apply inject_Z_le in M.
  assert (K : (inject_Z m < inject_Z (2 ^ 53))%Q) by (apply inject_Z_lt; lia).
  pose proof (bpow_le e (e' - 1) ltac:(lia)) as B.
  pose proof (bpow_pred e') as Hh.
  pose proof (bpow_pos e). pose proof (bpow_pos e').
  change (inject_Z (2 ^ 53)) with (9007199254740992 # 1)%Q in K.
  change (inject_Z (2 ^ 52)) with (4503599627370496 # 1)%Q in M.
  apply Qlt_le_trans with ((9007199254740992 # 1) * bpow e)%Q.
  - apply Qmult_lt_compat_r; assumption.
  - apply Qle_trans with ((4503599627370496 # 1) * bpow e')%Q; [lra|].
    apply Qmult_le_compat_r; lra.
Qed.

(** On canonical positive numbers the comparison of the format is the
    comparison of the values. *)
Lemma SFcompare_finite_pos m e m' e' :
  canon (Zpos m) e -> canon (Zpos m') e' ->
  SFcompare (S754_finite false m e) (S754_finite false m' e')
  = Some (inject_Z (Zpos m) * bpow e ?= inject_Z (Zpos m') * bpow e')%Q.
Proof.
  intros C C'. simpl. f_equal. symmetry.
  destruct (Z.compare_spec e e') as [E|E|E].
  - subst e'. pose proof (bpow_pos e).
    rewrite Pos.compare_cont_spec. simpl Pos.switch_Eq.
    destruct (Pos.compare_spec m m') as [M|M|M].
    + subst. apply Qeq_alt. reflexivity.
    + apply Qlt_alt. apply Qmult_lt_compat_r; [assumption|].
      apply inject_Z_lt. lia.
    + apply Qgt_alt. apply Qmult_lt_compat_r; [assumption|].
      apply inject_Z_lt. lia.
  - apply Qlt_alt. apply canon_exp_lt; assumption.
  - apply Qgt_alt. apply canon_exp_lt; assumption.
Qed.

Lemma pack_cases s m e :
  grid m e ->
  (m = 0 /\ pack s m e = S754_zero s) \/
  (exists mc ec,
     canon (Zpos mc) ec /\
     (inject_Z (Zpos mc) * bpow ec == inject_Z m * bpow e)%Q /\
     ((ec <= 971 /\ pack s m e = S754_finite s mc ec) \/
      (971 < ec /\ pack s m e = S754_infinity s))).
Proof.
  intros (G1 & G2 & G3). unfold pack.
  destruct m as [|p|p]; [left; auto| right |lia].
  destruct (Z.eqb_spec (Zpos p) (2 ^ 53)) as [E|E].
  - exists (2 ^ 52)%positive, (e + 1). split; [unfold canon; lia|]. split.
    + rewrite E, bpow_succ.
      change (inject_Z (2 ^ 53)) with (9007199254740992 # 1)%Q.
      change (inject_Z (Zpos (2 ^ 52))) with (4503599627370496 # 1)%Q. ring.
    + destruct (Z.leb_spec (e + 1) 971); [left | right]; split; auto; lia.
  - exists p, e. split; [unfold canon; lia|]. split; [reflexivity|].
    destruct (Z.leb_spec e 971); [left | right]; split; auto; lia.
Qed.

Lemma canon_lt_bpow m e : canon m e -> (inject_Z m * bpow e < bpow (e + 53))%Q.
Proof.
  intros (C1 & C2 & C3). rewrite (Z.add_comm e 53), bpow_plus.
  rewrite (bpow_inject 53) by lia.
  apply Qmult_lt_compat_r; [apply bpow_pos | apply inject_Z_lt; lia].
Qed.

Lemma canon_ge_bpow m e :
  canon m e -> -1074 < e -> (bpow (e + 52) <= inject_Z m * bpow e)%Q.
Proof.
  intros (C1 & C2 & C3) He. rewrite (Z.add_comm e 52), bpow_plus.
  rewrite (bpow_inject 52) by lia.
  apply Qmult_le_compat_r; [apply inject_Z_le; lia | apply Qlt_le_weak, bpow_pos].
Qed.

Lemma canon_pos m e : canon m e -> (0 < inject_Z m * bpow e)%Q.
Proof.
  intros (C1 & C2 & C3). apply Qmult_lt_0_compat; [|apply bpow_pos].
  apply (inject_Z_lt 0). lia.
Qed.

(** Rounding to nearest is monotone, in the order of the format. *)
Theorem Rounds_mono v z v' z' :
  Rounds v false z -> Rounds v' false z' -> (v < v')%Q ->
  SFleb z z' = true.
Proof.
  intros (m1 & e1 & m2 & S & ->) (m1' & e1' & m2' & S' & ->) Hv.
  pose proof (Slice_mono _ _ _ _ _ _ _ _ S S' Hv) as R.
  destruct (pack_cases false m2 e1 (Slice_grid_end _ _ _ _ S))
    as [[Z ->] | (mc & ec & C & V & [[B ->] | [B ->]])];
  destruct (pack_cases false m2' e1' (Slice_grid_end _ _ _ _ S'))
    as [[Z' ->] | (mc' & ec' & C' & V' & [[B' ->] | [B' ->]])];
  try reflexivity.
  - (* finite, zero *)
    exfalso. pose proof (canon_pos _ _ C). subst m2'.
    rewrite <- V in R. change (inject_Z 0) with 0%Q in R. lra.
  - (* finite, finite *)
    unfold SFleb. rewrite SFcompare_finite_pos by assumption.
    rewrite V, V'.
    destruct (inject_Z m2 * bpow e1 ?= inject_Z m2' * bpow e1')%Q eqn:E;
      try reflexivity.
    qcompare_to_order. lra.
  - (* infinite, zero *)
    exfalso. pose proof (canon_pos _ _ C). subst m2'.
    rewrite <- V in R. change (inject_Z 0) with 0%Q in R. lra.
  - (* infinite, finite *)
    exfalso. pose proof (canon_lt_bpow _ _ C').
    pose proof (canon_ge_bpow _ _ C ltac:(lia)).
    pose proof (bpow_le (ec' + 53) (ec + 52) ltac:(lia)).
    rewrite <- V, <- V' in R. lra.
Qed.

(** A grid point below [v] stays below its rounding, one above stays above. *)
Lemma Slice_ge_grid v m1 e1 m2 k ef :
  Slice v m1 e1 m2 -> grid k ef -> (inject_Z k * bpow ef <= v)%Q ->
  (inject_Z k * bpow ef <= inject_Z m2 * bpow e1)%Q.
Proof.
  intros (G & L & V1 & V2 & C & A1 & A2) K Hk.
  pose proof (grid_gap m1 e1 k ef G L K) as N.
  pose proof (bpow_pos e1).
  destruct C as [-> | ->]; rewrite ?inject_Z_succ in *; destruct N; lra.
Qed.

Lemma Slice_le_grid v m1 e1 m2 k ef :
  Slice v m1 e1 m2 -> grid k ef -> (v <= inject_Z k * bpow ef)%Q ->
  (inject_Z m2 * bpow e1 <= inject_Z k * bpow ef)%Q.
Proof.
  intros (G & L & V1 & V2 & C & A1 & A2) K Hk.
  pose proof (grid_gap m1 e1 k ef G L K) as N.
  pose proof (bpow_pos e1). pose proof (bpow_pred e1).
  destruct C as [-> | ->]; rewrite ?inject_Z_succ in *; destruct N; lra.
Qed.

(** Relative error of rounding to nearest, away from the subnormal range. *)
Lemma Slice_relerr v m1 e1 m2 :
  Slice v m1 e1 m2 -> (bpow (-1022) <= v)%Q ->
  (inject_Z m2 * bpow e1 - v <= bpow (-53) * v)%Q /\
  (v - inject_Z m2 * bpow e1 <= bpow (-53) * v)%Q.
Proof.
  intros ((G1 & G2 & G3) & L & V1 & V2 & C & A1 & A2) Hv.
  pose proof (bpow_pos e1) as P1.
  assert (M : 2 ^ 52 <= m1).
  { destruct G3 as [|E]; [assumption|]. subst e1.
    destruct (Z_lt_le_dec m1 (2 ^ 52)) as [Hlt|]; [exfalso|assumption].
    assert (K : (inject_Z (m1 + 1) <= inject_Z (2 ^ 52))%Q) by (apply inject_Z_le; lia).
    rewrite inject_Z_succ in K.
    assert (E : (bpow (-1022) == inject_Z (2 ^ 52) * bpow (-1074))%Q)
      by (rewrite <- (bpow_inject 52), <- bpow_plus by lia; reflexivity).
    assert ((inject_Z m1 + 1) * bpow (-1074) <= inject_Z (2 ^ 52) * bpow (-1074))%Q
      by (apply Qmult_le_compat_r; lra).
    lra. }
  assert (B : (bpow (e1 - 1) <= bpow (-53) * v)%Q).
  { apply Qle_trans with (bpow (-53) * (inject_Z (2 ^ 52) * bpow e1))%Q.
    - rewrite <- (bpow_inject 52), <- !bpow_plus by lia.
      replace (-53 + (52 + e1)) with (e1 - 1) by lia. apply Qle_refl.
    - pose proof (bpow_pos (-53)).
      apply Qmult_le_l; [assumption|].
      apply Qle_trans with (inject_Z m1 * bpow e1)%Q; [|assumption].
      apply Qmult_le_compat_r; [apply inject_Z_le; assumption | lra]. }
  split; lra.
Qed.

Lemma Zdigits2_ge_53 p : 2 ^ 52 <= Zpos p -> 53 <= Zdigits2 (Zpos p).
Proof. intros H. simpl. apply (digits2_ge p 53); [lia | exact H]. Qed.

(** ** The operations on finite numbers are the exact result, rounded *)

Theorem SFmul_finite_spec sx mx ex sy my ey :
  canon (Zpos mx) ex -> canon (Zpos my) ey ->
  Rounds (Qmag mx ex * Qmag my ey) (xorb sx sy)
         (SFmul prec emax (S754_finite sx mx ex) (S754_finite sy my ey)).
Proof.
  intros (X1 & X2 & X3) (Y1 & Y2 & Y3). unfold SFmul.
  apply binary_round_aux_spec.
  - lia.
  - unfold inbetween, Qmag. rewrite Pos2Z.inj_mul, inject_Z_mult, bpow_plus. ring.
  - rewrite fexp64.
    destruct (Z_lt_le_dec (Zpos (mx * my)) (2 ^ 52)) as [Hlt|Hge].
    + rewrite Pos2Z.inj_mul in Hlt.
      assert (Zpos mx <= Zpos mx * Zpos my) by nia.
      assert (Zpos my <= Zpos mx * Zpos my) by nia. lia.
    + pose proof (Zdigits2_ge_53 _ Hge). lia.
Qed.

Lemma new_location_inbetween n k q e v :
  0 < n -> 0 <= k < n ->
  (v * inject_Z n == inject_Z (n * q + k) * bpow e)%Q ->
  inbetween q e (new_location n k) v.
Proof.
  intros Hn Hk Hv.
  rewrite inject_Z_plus, inject_Z_mult in Hv.
  assert (N : (0 < inject_Z n)%Q) by (apply (inject_Z_lt 0); assumption).
  pose proof (bpow_pos e) as B.
  assert (NB : (0 < inject_Z n * bpow e)%Q) by (apply Qmult_lt_0_compat; assumption).
  assert (KN : (inject_Z k * bpow e < inject_Z n * bpow e)%Q)
    by (apply Qmult_lt_compat_r; [assumption | apply inject_Z_lt; lia]).
  assert (Half : forall c, (2 * k ?= n) = c ->
            ((2 * (inject_Z k * bpow e) ?= inject_Z n * bpow e)%Q = c)).
  { intros c Hc. rewrite Qmult_assoc.
    change 2%Q with (inject_Z 2). rewrite <- inject_Z_mult.
    destruct (Z.compare_spec (2 * k) n) as [E|E|E]; subst c.
    - rewrite E. apply Qeq_alt. reflexivity.
    - apply Qlt_alt. apply Qmult_lt_compat_r; [assumption | apply inject_Z_lt; lia].
    - apply Qgt_alt. apply Qmult_lt_compat_r; [assumption | apply inject_Z_lt; lia]. }
  assert (Mid : forall c,
            ((2 * (inject_Z k * bpow e) ?= inject_Z n * bpow e)%Q = c) ->
            (v ?= (inject_Z q + (1 # 2)) * bpow e)%Q = c).
  { intros c Hc. destruct c; qcompare_to_order.
    - apply (Qmult_inj_r _ _ (inject_Z n)); [lra|]. rewrite Hv. lra.
    - apply (Qmult_lt_r _ _ (inject_Z n)); [lra|]. rewrite Hv. lra.
    - apply (Qmult_lt_r _ _ (inject_Z n)); [lra|]. rewrite Hv. lra. }
  assert (Pos : k <> 0 -> (0 < inject_Z k * bpow e)%Q).
  { intros H. apply Qmult_lt_0_compat; [apply (inject_Z_lt 0); lia | assumption]. }
  assert (Inex : forall c, k <> 0 -> (2 * k ?= n) = c ->
            inbetween q e (loc_Inexact c) v).
  { intros c H0 Hc. specialize (Pos H0). unfold inbetween. repeat split.
    - apply (Qmult_lt_r _ _ (inject_Z n)); [lra|]. rewrite Hv. lra.
    - apply (Qmult_lt_r _ _ (inject_Z n)); [lra|]. rewrite Hv. lra.
    - apply Mid, Half, Hc. }
  assert (Ex : k = 0 -> inbetween q e loc_Exact v).
  { intros K0. unfold inbetween. apply (Qmult_inj_r _ _ (inject_Z n)); [lra|].
    rewrite Hv, K0. change (inject_Z 0) with 0%Q. ring. }
  unfold new_location.
  destruct (Z.even n) eqn:Ev; [unfold new_location_even | unfold new_location_odd];
    (destruct (Z.eqb_spec k 0) as [K0|K0]; [exact (Ex K0)|]).
  - apply Inex; auto.
  - apply Inex; [assumption|].
    assert (Odd : Z.odd n = true) by (rewrite <- Z.negb_even, Ev; reflexivity).
    apply Z.odd_spec in Odd. destruct Odd as [h Hh].
    destruct (Z.compare_spec (2 * k + 1) n);
      [apply Z.compare_lt_iff | apply Z.compare_lt_iff | apply Z.compare_gt_iff]; lia.
Qed.

Theorem SFdiv_finite_spec sx mx ex sy my ey :
  Rounds (Qmag mx ex / Qmag my ey) (xorb sx sy)
         (SFdiv prec emax (S754_finite sx mx ex) (S754_finite sy my ey)).
Proof.
  unfold SFdiv, SFdiv_core_binary.
  set (d1 := Zdigits2 (Zpos mx)). set (d2 := Zdigits2 (Zpos my)).
  set (e' := Z.min (fexp prec emax (d1 + ex - (d2 + ey))) (ex - ey)).
  set (s := ex - ey - e').
  assert (Hs : 0 <= s) by (unfold s, e'; lia).
  set (m' := match s with Zpos _ => Z.shiftl (Zpos mx) s | Z0 => Zpos mx | Zneg _ => 0 end).
  assert (Hm' : m' = Zpos mx * 2 ^ s).
  { unfold m'. destruct s as [|p|p]; [simpl; lia | | lia].
    apply Z.shiftl_mul_pow2. lia. }
  clearbody m'.
  pose proof (Z_div_mod m' (Zpos my) ltac:(lia)) as DM.
  destruct (Z.div_eucl m' (Zpos my)) as [q r]. destruct DM as [DM1 DM2].
  assert (P2 : 0 < 2 ^ s) by (apply Z.pow_pos_nonneg; lia).
  assert (Hq : 0 <= q) by nia.
  apply binary_round_aux_spec.
  - exact Hq.
  - apply new_location_inbetween; [lia | lia |].
    rewrite <- DM1, Hm', inject_Z_mult, <- (bpow_inject s) by lia.
    unfold Qmag.
    assert (inject_Z (Zpos my) > 0)%Q by (apply (inject_Z_lt 0); lia).
    pose proof (bpow_pos ey).
    assert (E : (bpow ex == bpow s * bpow e' * bpow ey)%Q).
    { rewrite <- !bpow_plus. replace (s + e' + ey) with ex by (unfold s; lia).
      reflexivity. }
    rewrite E. field. split; lra.
  - rewrite fexp64. destruct (Z_le_gt_dec e' (-1074)) as [|He']; [lia|].
    assert (Q52 : 2 ^ 52 <= q).
    { pose proof (digits2_bounds mx) as [Lx _].
      pose proof (digits2_bounds my) as [_ Uy].
      fold (Zdigits2 (Zpos mx)) in Lx. fold d1 in Lx.
      fold (Zdigits2 (Zpos my)) in Uy. fold d2 in Uy.
      assert (D1 : 0 < d1) by (unfold d1; simpl; lia).
      assert (D2 : 0 < d2) by (unfold d2; simpl; lia).
      assert (S53 : 53 - d1 + d2 <= s).
      { unfold s, e' in *. rewrite fexp64 in *. lia. }
      assert (Big : 2 ^ (52 + d2) <= m').
      { rewrite Hm'.
        apply Z.le_trans with (2 ^ (d1 - 1) * 2 ^ s); [|nia].
        rewrite <- Z.pow_add_r by lia. apply Z.pow_le_mono_r; lia. }
      rewrite Z.pow_add_r in Big by lia.
      destruct (Z_lt_le_dec q (2 ^ 52)) as [Hlt|]; [exfalso|assumption].
      assert (q + 1 <= 2 ^ 52) by lia.
      assert (Zpos my * (q + 1) <= Zpos my * 2 ^ 52) by (apply Z.mul_le_mono_nonneg_l; lia).
      assert (0 < 2 ^ 52) by (apply Z.pow_pos_nonneg; lia).
      nia. }
    destruct q as [|q|q]; [simpl in Q52; lia| |lia].
    pose proof (Zdigits2_ge_53 _ Q52). lia.
Qed.

Lemma iter_xO_spec d p : Zpos (Pos.iter xO p d) = Zpos p * 2 ^ Zpos d.
Proof.
  induction d as [|d IH] using Pos.peano_ind.
  - simpl. lia.
  - rewrite Pos.iter_succ, Pos2Z.inj_xO, IH, Pos2Z.inj_succ, Z.pow_succ_r by lia.
    ring.
Qed.

Lemma shl_align_spec mx ex ex' :
  let mz := fst (shl_align mx ex ex') in
  let ez := snd (shl_align mx ex ex') in
  ez = Z.min ex ex' /\ Zpos mz = Zpos mx * 2 ^ (ex - ez).
Proof.
  unfold shl_align. destruct (ex' - ex) as [|d|d] eqn:E; simpl.
  - split; [lia|]. replace (ex - ex) with 0 by lia. simpl. lia.
  - split; [lia|]. replace (ex - ex) with 0 by lia. simpl. lia.
  - split; [lia|]. rewrite iter_xO_spec.
    replace (ex - ex') with (Zpos d) by lia. reflexivity.
Qed.

Lemma Qmag_shift m e m' e' :
  e' <= e -> Zpos m' = Zpos m * 2 ^ (e - e') -> (Qmag m' e' == Qmag m e)%Q.
Proof.
  intros He Hm. unfold Qmag.
  rewrite Hm, inject_Z_mult, <- (bpow_inject (e - e')) by lia.
  rewrite (bpow_split e e'). ring.
Qed.

Theorem binary_round_spec s p e :
  Rounds (Qmag p e) s (binary_round prec emax s p e).
Proof.
  unfold binary_round.
  pose proof (shl_align_spec p e (fexp prec emax (Zpos (digits2_pos p) + e))) as [E M].
  destruct (shl_align p e _) as [mz ez]. simpl fst in *; simpl snd in *.
  rewrite fexp64 in E.
  apply binary_round_aux_spec.
  - lia.
  - unfold inbetween. symmetry. apply Qmag_shift; [lia | exact M].
  - rewrite fexp64. simpl Zdigits2.
    pose proof (digits2_bounds p) as [Lo _].
    set (dp := Zpos (digits2_pos p)) in *.
    assert (Dp : 0 < dp) by (unfold dp; lia).
    assert (H : dp + (e - ez) <= Zpos (digits2_pos mz)).
    { apply digits2_ge; [lia|]. rewrite M.
      replace (dp + (e - ez) - 1) with (dp - 1 + (e - ez)) by lia.
      rewrite Z.pow_add_r by lia.
      apply Z.mul_le_mono_nonneg_r; [apply Z.pow_nonneg; lia | exact Lo]. }
    lia.
Qed.

Lemma aligned_sum mx ex my ey :
  let ez := Z.min ex ey in
  (inject_Z (Zpos (fst (shl_align mx ex ez))) * bpow ez == Qmag mx ex)%Q /\
  (inject_Z (Zpos (fst (shl_align my ey ez))) * bpow ez == Qmag my ey)%Q.
Proof.
  intros ez.
  pose proof (shl_align_spec mx ex ez) as [E1 M1].
  pose proof (shl_align_spec my ey ez) as [E2 M2].
  simpl in E1, M1, E2, M2.
  replace (snd (shl_align mx ex ez)) with ez in M1 by (rewrite E1; unfold ez; lia).
  replace (snd (shl_align my ey ez)) with ez in M2 by (rewrite E2; unfold ez; lia).
  split; apply Qmag_shift; (unfold ez; lia) || assumption.
Qed.

Theorem SFadd_pos_spec mx ex my ey :
  Rounds (Qmag mx ex + Qmag my ey) false
         (SFadd prec emax (S754_finite false mx ex) (S754_finite false my ey)).
Proof.
  unfold SFadd, cond_Zopp.
  destruct (aligned_sum mx ex my ey) as [Ex Ey].
  set (ez := Z.min ex ey) in *.
  set (ax := fst (shl_align mx ex ez)) in *.
  set (ay := fst (shl_align my ey ez)) in *.
  change (Zpos ax + Zpos ay) with (Zpos (ax + ay)). unfold binary_normalize.
  assert (E : (Qmag mx ex + Qmag my ey == Qmag (ax + ay) ez)%Q).
  { unfold Qmag at 3. rewrite Pos2Z.inj_add, inject_Z_plus, <- Ex, <- Ey. ring. }
  destruct (binary_round_spec false (ax + ay) ez) as (m1 & e1 & m2 & S & P).
  exists m1, e1, m2. split; [|exact P].
  unfold Slice in *. rewrite E. exact S.
Qed.

Theorem SFsub_pos_spec mx ex my ey :
  (Qmag my ey < Qmag mx ex)%Q ->
  Rounds (Qmag mx ex - Qmag my ey) false
         (SFsub prec emax (S754_finite false mx ex) (S754_finite false my ey)).
Proof.
  intros Hlt. unfold SFsub, cond_Zopp.
  destruct (aligned_sum mx ex my ey) as [Ex Ey].
  set (ez := Z.min ex ey) in *.
  set (ax := fst (shl_align mx ex ez)) in *.
  set (ay := fst (shl_align my ey ez)) in *.
  assert (Hd : Zpos ay < Zpos ax).
  { rewrite Zlt_Qlt. apply (Qmult_lt_r _ _ (bpow ez)); [apply bpow_pos|].
    rewrite Ex, Ey. exact Hlt. }
  destruct (Zpos ax - Zpos ay) as [|d|d] eqn:D; [lia| |lia].
  unfold binary_normalize.
  assert (E : (Qmag mx ex - Qmag my ey == Qmag d ez)%Q).
  { unfold Qmag at 3. rewrite <- D. unfold Z.sub.
    rewrite inject_Z_plus, inject_Z_opp, <- Ex, <- Ey. ring. }
  destruct (binary_round_spec false d ez) as (m1 & e1 & m2 & S & P).
  exists m1, e1, m2. split; [|exact P].
  unfold Slice in *. rewrite E. exact S.
Qed.

(** ** Positive finite numbers, and the order of the format on them *)

Lemma SF2Q_Qmag m e : JS.SF2Q (S754_finite false m e) = Qmag m e.
Proof. reflexivity. Qed.

Lemma SPosFin_pos z : SPosFin z -> (0 < JS.SF2Q z)%Q.
Proof. intros (m & e & -> & C & _). apply canon_pos, C. Qed.

Lemma Rounds_cases v z :
  Rounds v false z ->
  exists m1 e1 m2, Slice v m1 e1 m2 /\
    ((m2 = 0 /\ z = S754_zero false) \/
     (SPosFin z /\ (JS.SF2Q z == inject_Z m2 * bpow e1)%Q) \/
     (z = S754_infinity false /\ (bpow 1024 <= inject_Z m2 * bpow e1)%Q)).
Proof.
  intros (m1 & e1 & m2 & S & ->). exists m1, e1, m2. split; [exact S|].
  destruct (pack_cases false m2 e1 (Slice_grid_end _ _ _ _ S))
    as [[Z ->] | (mc & ec & C & V & [[B ->] | [B ->]])].
  - left. auto.
  - right; left. split; [exists mc, ec; auto | exact V].
  - right; right. split; [reflexivity|]. rewrite <- V.
    pose proof (canon_ge_bpow _ _ C ltac:(lia)).
    pose proof (bpow_le 1024 (ec + 52) ltac:(lia)). lra.
Qed.

Lemma Rounds_SNonNeg v z : Rounds v false z -> SNonNeg z.
Proof.
  intros H. destruct (Rounds_cases v z H) as (m1 & e1 & m2 & S & [[_ ->] | [[P _] | [-> _]]]).
  - left. reflexivity.
  - right; left. exact P.
  - right; right. reflexivity.
Qed.

Lemma SFleb_zero_l s z : SNonNeg z -> SFleb (S754_zero s) z = true.
Proof. intros [-> | [(m & e & -> & _) | ->]]; reflexivity. Qed.

Lemma SFleb_inf_r z : SNonNeg z -> SFleb z (S754_infinity false) = true.
Proof. intros [-> | [(m & e & -> & _) | ->]]; reflexivity. Qed.

Lemma SFleb_refl z : SNonNeg z -> SFleb z z = true.
Proof.
  intros [-> | [(m & e & -> & _) | ->]]; try reflexivity.
  unfold SFleb. simpl. rewrite Z.compare_refl, Pos.compare_cont_refl. reflexivity.
Qed.

Lemma SFcompare_PosFin z z' :
  SPosFin z -> SPosFin z' ->
  SFcompare z z' = Some (JS.SF2Q z ?= JS.SF2Q z')%Q.
Proof.
  intros (m & e & -> & C & _) (m' & e' & -> & C' & _).
  apply SFcompare_finite_pos; assumption.
Qed.

Lemma SFleb_PosFin z z' :
  SPosFin z -> SPosFin z' -> (SFleb z z' = true <-> (JS.SF2Q z <= JS.SF2Q z')%Q).
Proof.
  intros P P'. unfold SFleb. rewrite (SFcompare_PosFin _ _ P P').
  destruct (JS.SF2Q z ?= JS.SF2Q z')%Q eqn:E; qcompare_to_order;
    split; intros H; try reflexivity; try discriminate; lra.
Qed.

Lemma SFltb_PosFin z z' :
  SPosFin z -> SPosFin z' -> (SFltb z z' = true <-> (JS.SF2Q z < JS.SF2Q z')%Q).
Proof.
  intros P P'. unfold SFltb. rewrite (SFcompare_PosFin _ _ P P').
  destruct (JS.SF2Q z ?= JS.SF2Q z')%Q eqn:E; qcompare_to_order;
    split; intros H; try reflexivity; try discriminate; lra.
Qed.

(** Canonical representations are unique. *)
Lemma SPosFin_inj z z' :
  SPosFin z -> SPosFin z' -> (JS.SF2Q z == JS.SF2Q z')%Q -> z = z'.
Proof.
  intros (m & e & -> & C & _) (m' & e' & -> & C' & _) E.
  rewrite !SF2Q_Qmag in E. unfold Qmag in E.
  destruct (Z.lt_trichotomy e e') as [H | [H | H]].
  - pose proof (canon_exp_lt _ _ _ _ C C' H). lra.
  - subst e'. f_equal. pose proof (bpow_pos e).
    apply Qmult_inj_r in E; [|lra].
    apply (proj1 (inject_Z_injective _ _)) in E. injection E as ->. reflexivity.
  - pose proof (canon_exp_lt _ _ _ _ C' C H). lra.
Qed.

Lemma SFleb_PosFin_cases z z' :
  SPosFin z -> SPosFin z' -> SFleb z z' = true ->
  z = z' \/ (JS.SF2Q z < JS.SF2Q z')%Q.
Proof.
  intros P P' H. apply (SFleb_PosFin _ _ P P') in H.
  destruct (Qlt_le_dec (JS.SF2Q z) (JS.SF2Q z')) as [L|G]; [right; exact L|].
  left. apply SPosFin_inj; auto. lra.
Qed.

(** ** The operations on positive finite numbers *)

Lemma SFmul_PosFin a b :
  SPosFin a -> SPosFin b ->
  Rounds (JS.SF2Q a * JS.SF2Q b) false (SFmul prec emax a b).
Proof.
  intros (ma & ea & -> & Ca & _) (mb & eb & -> & Cb & _).
  exact (SFmul_finite_spec false ma ea false mb eb Ca Cb).
Qed.

Lemma SFdiv_PosFin a b :
  SPosFin a -> SPosFin b ->
  Rounds (JS.SF2Q a / JS.SF2Q b) false (SFdiv prec emax a b).
Proof.
  intros (ma & ea & -> & Ca & _) (mb & eb & -> & Cb & _).
  exact (SFdiv_finite_spec false ma ea false mb eb).
Qed.

Lemma SFadd_PosFin a b :
  SPosFin a -> SPosFin b ->
  Rounds (JS.SF2Q a + JS.SF2Q b) false (SFadd prec emax a b).
Proof.
  intros (ma & ea & -> & Ca & _) (mb & eb & -> & Cb & _).
  exact (SFadd_pos_spec ma ea mb eb).
Qed.

Lemma SFsub_PosFin a b :
  SPosFin a -> SPosFin b -> (JS.SF2Q b < JS.SF2Q a)%Q ->
  Rounds (JS.SF2Q a - JS.SF2Q b) false (SFsub prec emax a b).
Proof.
  intros (ma & ea & -> & Ca & _) (mb & eb & -> & Cb & _) H.
  exact (SFsub_pos_spec ma ea mb eb H).
Qed.

Lemma Qdiv_lt_cross x y x' y' :
  (0 < y)%Q -> (0 < y')%Q -> (x * y' < x' * y)%Q -> (x / y < x' / y')%Q.
Proof.
  intros Hy Hy' H.
  apply Qlt_shift_div_l; [assumption|].
  setoid_replace (x / y * y')%Q with (x * y' / y)%Q by (field; lra).
  apply Qlt_shift_div_r; assumption.
Qed.

Lemma Qmul_lt_mono x y x' y' :
  (0 < x)%Q -> (0 < y)%Q -> (x <= x')%Q -> (y <= y')%Q ->
  (x < x' \/ y < y')%Q -> (x * y < x' * y')%Q.
Proof.
  intros Hx Hy Lx Ly [H | H].
  - apply Qlt_le_trans with (x' * y)%Q.
    + apply Qmult_lt_compat_r; assumption.
    + apply Qmult_le_l; lra.
  - apply Qle_lt_trans with (x' * y)%Q.
    + apply Qmult_le_compat_r; lra.
    + apply Qmult_lt_l; lra.
Qed.

(** Each operation is monotone on positive finite numbers. *)
Theorem SFmul_mono a a' b b' :
  SPosFin a -> SPosFin a' -> SPosFin b -> SPosFin b' ->
  SFleb a a' = true -> SFleb b b' = true ->
  SFleb (SFmul prec emax a b) (SFmul prec emax a' b') = true.
Proof.
  intros Pa Pa' Pb Pb' La Lb.
  pose proof (SFmul_PosFin _ _ Pa Pb) as R.
  pose proof (SFmul_PosFin _ _ Pa' Pb') as R'.
  pose proof (SPosFin_pos _ Pa). pose proof (SPosFin_pos _ Pb).
  pose proof (proj1 (SFleb_PosFin _ _ Pa Pa') La).
  pose proof (proj1 (SFleb_PosFin _ _ Pb Pb') Lb).
  destruct (SFleb_PosFin_cases _ _ Pa Pa' La) as [<- | Ha];
  destruct (SFleb_PosFin_cases _ _ Pb Pb' Lb) as [<- | Hb];
    [apply SFleb_refl, (Rounds_SNonNeg _ _ R) | | |];
    apply (Rounds_mono _ _ _ _ R R'); apply Qmul_lt_mono; auto.
Qed.

Theorem SFdiv_mono a a' b b' :
  SPosFin a -> SPosFin a' -> SPosFin b -> SPosFin b' ->
  SFleb a a' = true -> SFleb b' b = true ->
  SFleb (SFdiv prec emax a b) (SFdiv prec emax a' b') = true.
Proof.
  intros Pa Pa' Pb Pb' La Lb.
  pose proof (SFdiv_PosFin _ _ Pa Pb) as R.
  pose proof (SFdiv_PosFin _ _ Pa' Pb') as R'.
  pose proof (SPosFin_pos _ Pa). pose proof (SPosFin_pos _ Pb).
  pose proof (SPosFin_pos _ Pa'). pose proof (SPosFin_pos _ Pb').
  pose proof (proj1 (SFleb_PosFin _ _ Pa Pa') La).
  pose proof (proj1 (SFleb_PosFin _ _ Pb' Pb) Lb).
  destruct (SFleb_PosFin_cases _ _ Pa Pa' La) as [<- | Ha];
  destruct (SFleb_PosFin_cases _ _ Pb' Pb Lb) as [<- | Hb];
    [apply SFleb_refl, (Rounds_SNonNeg _ _ R) | | |];
    apply (Rounds_mono _ _ _ _ R R'); apply Qdiv_lt_cross; auto;
    apply Qmul_lt_mono; auto.
Qed.

Theorem SFadd_mono a a' b b' :
  SPosFin a -> SPosFin a' -> SPosFin b -> SPosFin b' ->
  SFleb a a' = true -> SFleb b b' = true ->
  SFleb (SFadd prec emax a b) (SFadd prec emax a' b') = true.
Proof.
  intros Pa Pa' Pb Pb' La Lb.
  pose proof (SFadd_PosFin _ _ Pa Pb) as R.
  pose proof (SFadd_PosFin _ _ Pa' Pb') as R'.
  destruct (SFleb_PosFin_cases _ _ Pa Pa' La) as [<- | Ha];
  destruct (SFleb_PosFin_cases _ _ Pb Pb' Lb) as [<- | Hb];
    [apply SFleb_refl, (Rounds_SNonNeg _ _ R) | | |];
    apply (Rounds_mono _ _ _ _ R R'); lra.
Qed.

(** Rounding a value between two positive grid points gives a positive
    finite number between them. *)
Lemma Rounds_between v z klo elo khi ehi :
  Rounds v false z ->
  grid klo elo -> 0 < klo -> (inject_Z klo * bpow elo <= v)%Q ->
  canon khi ehi -> ehi <= 971 -> (v <= inject_Z khi * bpow ehi)%Q ->
  SPosFin z /\
  (inject_Z klo * bpow elo <= JS.SF2Q z)%Q /\
  (JS.SF2Q z <= inject_Z khi * bpow ehi)%Q.
Proof.
  intros R Glo Plo Hlo Chi Ehi Hhi.
  destruct (Rounds_cases v z R) as (m1 & e1 & m2 & S & H).
  pose proof (Slice_ge_grid _ _ _ _ _ _ S Glo Hlo) as L.
  pose proof (Slice_le_grid _ _ _ _ _ _ S (canon_grid _ _ Chi) Hhi) as U.
  assert (P : (0 < inject_Z klo * bpow elo)%Q).
  { apply Qmult_lt_0_compat; [apply (inject_Z_lt 0); lia | apply bpow_pos]. }
  destruct H as [[Z _] | [[Pz V] | [_ I]]].
  - exfalso. subst m2. change (inject_Z 0) with 0%Q in L. lra.
  - split; [exact Pz|]. rewrite V. split; assumption.
  - exfalso. pose proof (canon_lt_bpow _ _ Chi).
    pose proof (bpow_le (ehi + 53) 1024 ltac:(lia)). lra.
Qed.

Lemma SPosFin_canon z :
  SPosFin z -> exists m e, z = S754_finite false m e /\ canon (Zpos m) e /\ e <= 971
                           /\ (JS.SF2Q z == inject_Z (Zpos m) * bpow e)%Q.
Proof.
  intros (m & e & -> & C & E). exists m, e.
  split; [reflexivity|]. split; [exact C|]. split; [exact E|]. reflexivity.
Qed.

Lemma Rounds_between_PosFin v z lo hi :
  Rounds v false z -> SPosFin lo -> SPosFin hi ->
  (JS.SF2Q lo <= v)%Q -> (v <= JS.SF2Q hi)%Q ->
  SPosFin z /\ (JS.SF2Q lo <= JS.SF2Q z)%Q /\ (JS.SF2Q z <= JS.SF2Q hi)%Q.
Proof.
  intros R Plo Phi Hlo Hhi.
  destruct (SPosFin_canon _ Plo) as (ml & el & _ & Cl & _ & Vl).
  destruct (SPosFin_canon _ Phi) as (mh & eh & _ & Ch & Eh & Vh).
  rewrite Vl, Vh in *.
  apply (Rounds_between v z (Zpos ml) el (Zpos mh) eh); auto.
  - apply canon_grid, Cl.
  - lia.
Qed.

(** Division and multiplication by a positive finite number, on
    non-negative numbers (zero and infinity included). *)
Lemma SFdiv_NonNeg_l a b :
  SNonNeg a -> SPosFin b -> SNonNeg (SFdiv prec emax a b).
Proof.
  intros [-> | [Pa | ->]] Pb.
  - destruct Pb as (m & e & -> & _). left. reflexivity.
  - apply (Rounds_SNonNeg _ _ (SFdiv_PosFin _ _ Pa Pb)).
  - destruct Pb as (m & e & -> & _). right; right. reflexivity.
Qed.

Lemma SFmul_NonNeg_l a b :
  SNonNeg a -> SPosFin b -> SNonNeg (SFmul prec emax a b).
Proof.
  intros [-> | [Pa | ->]] Pb.
  - destruct Pb as (m & e & -> & _). left. reflexivity.
  - apply (Rounds_SNonNeg _ _ (SFmul_PosFin _ _ Pa Pb)).
  - destruct Pb as (m & e & -> & _). right; right. reflexivity.
Qed.

Lemma SFdiv_NonNeg_r a b :
  SPosFin a -> SNonNeg b -> SNonNeg (SFdiv prec emax a b).
Proof.
  intros Pa [-> | [Pb | ->]].
  - destruct Pa as (m & e & -> & _). right; right. reflexivity.
  - apply (Rounds_SNonNeg _ _ (SFdiv_PosFin _ _ Pa Pb)).
  - destruct Pa as (m & e & -> & _). left. reflexivity.
Qed.

Lemma SFleb_NonNeg_cases a a' :
  SNonNeg a -> SNonNeg a' -> SFleb a a' = true ->
  a = S754_zero false \/ a' = S754_infinity false \/ (SPosFin a /\ SPosFin a').
Proof.
  intros [-> | [Pa | ->]] [-> | [Pa' | ->]] H; auto.
  - destruct Pa as (m & e & -> & _). discriminate.
  - discriminate.
  - destruct Pa' as (m & e & -> & _). discriminate.
Qed.

Theorem SFdiv_mono_l a a' b :
  SNonNeg a -> SNonNeg a' -> SPosFin b -> SFleb a a' = true ->
  SFleb (SFdiv prec emax a b) (SFdiv prec emax a' b) = true.
Proof.
  intros Na Na' Pb L.
  pose proof (SFdiv_NonNeg_l _ _ Na Pb) as N.
  pose proof (SFdiv_NonNeg_l _ _ Na' Pb) as N'.
  destruct (SFleb_NonNeg_cases _ _ Na Na' L) as [-> | [-> | [Pa Pa']]].
  - destruct Pb as (m & e & -> & _). apply SFleb_zero_l, N'.
  - destruct Pb as (m & e & -> & _). apply SFleb_inf_r, N.
  - apply SFdiv_mono; auto. apply SFleb_refl. right; left. exact Pb.
Qed.

Theorem SFmul_mono_l a a' b :
  SNonNeg a -> SNonNeg a' -> SPosFin b -> SFleb a a' = true ->
  SFleb (SFmul prec emax a b) (SFmul prec emax a' b) = true.
Proof.
  intros Na Na' Pb L.
  pose proof (SFmul_NonNeg_l _ _ Na Pb) as N.
  pose proof (SFmul_NonNeg_l _ _ Na' Pb) as N'.
  destruct (SFleb_NonNeg_cases _ _ Na Na' L) as [-> | [-> | [Pa Pa']]].
  - destruct Pb as (m & e & -> & _). apply SFleb_zero_l, N'.
  - destruct Pb as (m & e & -> & _). apply SFleb_inf_r, N.
  - apply SFmul_mono; auto. apply SFleb_refl. right; left. exact Pb.
Qed.

Theorem SFdiv_mono_num a a' b :
  SPosFin a -> SPosFin a' -> SNonNeg b -> SFleb a a' = true ->
  SFleb (SFdiv prec emax a b) (SFdiv prec emax a' b) = true.
Proof.
  intros Pa Pa' [-> | [Pb | ->]] L.
  - destruct Pa as (m & e & -> & _), Pa' as (m' & e' & -> & _). reflexivity.
  - apply SFdiv_mono; auto. apply SFleb_refl. right; left. exact Pb.
  - destruct Pa as (m & e & -> & _), Pa' as (m' & e' & -> & _). reflexivity.
Qed.

(** ** Primitive floats through their specification *)

Lemma SFeqb_refl_finite s m e :
  SFeqb (S754_finite s m e) (S754_finite s m e) = true.
Proof.
  unfold SFeqb. simpl.
  rewrite Z.compare_refl, Pos.compare_cont_refl. destruct s; reflexivity.
Qed.

Lemma is_nan_spec x :
  is_nan x = match Prim2SF x with S754_nan => true | _ => false end.
Proof.
  unfold is_nan. rewrite FloatAxioms.eqb_spec.
  destruct (Prim2SF x) as [[]|[]| |s m e]; try reflexivity.
  rewrite SFeqb_refl_finite. reflexivity.
Qed.

Lemma is_infinity_spec x :
  is_infinity x = match Prim2SF x with S754_infinity _ => true | _ => false end.
Proof.
  unfold is_infinity. rewrite FloatAxioms.eqb_spec, abs_spec.
  change (Prim2SF infinity) with (S754_infinity false).
  destruct (Prim2SF x) as [[]|[]| |s m e]; reflexivity.
Qed.

Lemma is_finite_spec x :
  is_finite x = match Prim2SF x with
                | S754_zero _ | S754_finite _ _ _ => true
                | _ => false
                end.
Proof.
  unfold is_finite. rewrite is_nan_spec, is_infinity_spec.
  destruct (Prim2SF x); reflexivity.
Qed.

Lemma valid_SPosFin m e :
  valid_binary (S754_finite false m e) = true -> SPosFin (S754_finite false m e).
Proof.
  intros V. apply bounded_canon in V. destruct V as [C E].
  exists m, e. auto.
Qed.

Lemma positive_finite_PosFin x : positive_finite x = true -> PosFin x.
Proof.
  unfold positive_finite, PosFin. rewrite is_finite_spec, FloatAxioms.ltb_spec.
  change (Prim2SF 0) with (S754_zero false).
  pose proof (Prim2SF_valid x) as V.
  destruct (Prim2SF x) as [[]|[]| |[] m e]; try discriminate.
  intros _. apply valid_SPosFin, V.
Qed.

Lemma PosFin_positive_finite x : PosFin x -> positive_finite x = true.
Proof.
  unfold positive_finite, PosFin. rewrite is_finite_spec, FloatAxioms.ltb_spec.
  change (Prim2SF 0) with (S754_zero false).
  intros (m & e & -> & _). reflexivity.
Qed.

(** A number between two positive finite numbers is positive and finite. *)
Lemma between_PosFin lo hi x :
  PosFin lo -> PosFin hi -> (lo <=? x)%float = true -> (x <=? hi)%float = true ->
  PosFin x.
Proof.
  unfold PosFin. rewrite !FloatAxioms.leb_spec.
  intros (ml & el & -> & _) (mh & eh & -> & _).
  pose proof (Prim2SF_valid x) as V.
  destruct (Prim2SF x) as [[]|[]| |[] m e]; try discriminate.
  intros _ _. apply valid_SPosFin, V.
Qed.

Lemma PosFin_ge_min z : SPosFin z -> (bpow (-1074) <= JS.SF2Q z)%Q.
Proof.
  intros (m & e & -> & (C1 & C2 & C3) & _). rewrite SF2Q_Qmag. unfold Qmag.
  pose proof (bpow_le (-1074) e C1). pose proof (bpow_pos e).
  assert (1 <= inject_Z (Zpos m))%Q by (apply (inject_Z_le 1); lia).
  apply Qle_trans with (1 * bpow e)%Q; [lra|].
  apply Qmult_le_compat_r; lra.
Qed.

(** The two forms [overlap] takes under [0 <= overlap < 1]. *)
Lemma overlap_cases o :
  (0 <=? o)%float = true -> (o <? 1)%float = true ->
  (exists s, Prim2SF o = S754_zero s) \/ (PosFin o /\ (JS.F2Q o < 1)%Q).
Proof.
  rewrite FloatAxioms.leb_spec, FloatAxioms.ltb_spec.
  change (Prim2SF 0) with (S754_zero false).
  assert (P1 : SPosFin (Prim2SF 1)) by (apply positive_finite_PosFin; reflexivity).
  pose proof (Prim2SF_valid o) as V. unfold JS.F2Q, PosFin.
  destruct (Prim2SF o) as [s|[]| |[] m e]; try discriminate.
  - intros _ _. left. eauto.
  - intros _ H. right. pose proof (valid_SPosFin _ _ V) as P.
    split; [exact P|]. apply (SFltb_PosFin _ _ P P1) in H.
    assert (E : (JS.SF2Q (Prim2SF 1) == 1)%Q) by reflexivity.
    rewrite E in H. exact H.
Qed.

Lemma PosFin_1 : SPosFin (Prim2SF 1).
Proof. apply positive_finite_PosFin. reflexivity. Qed.

Lemma F2Q_1 : (JS.SF2Q (Prim2SF 1) == 1)%Q.
Proof. reflexivity. Qed.

Lemma F2Q_2 : (JS.SF2Q (Prim2SF 2) == 2)%Q.
Proof. reflexivity. Qed.

Lemma PosFin_2 : SPosFin (Prim2SF 2).
Proof. apply positive_finite_PosFin. reflexivity. Qed.

(** [1 + overlap] is a finite number in [1, 2]. *)
Lemma one_plus_overlap o :
  (0 <=? o)%float = true -> (o <? 1)%float = true ->
  PosFin (1 + o) /\ (1 <= JS.F2Q (1 + o))%Q /\ (JS.F2Q (1 + o) <= 2)%Q.
Proof.
  intros H0 H1. unfold PosFin, JS.F2Q. rewrite add_spec.
  destruct (overlap_cases o H0 H1) as [[s ->] | [P V]].
  - change (SF64add (Prim2SF 1) (S754_zero s)) with (Prim2SF 1).
    split; [exact PosFin_1|]. rewrite F2Q_1. split; lra.
  - pose proof (SFadd_PosFin _ _ PosFin_1 P) as R.
    pose proof (SPosFin_pos _ P). unfold JS.F2Q in V.
    rewrite <- F2Q_1 at 1. rewrite <- F2Q_2.
    apply (Rounds_between_PosFin _ _ _ _ R PosFin_1 PosFin_2);
      rewrite ?F2Q_1, ?F2Q_2; lra.
Qed.

(** [1 - overlap] is a positive finite number, at most 1. *)
Lemma one_minus_overlap o :
  (0 <=? o)%float = true -> (o <? 1)%float = true ->
  PosFin (1 - o) /\ (JS.F2Q (1 - o) <= 1)%Q.
Proof.
  intros H0 H1. unfold PosFin, JS.F2Q. rewrite sub_spec.
  destruct (overlap_cases o H0 H1) as [[s ->] | [P V]].
  - change (SF64sub (Prim2SF 1) (S754_zero s)) with (Prim2SF 1).
    split; [exact PosFin_1|]. rewrite F2Q_1. lra.
  - unfold JS.F2Q in V.
    assert (V1 : (JS.SF2Q (Prim2SF o) < JS.SF2Q (Prim2SF 1))%Q) by (rewrite F2Q_1; exact V).
    pose proof (SFsub_PosFin _ _ PosFin_1 P V1) as R.
    pose proof (SPosFin_pos _ P).
    assert (Lo : (inject_Z 1 * bpow (-1074) <= JS.SF2Q (Prim2SF 1) - JS.SF2Q (Prim2SF o))%Q).
    { destruct P as (m & e & E & (C1 & C2 & C3) & _). rewrite E in *.
      rewrite SF2Q_Qmag, F2Q_1 in *. unfold Qmag in *.
      assert (Em : (inject_Z (Zpos m) * bpow e
                    == inject_Z (Zpos m * 2 ^ (e + 1074)) * bpow (-1074))%Q).
      { rewrite inject_Z_mult, <- (bpow_inject (e + 1074)), (bpow_split e (-1074)) by lia.
        replace (e - -1074) with (e + 1074) by lia. ring. }
      assert (E1 : (1 == inject_Z (2 ^ 1074) * bpow (-1074))%Q).
      { rewrite <- (bpow_inject 1074), <- bpow_plus by lia. reflexivity. }
      rewrite Em in *. pose proof (bpow_pos (-1074)) as B.
      assert (L : (inject_Z (Zpos m * 2 ^ (e + 1074)) < inject_Z (2 ^ 1074))%Q).
      { apply (Qmult_lt_r _ _ (bpow (-1074))); [exact B|]. rewrite <- E1. exact V. }
      rewrite <- Zlt_Qlt in L.
      assert (L' : (inject_Z (Zpos m * 2 ^ (e + 1074) + 1) <= inject_Z (2 ^ 1074))%Q)
        by (apply inject_Z_le; lia).
      rewrite inject_Z_succ in L'.
      apply (Qmult_le_compat_r _ _ (bpow (-1074))) in L'; [|lra].
      rewrite <- E1 in L'. change (inject_Z 1) with 1%Q. lra. }
    destruct (Rounds_between _ _ 1 (-1074) (2 ^ 52) (-52) R) as (Pz & _ & Hz).
    + unfold grid. lia.
    + lia.
    + exact Lo.
    + unfold canon. lia.
    + lia.
    + rewrite F2Q_1. setoid_replace (inject_Z (2 ^ 52) * bpow (-52))%Q with 1%Q by reflexivity.
      lra.
    + split; [exact Pz|].
      setoid_replace (inject_Z (2 ^ 52) * bpow (-52))%Q with 1%Q in Hz by reflexivity.
      exact Hz.
Qed.

(** A positive integer is at least 1. *)
Lemma integer_ge_1 x :
  PosFin x -> JS.isInteger x = true -> (1 <= JS.F2Q x)%Q.
Proof.
  unfold PosFin, JS.isInteger, JS.F2Q.
  intros (m & e & -> & (C1 & C2 & C3) & _). rewrite SF2Q_Qmag. unfold Qmag.
  assert (M1 : (1 <= inject_Z (Zpos m))%Q) by (apply (inject_Z_le 1); lia).
  destruct (Z.leb_spec 0 e) as [He|He]; simpl orb.
  - intros _. pose proof (bpow_le 0 e He) as B. rewrite bpow_0 in B.
    apply Qle_trans with (1 * bpow e)%Q; [lra|].
    apply Qmult_le_compat_r; lra.
  - rewrite Z.eqb_eq. intros Hm.
    assert (P : 0 < 2 ^ (- e)) by (apply Z.pow_pos_nonneg; lia).
    pose proof (Z.div_mod (Zpos m) (2 ^ (- e)) ltac:(lia)) as D.
    rewrite Hm, Z.add_0_r in D.
    set (k := Zpos m / 2 ^ (- e)) in *.
    assert (K : 1 <= k) by nia.
    rewrite D, inject_Z_mult, <- (bpow_inject (- e)) by lia.
    setoid_replace (bpow (- e) * inject_Z k * bpow e)%Q with (inject_Z k).
    + apply (inject_Z_le 1). exact K.
    + rewrite (Qmult_comm (bpow (- e))), <- Qmult_assoc, <- bpow_plus.
      replace (- e + e) with 0 by lia. rewrite bpow_0. ring.
Qed.

(** [sensorPx * (1 - overlap)] is positive and finite. *)
Lemma sensor_span_PosFin s o :
  PosFin s -> JS.isInteger s = true ->
  (0 <=? o)%float = true -> (o <? 1)%float = true ->
  PosFin (s * (1 - o)).
Proof.
  intros Ps Is H0 H1.
  destruct (one_minus_overlap o H0 H1) as [Pd Vd].
  pose proof (integer_ge_1 s Ps Is) as Vs.
  pose proof (PosFin_ge_min _ Pd) as Ld.
  unfold PosFin, JS.F2Q in *. rewrite mul_spec.
  pose proof (SFmul_PosFin _ _ Ps Pd) as R.
  pose proof (bpow_pos (-1074)) as B.
  destruct (SPosFin_canon _ Ps) as (ms & es & _ & Cs & Es & Vs').
  destruct (Rounds_between _ _ 1 (-1074) (Zpos ms) es R) as (Pz & _).
  - unfold grid. lia.
  - lia.
  - change (inject_Z 1) with 1%Q.
    apply Qle_trans with (1 * JS.SF2Q (Prim2SF (1 - o)))%Q; [lra|].
    apply Qmult_le_compat_r; lra.
  - exact Cs.
  - exact Es.
  - rewrite <- Vs'.
    apply Qle_trans with (JS.SF2Q (Prim2SF s) * 1)%Q; [|lra].
    apply Qmult_le_l; lra.
  - exact Pz.
Qed.

(** ** [Math.ceil] *)

Lemma small_int_canon p :
  Zpos p < 2 ^ 53 ->
  exists k ef, canon k ef /\ ef <= 971 /\
               (inject_Z k * bpow ef == inject_Z (Zpos p))%Q.
Proof.
  intros Hp. pose proof (digits2_bounds p) as [Lo Hi].
  pose proof (proj2 (digits2_le p 53 ltac:(lia)) Hp) as D.
  set (d := Zpos (digits2_pos p)) in *.
  assert (D0 : 0 < d) by (unfold d; lia).
  exists (Zpos p * 2 ^ (53 - d)), (d - 53).
  assert (P : 0 < 2 ^ (53 - d)) by (apply Z.pow_pos_nonneg; lia).
  split; [|split].
  - unfold canon. split; [lia|]. split; [split|left].
    + nia.
    + replace (2 ^ 53) with (2 ^ d * 2 ^ (53 - d))
        by (rewrite <- Z.pow_add_r by lia; f_equal; lia).
      apply Z.mul_lt_mono_pos_r; assumption.
    + replace (2 ^ 52) with (2 ^ (d - 1) * 2 ^ (53 - d))
        by (rewrite <- Z.pow_add_r by lia; f_equal; lia).
      apply Z.mul_le_mono_nonneg_r; lia.
  - lia.
  - rewrite inject_Z_mult, <- (bpow_inject (53 - d)) by lia.
    rewrite <- Qmult_assoc, <- bpow_plus.
    replace (53 - d + (d - 53)) with 0 by lia. rewrite bpow_0. ring.
Qed.

Lemma ofZ_pos p :
  Zpos p < 2 ^ 53 ->
  PosFin (JS.ofZ (Zpos p)) /\ (JS.F2Q (JS.ofZ (Zpos p)) == inject_Z (Zpos p))%Q.
Proof.
  intros Hp. unfold PosFin, JS.F2Q, JS.ofZ.
  rewrite of_uint63_spec, Uint63.of_Z_spec, Z.mod_small
    by (split; [lia | apply Z.lt_trans with (1 := Hp); reflexivity]).
  unfold binary_normalize.
  pose proof (binary_round_spec false p 0) as R.
  destruct (small_int_canon p Hp) as (k & ef & C & E & V).
  assert (Q : (Qmag p 0 == inject_Z k * bpow ef)%Q).
  { unfold Qmag. rewrite bpow_0, V. ring. }
  destruct (Rounds_between _ _ k ef k ef R) as (Pz & L & U);
    try (rewrite Q; apply Qle_refl); auto.
  - apply canon_grid, C.
  - destruct C; lia.
  - split; [exact Pz|]. rewrite <- V. lra.
Qed.

Lemma F2Q_opp x : (JS.F2Q (- x) == - JS.F2Q x)%Q.
Proof.
  unfold JS.F2Q. rewrite opp_spec.
  destruct (Prim2SF x) as [s|s| |s m e]; try reflexivity.
  unfold SFopp, JS.SF2Q. destruct s; simpl cond_Zopp.
  - change (Zpos m) with (- Zneg m)%Z. rewrite inject_Z_opp. ring.
  - change (Zneg m) with (- Zpos m)%Z. rewrite inject_Z_opp. ring.
Qed.

Lemma is_finite_opp x : is_finite (- x) = is_finite x.
Proof.
  rewrite !is_finite_spec, opp_spec. destruct (Prim2SF x); reflexivity.
Qed.

Lemma PosFin_is_finite x : PosFin x -> is_finite x = true.
Proof. rewrite is_finite_spec. intros (m & e & -> & _). reflexivity. Qed.

Lemma ofZ_spec n :
  n <> 0 -> Z.abs n < 2 ^ 53 ->
  is_finite (JS.ofZ n) = true /\ (JS.F2Q (JS.ofZ n) == inject_Z n)%Q.
Proof.
  intros N0 Hn. destruct n as [|p|p]; [contradiction| |].
  - destruct (ofZ_pos p Hn) as [P V]. split; [apply PosFin_is_finite, P | exact V].
  - destruct (ofZ_pos p Hn) as [P V]. unfold JS.ofZ. split.
    + rewrite is_finite_opp. apply PosFin_is_finite, P.
    + rewrite F2Q_opp. unfold JS.ofZ in V. rewrite V.
      change (Zneg p) with (- Zpos p)%Z. rewrite inject_Z_opp. reflexivity.
Qed.

(** The integer [ceilZ s m e] is the ceiling of [(-1)^s * m * 2^e]. *)
Lemma ceilZ_spec s m e :
  e < 0 ->
  let v := (inject_Z (cond_Zopp s (Zpos m)) * bpow e)%Q in
  (v <= inject_Z (JS.ceilZ s m e))%Q /\ (inject_Z (JS.ceilZ s m e) < v + 1)%Q.
Proof.
  intros He v. subst v. unfold JS.ceilZ.
  set (a := cond_Zopp s (Zpos m)).
  assert (P : 0 < 2 ^ (- e)) by (apply Z.pow_pos_nonneg; lia).
  pose proof (Z.div_mod (- a) (2 ^ (- e)) ltac:(lia)) as D.
  pose proof (Z.mod_pos_bound (- a) (2 ^ (- e)) P) as M.
  set (n := - (- a / 2 ^ (- e))) in *.
  assert (U : a <= n * 2 ^ (- e)) by (unfold n; lia).
  assert (L : (n + -1) * 2 ^ (- e) + 1 <= a) by (unfold n; lia).
  clearbody n a. clear D M.
  pose proof (bpow_pos e) as B.
  assert (I : (inject_Z (2 ^ (- e)) * bpow e == 1)%Q).
  { rewrite <- (bpow_inject (- e)), <- bpow_plus by lia.
    replace (- e + e) with 0 by lia. reflexivity. }
  apply inject_Z_le in U. apply inject_Z_le in L.
  rewrite inject_Z_mult in U. rewrite inject_Z_plus, inject_Z_mult, inject_Z_plus in L.
  change (inject_Z (-1)) with (-1)%Q in L. change (inject_Z 1) with 1%Q in L.
  apply (Qmult_le_compat_r _ _ (bpow e)) in U; [|lra].
  apply (Qmult_le_compat_r _ _ (bpow e)) in L; [|lra].
  assert (E : (inject_Z n * inject_Z (2 ^ (- e)) * bpow e == inject_Z n)%Q)
    by (rewrite <- Qmult_assoc, I; ring).
  split; lra.
Qed.

Lemma ceilZ_small s m e :
  e < 0 -> Zpos m < 2 ^ 53 -> Z.abs (JS.ceilZ s m e) < 2 ^ 53.
Proof.
  intros He Hm. unfold JS.ceilZ.
  set (a := cond_Zopp s (Zpos m)).
  assert (A : Z.abs a < 2 ^ 53) by (unfold a; destruct s; simpl; lia).
  assert (P : 2 <= 2 ^ (- e)).
  { change 2 with (2 ^ 1) at 1. apply Z.pow_le_mono_r; lia. }
  pose proof (Z.div_mod (- a) (2 ^ (- e)) ltac:(lia)) as D.
  pose proof (Z.mod_pos_bound (- a) (2 ^ (- e)) ltac:(lia)) as M.
  set (q := - a / 2 ^ (- e)) in *. set (r := - a mod 2 ^ (- e)) in *.
  assert (0 < 2 ^ 53) by (apply Z.pow_pos_nonneg; lia).
  nia.
Qed.

(** On a finite number [Math.ceil] is finite and is the least integer
    not below the number. *)
Theorem Math_ceil_finite x :
  is_finite x = true ->
  is_finite (JS.Math_ceil x) = true /\
  exists n : Z,
    (JS.F2Q (JS.Math_ceil x) == inject_Z n)%Q /\
    (JS.F2Q x <= inject_Z n)%Q /\ (inject_Z n < JS.F2Q x + 1)%Q.
Proof.
  intros F. pose proof F as F'. rewrite is_finite_spec in F'.
  pose proof (Prim2SF_valid x) as V.
  unfold JS.Math_ceil, JS.F2Q at 2 3.
  destruct (Prim2SF x) as [s|s| |s m e] eqn:E; try discriminate.
  - split; [exact F|]. exists 0. unfold JS.F2Q. rewrite E. simpl JS.SF2Q.
    change (inject_Z 0) with 0%Q. repeat split; lra.
  - destruct (Z.leb_spec 0 e) as [He|He].
    + split; [exact F|]. exists (cond_Zopp s (Zpos m) * 2 ^ e).
      unfold JS.F2Q. rewrite E. simpl JS.SF2Q. fold (bpow e).
      rewrite inject_Z_mult, <- (bpow_inject e) by lia.
      repeat split; lra.
    + destruct (ceilZ_spec s m e He) as [L U].
      assert (Hm : Zpos m < 2 ^ 53).
      { destruct s; simpl in V; apply bounded_canon in V;
          destruct V as [(_ & ? & _) _]; lia. }
      pose proof (ceilZ_small s m e He Hm) as Sm.
      simpl JS.SF2Q. fold (bpow e).
      destruct (Z.eqb_spec (JS.ceilZ s m e) 0) as [Z0|NZ].
      * rewrite Z0 in *. split; [destruct s; reflexivity|].
        exists 0. split; [destruct s; reflexivity|]. split; assumption.
      * destruct (ofZ_spec _ NZ Sm) as [Fin Val].
        split; [exact Fin|]. exists (JS.ceilZ s m e). auto.
Qed.

(** [Math.ceil] leaves the two infinities and NaN as they are. *)
Lemma Math_ceil_not_finite x : is_finite x = false -> JS.Math_ceil x = x.
Proof.
  rewrite is_finite_spec. unfold JS.Math_ceil.
  destruct (Prim2SF x); try discriminate; reflexivity.
Qed.

(** A finite number whose value is an integer satisfies [Number.isInteger]. *)
Lemma isInteger_of_value x n :
  is_finite x = true -> (JS.F2Q x == inject_Z n)%Q -> JS.isInteger x = true.
Proof.
  rewrite is_finite_spec. unfold JS.F2Q, JS.isInteger.
  destruct (Prim2SF x) as [s|s| |s m e]; try discriminate; [reflexivity|].
  intros _ H. simpl JS.SF2Q in H. fold (bpow e) in H.
  destruct (Z.leb_spec 0 e) as [He|He]; [reflexivity|]. simpl orb.
  apply Z.eqb_eq.
  assert (P : 0 < 2 ^ (- e)) by (apply Z.pow_pos_nonneg; lia).
  assert (I : (bpow e * inject_Z (2 ^ (- e)) == 1)%Q).
  { rewrite <- (bpow_inject (- e)), <- bpow_plus by lia.
    replace (e + - e) with 0 by lia. reflexivity. }
  assert (E : (inject_Z (cond_Zopp s (Zpos m)) == inject_Z (n * 2 ^ (- e)))%Q).
  { rewrite inject_Z_mult, <- H, <- Qmult_assoc, I. ring. }
  apply (proj1 (inject_Z_injective _ _)) in E.
  destruct s; simpl cond_Zopp in E.
  - replace (Zpos m) with ((- n) * 2 ^ (- e)) by lia. apply Z.mod_mul. lia.
  - rewrite E. apply Z.mod_mul. lia.
Qed.

Lemma finite_pos_PosFin y :
  is_finite y = true -> (0 < JS.F2Q y)%Q -> PosFin y.
Proof.
  rewrite is_finite_spec. unfold JS.F2Q, PosFin.
  pose proof (Prim2SF_valid y) as V.
  destruct (Prim2SF y) as [s|s| |[] m e]; try discriminate; intros _ H.
  - exfalso. simpl JS.SF2Q in H. fold (bpow e) in H.
    pose proof (bpow_pos e).
    assert (inject_Z (Zneg m) < 0)%Q by (apply (inject_Z_lt _ 0); lia).
    assert (inject_Z (Zneg m) * bpow e < 0 * bpow e)%Q
      by (apply Qmult_lt_compat_r; assumption).
    lra.
  - apply valid_SPosFin, V.
Qed.

Lemma Math_ceil_PosFin x :
  PosFin x ->
  PosFin (JS.Math_ceil x) /\
  exists n : Z,
    (JS.F2Q (JS.Math_ceil x) == inject_Z n)%Q /\
    (JS.F2Q x <= inject_Z n)%Q /\ (inject_Z n < JS.F2Q x + 1)%Q.
Proof.
  intros P. destruct (Math_ceil_finite x (PosFin_is_finite x P)) as (F & n & V & L & U).
  split; [|exists n; auto].
  apply finite_pos_PosFin; [exact F|]. pose proof (SPosFin_pos _ P).
  unfold JS.F2Q in *. lra.
Qed.

Lemma Math_ceil_NonNeg x : NonNeg x -> NonNeg (JS.Math_ceil x).
Proof.
  intros [Z | [P | I]].
  - unfold NonNeg, JS.Math_ceil. rewrite Z. rewrite Z. left. reflexivity.
  - right; left. apply Math_ceil_PosFin, P.
  - unfold NonNeg, JS.Math_ceil. rewrite I. rewrite I. right; right. reflexivity.
Qed.

(** [Math.ceil] is monotone on non-negative numbers. *)
Theorem Math_ceil_mono x x' :
  NonNeg x -> NonNeg x' -> (x <=? x')%float = true ->
  (JS.Math_ceil x <=? JS.Math_ceil x')%float = true.
Proof.
  intros N N' L. rewrite FloatAxioms.leb_spec in *.
  pose proof (Math_ceil_NonNeg x N) as C. pose proof (Math_ceil_NonNeg x' N') as C'.
  destruct (SFleb_NonNeg_cases _ _ N N' L) as [Z | [I | [P P']]].
  - unfold JS.Math_ceil at 1. rewrite Z. rewrite Z. apply SFleb_zero_l, C'.
  - unfold JS.Math_ceil at 2. rewrite I. rewrite I. apply SFleb_inf_r, C.
  - destruct (Math_ceil_PosFin x P) as (Pc & n & V & Lo & Up).
    destruct (Math_ceil_PosFin x' P') as (Pc' & n' & V' & Lo' & Up').
    apply (SFleb_PosFin _ _ Pc Pc').
    apply (SFleb_PosFin _ _ P P') in L.
    unfold JS.F2Q in *. rewrite V, V'.
    apply inject_Z_le.
    assert (H : (inject_Z n < inject_Z (n' + 1))%Q) by (rewrite inject_Z_succ; lra).
    rewrite <- Zlt_Qlt in H. lia.
Qed.

(** Rounding a value of the format gives that value back, whatever the sign. *)
Lemma Rounds_exact v s z m e :
  Rounds v s z -> canon (Zpos m) e -> e <= 971 -> (v == Qmag m e)%Q ->
  z = S754_finite s m e.
Proof.
  intros (m1 & e1 & m2 & S & ->) C E V.
  pose proof (canon_grid _ _ C) as G.
  assert (L : (inject_Z (Zpos m) * bpow e <= v)%Q) by (rewrite V; apply Qle_refl).
  assert (U : (v <= inject_Z (Zpos m) * bpow e)%Q) by (rewrite V; apply Qle_refl).
  pose proof (Slice_ge_grid _ _ _ _ _ _ S G L) as L'.
  pose proof (Slice_le_grid _ _ _ _ _ _ S G U) as U'.
  pose proof (canon_pos _ _ C) as P.
  destruct (pack_cases s m2 e1 (Slice_grid_end _ _ _ _ S))
    as [[Z _] | (mc & ec & Cc & Vc & [[B ->] | [B _]])].
  - exfalso. subst m2. change (inject_Z 0) with 0%Q in *. lra.
  - assert (Eq : S754_finite false mc ec = S754_finite false m e).
    { apply SPosFin_inj.
      - exists mc, ec. auto.
      - exists m, e. auto.
      - rewrite !SF2Q_Qmag. unfold Qmag. lra. }
    injection Eq as -> ->. reflexivity.
  - exfalso. pose proof (canon_lt_bpow _ _ C).
    pose proof (canon_ge_bpow _ _ Cc ltac:(lia)).
    pose proof (bpow_le (e + 53) (ec + 52) ltac:(lia)). lra.
Qed.

(** [x * 1] is [x], bit for bit. *)
Theorem mul_one_r x : (x * 1)%float = x.
Proof.
  apply Prim2SF_inj. rewrite mul_spec.
  pose proof (Prim2SF_valid x) as V.
  destruct (Prim2SF x) as [[]|[]| |s m e]; try reflexivity.
  simpl in V. apply bounded_canon in V. destruct V as [C E].
  change (Prim2SF 1) with (S754_finite false 4503599627370496 (-52)).
  assert (C1 : canon (Zpos 4503599627370496) (-52)) by (unfold canon; lia).
  pose proof (SFmul_finite_spec s m e false _ _ C C1) as R.
  replace (xorb s false) with s in R by (destruct s; reflexivity).
  apply (Rounds_exact _ _ _ m e R C E).
  setoid_replace (Qmag 4503599627370496 (-52)) with 1%Q by reflexivity. ring.
Qed.

Lemma add_zero_r x o :
  PosFin x -> (o =? 0)%float = true -> (x + o = x)%float /\ (x - o = x)%float.
Proof.
  intros (m & e & X & _). rewrite FloatAxioms.eqb_spec.
  change (Prim2SF 0) with (S754_zero false). intros H.
  split; apply Prim2SF_inj; rewrite ?add_spec, ?sub_spec, X;
    destruct (Prim2SF o) as [[]|[]| |[] mo eo]; try discriminate; reflexivity.
Qed.

(** Relative error of an operation whose rounded result is finite and
    whose exact result is not below the normal range. *)
Lemma Rounds_relerr v z :
  Rounds v false z -> SPosFin z -> (bpow (-1022) <= v)%Q ->
  (JS.SF2Q z - v <= bpow (-53) * v)%Q /\ (v - JS.SF2Q z <= bpow (-53) * v)%Q.
Proof.
  intros R P Hv.
  destruct (Rounds_cases v z R) as (m1 & e1 & m2 & S & [[_ Z] | [[_ V] | [I _]]]).
  - exfalso. destruct P as (m & e & E & _). congruence.
  - rewrite V. apply (Slice_relerr _ _ _ _ S Hv).
  - exfalso. destruct P as (m & e & E & _). congruence.
Qed.

(** ** The standard model of an operation in the normal range *)

Lemma Rounds_accurate v z :
  Rounds v false z -> (bpow (-1022) <= v)%Q -> (v <= Qmax)%Q ->
  SPosFin z /\
  (JS.SF2Q z - v <= bpow (-53) * v)%Q /\ (v - JS.SF2Q z <= bpow (-53) * v)%Q.
Proof.
  intros R Lo Hi.
  destruct (Rounds_between v z (2 ^ 52) (-1074) (2 ^ 53 - 1) 971 R) as (P & _).
  - unfold grid. lia.
  - lia.
  - setoid_replace (inject_Z (2 ^ 52) * bpow (-1074))%Q with (bpow (-1022)); [exact Lo|].
    rewrite <- (bpow_inject 52), <- bpow_plus by lia. reflexivity.
  - unfold canon. lia.
  - lia.
  - exact Hi.
  - split; [exact P|]. apply Rounds_relerr; assumption.
Qed.

Lemma div_accurate x y :
  PosFin x -> PosFin y ->
  (bpow (-1022) <= JS.F2Q x / JS.F2Q y)%Q -> (JS.F2Q x / JS.F2Q y <= Qmax)%Q ->
  PosFin (x / y) /\
  (JS.F2Q (x / y) - JS.F2Q x / JS.F2Q y <= bpow (-53) * (JS.F2Q x / JS.F2Q y))%Q /\
  (JS.F2Q x / JS.F2Q y - JS.F2Q (x / y) <= bpow (-53) * (JS.F2Q x / JS.F2Q y))%Q.
Proof.
  intros Px Py. unfold PosFin, JS.F2Q. rewrite div_spec.
  apply Rounds_accurate, SFdiv_PosFin; assumption.
Qed.

Lemma mul_accurate x y :
  PosFin x -> PosFin y ->
  (bpow (-1022) <= JS.F2Q x * JS.F2Q y)%Q -> (JS.F2Q x * JS.F2Q y <= Qmax)%Q ->
  PosFin (x * y) /\
  (JS.F2Q (x * y) - JS.F2Q x * JS.F2Q y <= bpow (-53) * (JS.F2Q x * JS.F2Q y))%Q /\
  (JS.F2Q x * JS.F2Q y - JS.F2Q (x * y) <= bpow (-53) * (JS.F2Q x * JS.F2Q y))%Q.
Proof.
  intros Px Py. unfold PosFin, JS.F2Q. rewrite mul_spec.
  apply Rounds_accurate, SFmul_PosFin; assumption.
Qed.

Lemma add_accurate x y :
  PosFin x -> PosFin y ->
  (bpow (-1022) <= JS.F2Q x + JS.F2Q y)%Q -> (JS.F2Q x + JS.F2Q y <= Qmax)%Q ->
  PosFin (x + y) /\
  (JS.F2Q (x + y) - (JS.F2Q x + JS.F2Q y) <= bpow (-53) * (JS.F2Q x + JS.F2Q y))%Q /\
  (JS.F2Q x + JS.F2Q y - JS.F2Q (x + y) <= bpow (-53) * (JS.F2Q x + JS.F2Q y))%Q.
Proof.
  intros Px Py. unfold PosFin, JS.F2Q. rewrite add_spec.
  apply Rounds_accurate, SFadd_PosFin; assumption.
Qed.

Lemma leb_PosFin x y :
  PosFin x -> PosFin y -> ((x <=? y)%float = true <-> (JS.F2Q x <= JS.F2Q y)%Q).
Proof. intros Px Py. rewrite FloatAxioms.leb_spec. apply SFleb_PosFin; assumption. Qed.

Lemma ltb_PosFin x y :
  PosFin x -> PosFin y -> ((x <? y)%float = true <-> (JS.F2Q x < JS.F2Q y)%Q).
Proof. intros Px Py. rewrite FloatAxioms.ltb_spec. apply SFltb_PosFin; assumption. Qed.

(** ** Signs *)

Lemma SFdiv_NotNeg a b :
  SNotNeg a -> SNotNeg b -> SNotNeg (SFdiv prec emax a b).
Proof.
  intros [-> | [-> | [Pa | ->]]] [-> | [-> | [Pb | ->]]];
    try (left; reflexivity);
    try (destruct Pa as (ma & ea & -> & _));
    try (destruct Pb as (mb & eb & -> & _));
    try (left; reflexivity);
    try (right; left; reflexivity);
    try (right; right; right; reflexivity).
  right. apply (Rounds_SNonNeg _ _ (SFdiv_finite_spec false ma ea false mb eb)).
Qed.

Lemma SFmul_NonNeg_r a b :
  SPosFin a -> SNonNeg b -> SNonNeg (SFmul prec emax a b).
Proof.
  intros Pa [-> | [Pb | ->]].
  - destruct Pa as (m & e & -> & _). left. reflexivity.
  - apply (Rounds_SNonNeg _ _ (SFmul_PosFin _ _ Pa Pb)).
  - destruct Pa as (m & e & -> & _). right; right. reflexivity.
Qed.

Lemma NotNeg_not_lt M : SNotNeg (Prim2SF M) -> (M <? 0)%float = false.
Proof.
  rewrite FloatAxioms.ltb_spec. change (Prim2SF 0) with (S754_zero false).
  intros [-> | [-> | [(m & e & -> & _) | ->]]]; reflexivity.
Qed.

(** [1 + M] is never zero or negative when [M] is not negative. *)
Lemma one_plus_NotNeg M :
  SNotNeg (Prim2SF M) -> (1 + M <=? 0)%float = false.
Proof.
  rewrite FloatAxioms.leb_spec, add_spec. change (Prim2SF 0) with (S754_zero false).
  intros [-> | [-> | [P | ->]]]; try reflexivity.
  pose proof (SFadd_PosFin _ _ PosFin_1 P) as R.
  destruct (Rounds_cases _ _ R) as (m1 & e1 & m2 & S & H).
  assert (G : grid (2 ^ 52) (-52)) by (unfold grid; lia).
  assert (E1 : (inject_Z (2 ^ 52) * bpow (-52) == 1)%Q) by reflexivity.
  pose proof (SPosFin_pos _ P) as P0.
  pose proof (Slice_ge_grid _ _ _ _ _ _ S G ltac:(rewrite E1, F2Q_1; lra)) as L.
  unfold SF64add.
  destruct H as [[Z _] | [[(m & e & -> & _) _] | [-> _]]]; try reflexivity.
  exfalso. subst m2. change (inject_Z 0) with 0%Q in L. rewrite E1 in L. lra.
Qed.

#[local] Close Scope Z_scope.
#[local] Open Scope float_scope.

(** ** Truthiness and [Math.ceil] of a positive number *)

Lemma truthy_positive c : (0 <? c) = true -> JS.truthy c = true.
Proof.
  unfold JS.truthy, is_zero. rewrite is_nan_spec, FloatAxioms.ltb_spec, FloatAxioms.eqb_spec.
  change (Prim2SF 0) with (S754_zero false).
  change (Prim2SF zero) with (S754_zero false).
  destruct (Prim2SF c) as [[]|[]| |[] m e]; try discriminate; reflexivity.
Qed.

Lemma truthy_not_positive c :
  (0 <=? c) = true -> (0 <? c) = false -> JS.truthy c = false.
Proof.
  unfold JS.truthy, is_zero. rewrite is_nan_spec, FloatAxioms.ltb_spec, FloatAxioms.leb_spec, FloatAxioms.eqb_spec.
  change (Prim2SF 0) with (S754_zero false).
  change (Prim2SF zero) with (S754_zero false).
  destruct (Prim2SF c) as [[]|[]| |[] m e]; try discriminate; reflexivity.
Qed.

Lemma one_le_Math_ceil q :
  (0 <? q) = true -> (1 <=? JS.Math_ceil q) = true.
Proof.
  intros H. rewrite FloatAxioms.leb_spec. pose proof H as H'.
  rewrite FloatAxioms.ltb_spec in H'. change (Prim2SF 0) with (S754_zero false) in H'.
  destruct (is_finite q) eqn:F.
  - assert (P : PosFin q).
    { apply positive_finite_PosFin. unfold positive_finite. rewrite F, H. reflexivity. }
    destruct (Math_ceil_PosFin q P) as (Pc & n & V & L & U).
    apply (SFleb_PosFin _ _ PosFin_1 Pc). rewrite F2Q_1.
    pose proof (SPosFin_pos _ P). unfold JS.F2Q in *. rewrite V.
    apply (inject_Z_le 1).
    assert (Hn : (inject_Z 0 < inject_Z n)%Q) by (change (inject_Z 0) with 0%Q; lra).
    rewrite <- Zlt_Qlt in Hn. lia.
  - rewrite (Math_ceil_not_finite _ F). rewrite is_finite_spec in F.
    destruct (Prim2SF q) as [[]|[]| |[] m e]; try discriminate; reflexivity.
Qed.

(** ** Intervals *)

Lemma Between_PosFin lo hi x :
  positive_finite lo = true -> positive_finite hi = true ->
  Between lo hi x -> PosFin x.
Proof.
  intros Pl Ph [L H].
  apply (between_PosFin lo hi); auto using positive_finite_PosFin.
Qed.

Lemma leb_trans x y z :
  PosFin x -> PosFin y -> PosFin z ->
  (x <=? y) = true -> (y <=? z) = true -> (x <=? z) = true.
Proof.
  intros Px Py Pz L1 L2.
  apply (leb_PosFin _ _ Px Py) in L1. apply (leb_PosFin _ _ Py Pz) in L2.
  apply (leb_PosFin _ _ Px Pz). lra.
Qed.

Lemma Between_widen lo hi lo' hi' x :
  positive_finite lo = true -> positive_finite hi = true ->
  positive_finite lo' = true -> positive_finite hi' = true ->
  (lo' <=? lo) = true -> (hi <=? hi') = true ->
  Between lo hi x -> Between lo' hi' x.
Proof.
  intros Pl Ph Pl' Ph' L H B. pose proof (Between_PosFin _ _ _ Pl Ph B) as Px.
  destruct B as [B1 B2]. apply positive_finite_PosFin in Pl, Ph, Pl', Ph'.
  split; [apply (leb_trans lo' lo x) | apply (leb_trans x hi hi')]; assumption.
Qed.

(** Interval arithmetic on positive finite numbers. *)
Lemma div_Between la ha lb hb a b :
  positive_finite la = true -> positive_finite ha = true ->
  positive_finite lb = true -> positive_finite hb = true ->
  Between la ha a -> Between lb hb b ->
  Between (la / hb) (ha / lb) (a / b).
Proof.
  intros Pla Pha Plb Phb Ba Bb.
  pose proof (Between_PosFin _ _ _ Pla Pha Ba) as Pa.
  pose proof (Between_PosFin _ _ _ Plb Phb Bb) as Pb.
  destruct Ba as [A1 A2], Bb as [B1 B2].
  apply positive_finite_PosFin in Pla, Pha, Plb, Phb.
  rewrite FloatAxioms.leb_spec in A1, A2, B1, B2.
  split; rewrite FloatAxioms.leb_spec, !div_spec; apply SFdiv_mono; assumption.
Qed.

Lemma mul_Between la ha lb hb a b :
  positive_finite la = true -> positive_finite ha = true ->
  positive_finite lb = true -> positive_finite hb = true ->
  Between la ha a -> Between lb hb b ->
  Between (la * lb) (ha * hb) (a * b).
Proof.
  intros Pla Pha Plb Phb Ba Bb.
  pose proof (Between_PosFin _ _ _ Pla Pha Ba) as Pa.
  pose proof (Between_PosFin _ _ _ Plb Phb Bb) as Pb.
  destruct Ba as [A1 A2], Bb as [B1 B2].
  apply positive_finite_PosFin in Pla, Pha, Plb, Phb.
  rewrite FloatAxioms.leb_spec in A1, A2, B1, B2.
  split; rewrite FloatAxioms.leb_spec, !mul_spec; apply SFmul_mono; assumption.
Qed.

Lemma Between_refl x : positive_finite x = true -> Between x x x.
Proof.
  intros P. apply positive_finite_PosFin in P.
  split; rewrite FloatAxioms.leb_spec; apply SFleb_refl; right; left; exact P.
Qed.

Lemma overlap_below o oh :
  (0 <=? o) = true -> (o <=? oh) = true -> (oh <? 1) = true -> PosFin oh ->
  (o <? 1) = true.
Proof.
  intros O0 O1 H1 Ph.
  rewrite FloatAxioms.ltb_spec, FloatAxioms.leb_spec in *.
  change (Prim2SF 0) with (S754_zero false) in O0.
  pose proof (Prim2SF_valid o) as V.
  destruct (Prim2SF o) as [[]|[]| |[] m e]; try discriminate; try reflexivity.
  - destruct Ph as (mh & eh & Eh & _). rewrite Eh in O1. discriminate.
  - pose proof (valid_SPosFin _ _ V) as P.
    apply (SFleb_PosFin _ _ P Ph) in O1.
    apply (SFltb_PosFin _ _ Ph PosFin_1) in H1.
    apply (SFltb_PosFin _ _ P PosFin_1). lra.
Qed.

(** [1 + overlap] and [1 - overlap] for an overlap of at most [oh < 1]. *)
Lemma one_plus_overlap_Between o oh :
  (0 <=? o) = true -> (o <=? oh) = true -> (oh <? 1) = true ->
  positive_finite oh = true ->
  Between 1 (1 + oh) (1 + o).
Proof.
  intros O0 O1 H1 Ph. apply positive_finite_PosFin in Ph.
  pose proof (overlap_below o oh O0 O1 H1 Ph) as O2.
  destruct (one_plus_overlap o O0 O2) as (P & L & _).
  split.
  - apply (leb_PosFin 1 (1 + o) PosFin_1 P).
    setoid_replace (JS.F2Q 1) with 1%Q by reflexivity. exact L.
  - rewrite FloatAxioms.leb_spec, !add_spec.
    destruct (overlap_cases o O0 O2) as [[s Z] | [Po _]].
    + rewrite Z. change (SF64add (Prim2SF 1) (S754_zero s)) with (Prim2SF 1).
      pose proof (SFadd_PosFin _ _ PosFin_1 Ph) as R.
      destruct (Rounds_between_PosFin _ _ _ (Prim2SF 2) R PosFin_1) as (Pz & Lz & _).
      * exact PosFin_2.
      * pose proof (SPosFin_pos _ Ph). rewrite F2Q_1. lra.
      * apply (ltb_PosFin _ _ Ph PosFin_1) in H1. unfold JS.F2Q in H1.
        rewrite F2Q_1, F2Q_2 in *. lra.
      * apply (SFleb_PosFin _ _ PosFin_1 Pz). exact Lz.
    + rewrite FloatAxioms.leb_spec in O1.
      apply SFadd_mono; auto using PosFin_1.
Qed.

Lemma one_minus_overlap_Between o oh :
  (0 <=? o) = true -> (o <=? oh) = true -> (oh <? 1) = true ->
  positive_finite oh = true ->
  Between (1 - oh) 1 (1 - o).
Proof.
  intros O0 O1 H1 Ph. apply positive_finite_PosFin in Ph.
  pose proof H1 as H1'. apply (ltb_PosFin _ _ Ph PosFin_1) in H1'.
  setoid_replace (JS.F2Q 1) with 1%Q in H1' by reflexivity.
  pose proof (overlap_below o oh O0 O1 H1 Ph) as O2.
  destruct (one_minus_overlap o O0 O2) as (P & U).
  assert (H1s : (JS.SF2Q (Prim2SF oh) < JS.SF2Q (Prim2SF 1))%Q)
    by (rewrite F2Q_1; exact H1').
  pose proof (SFsub_PosFin _ _ PosFin_1 Ph H1s) as Rh.
  split.
  - rewrite FloatAxioms.leb_spec, !sub_spec.
    destruct (overlap_cases o O0 O2) as [[s Z] | [Po Vo]].
    + rewrite Z. change (SF64sub (Prim2SF 1) (S754_zero s)) with (Prim2SF 1).
      unfold SF64sub.
      destruct (Rounds_cases _ _ Rh) as (m1 & e1 & m2 & S & H).
      pose proof (Slice_le_grid _ _ _ _ (2 ^ 52) (-52) S) as Le.
      assert (G : grid (2 ^ 52) (-52)) by (unfold grid; lia).
      assert (E1 : (inject_Z (2 ^ 52) * bpow (-52) == 1)%Q) by reflexivity.
      pose proof (SPosFin_pos _ Ph).
      specialize (Le G ltac:(rewrite E1, F2Q_1; lra)).
      destruct H as [[_ ->] | [[Pz V] | [_ I]]].
      * reflexivity.
      * apply (SFleb_PosFin _ _ Pz PosFin_1). rewrite V, F2Q_1, <- E1. exact Le.
      * exfalso. assert (bpow 0 <= bpow 1024)%Q by (apply bpow_le; lia).
        assert (bpow 0 < bpow 1024)%Q by (apply bpow_lt; lia).
        rewrite bpow_0 in *. lra.
    + rewrite FloatAxioms.leb_spec in O1. unfold SF64sub.
      destruct (SFleb_PosFin_cases _ _ Po Ph O1) as [E | L].
      * rewrite E. apply SFleb_refl. apply (Rounds_SNonNeg _ _ Rh).
      * assert (Vs : (JS.SF2Q (Prim2SF o) < JS.SF2Q (Prim2SF 1))%Q)
          by (rewrite F2Q_1; exact Vo).
        pose proof (SFsub_PosFin _ _ PosFin_1 Po Vs) as Ro.
        apply (Rounds_mono _ _ _ _ Rh Ro). lra.
  - apply (leb_PosFin _ 1 P PosFin_1).
    setoid_replace (JS.F2Q 1) with 1%Q by reflexivity. exact U.
Qed.

Lemma Math_ceil_Between lo hi x :
  positive_finite lo = true -> positive_finite hi = true ->
  Between lo hi x -> Between (JS.Math_ceil lo) (JS.Math_ceil hi) (JS.Math_ceil x).
Proof.
  intros Pl Ph B. pose proof (Between_PosFin _ _ _ Pl Ph B) as Px.
  apply positive_finite_PosFin in Pl, Ph. destruct B as [L H].
  split; apply Math_ceil_mono; auto; right; left; assumption.
Qed.

Lemma leb_of_integer x :
  positive_finite x = true -> JS.isInteger x = true -> (1 <=? x) = true.
Proof.
  intros P I. apply positive_finite_PosFin in P.
  apply (leb_PosFin 1 x PosFin_1 P).
  setoid_replace (JS.F2Q 1) with 1%Q by reflexivity.
  apply integer_ge_1; assumption.
Qed.

(** ** The thin-lens formula *)

(** The thin-lens formula on a magnification in [2^-52, 2^51] and a
    working distance in [2^-900, 2^900]. *)
Lemma thin_lens_bounds M wd :
  (0x1p-52 <=? M) = true -> (M <=? 0x1p51) = true ->
  (0x1p-900 <=? wd) = true -> (wd <=? 0x1p900) = true ->
  (0 <? M) = true /\ (1 <? 1 + M) = true /\
  (0 <? (M * wd) / (1 + M)) = true /\ ((M * wd) / (1 + M) <? wd) = true.
Proof.
  intros M1 M2 W1 W2.
  assert (PMl : PosFin 0x1p-52) by (apply positive_finite_PosFin; reflexivity).
  assert (PMh : PosFin 0x1p51) by (apply positive_finite_PosFin; reflexivity).
  assert (PWl : PosFin 0x1p-900) by (apply positive_finite_PosFin; reflexivity).
  assert (PWh : PosFin 0x1p900) by (apply positive_finite_PosFin; reflexivity).
  pose proof (between_PosFin _ _ _ PMl PMh M1 M2) as PM.
  pose proof (between_PosFin _ _ _ PWl PWh W1 W2) as PW.
  apply (leb_PosFin _ _ PMl PM) in M1. apply (leb_PosFin _ _ PM PMh) in M2.
  apply (leb_PosFin _ _ PWl PW) in W1. apply (leb_PosFin _ _ PW PWh) in W2.
  setoid_replace (JS.F2Q 0x1p-52) with (1 # 4503599627370496)%Q in M1 by reflexivity.
  setoid_replace (JS.F2Q 0x1p51) with (2251799813685248 # 1)%Q in M2 by reflexivity.
  setoid_replace (JS.F2Q 0x1p-900) with (bpow (-900)) in W1 by reflexivity.
  setoid_replace (JS.F2Q 0x1p900) with (bpow 900) in W2 by reflexivity.
  set (m := JS.F2Q M) in *. set (w := JS.F2Q wd) in *.
  pose proof (bpow_pos (-900)) as Bm900. pose proof (bpow_pos 900) as B900.
  pose proof (bpow_pos (-1022)) as Bm1022.
  assert (U : (bpow (-53) == 1 # 9007199254740992)%Q) by reflexivity.
  assert (F1 : (JS.F2Q 1 == 1)%Q) by reflexivity.
  (* a = M * wd *)
  assert (X0 : (0 < m * w)%Q) by (apply Qmult_lt_0_compat; lra).
  assert (Xlo : ((1 # 4503599627370496) * bpow (-900) <= m * w)%Q)
    by (apply Qmult_le_compat_nonneg; split; lra).
  assert (Xhi : (m * w <= (2251799813685248 # 1) * bpow 900)%Q)
    by (apply Qmult_le_compat_nonneg; split; lra).
  assert (Xw : (m * w <= (2251799813685248 # 1) * w)%Q)
    by (apply Qmult_le_compat_r; lra).
  assert (C1 : (bpow (-1022) <= (1 # 4503599627370496) * bpow (-900))%Q) by qle_compute.
  assert (C2 : ((2251799813685248 # 1) * bpow 900 <= Qmax)%Q) by qle_compute.
  destruct (mul_accurate M wd PM PW) as (Pa & A1 & A2); [fold m w; lra | fold m w; lra |].
  fold m w in A1, A2. rewrite U in A1, A2.
  set (a := JS.F2Q (M * wd)) in *.
  (* b = 1 + M *)
  assert (C3 : (bpow (-1022) <= 1)%Q) by qle_compute.
  assert (C4 : (1 + (2251799813685248 # 1) <= Qmax)%Q) by qle_compute.
  destruct (add_accurate 1 M PosFin_1 PM) as (Pb & E1 & E2);
    [rewrite F1; fold m; lra | rewrite F1; fold m; lra |].
  rewrite F1 in E1, E2. fold m in E1, E2. rewrite U in E1, E2.
  set (b := JS.F2Q (1 + M)) in *.
  (* f = a / b *)
  assert (B0 : (0 < b)%Q) by lra.
  assert (Q1 : (a / b * b == a)%Q) by (field; lra).
  set (q := (a / b)%Q) in *.
  assert (Q0 : (0 < q)%Q) by (apply Qlt_shift_div_l; lra).
  assert (C5 : (bpow (-1022) * (4503599627370496 # 1)
                <= (1 # 2) * ((1 # 4503599627370496) * bpow (-900)))%Q) by qle_compute.
  assert (C6 : (2 * ((2251799813685248 # 1) * bpow 900) <= Qmax * (1 # 2))%Q) by qle_compute.
  assert (Qmax0 : (0 < Qmax)%Q) by lra.
  destruct (div_accurate (M * wd) (1 + M) Pa Pb) as (Pf & G1 & G2).
  { fold a b q. apply Qle_shift_div_l; [exact B0|].
    apply Qle_trans with (bpow (-1022) * (4503599627370496 # 1))%Q; [|lra].
    apply Qmult_le_l; lra. }
  { fold a b q. apply Qle_shift_div_r; [exact B0|].
    apply Qle_trans with (Qmax * (1 # 2))%Q; [lra|].
    apply Qmult_le_l; lra. }
  fold a b q in G1, G2. rewrite U in G1, G2.
  set (f := JS.F2Q (M * wd / (1 + M))) in *.
  assert (Z : forall x, PosFin x -> (0 <? x) = true).
  { intros x Px. apply PosFin_positive_finite in Px. unfold positive_finite in Px.
    apply andb_true_iff in Px. tauto. }
  split; [apply Z, PM|]. split; [|split; [apply Z, Pf|]].
  - apply (ltb_PosFin _ _ PosFin_1 Pb). rewrite F1. fold b. lra.
  - apply (ltb_PosFin _ _ Pf PW). fold f w.
    apply Qle_lt_trans with ((1 + (1 # 9007199254740992)) * q)%Q; [lra|].
    apply (Qmult_lt_r _ _ b); [exact B0|].
    setoid_replace ((1 + (1 # 9007199254740992)) * q * b)%Q
      with ((1 + (1 # 9007199254740992)) * a)%Q by (rewrite <- Q1; ring).
    apply Qlt_le_trans with (w * ((1 - (1 # 9007199254740992)) * (1 + m)))%Q.
    + setoid_replace (w * ((1 - (1 # 9007199254740992)) * (1 + m)))%Q
        with ((1 - (1 # 9007199254740992)) * (w + m * w))%Q by ring.
      lra.
    + apply Qmult_le_l; lra.
Qed.

(** ** More on the order of the format *)

#[local] Open Scope Z_scope.

Lemma NonNeg_zero_leb x : NonNeg x -> (0 <=? x)%float = true.
Proof.
  intros N. rewrite FloatAxioms.leb_spec. change (Prim2SF 0) with (S754_zero false).
  apply SFleb_zero_l, N.
Qed.

Lemma SFleb_trans a b c :
  SNonNeg a -> SNonNeg b -> SNonNeg c ->
  SFleb a b = true -> SFleb b c = true -> SFleb a c = true.
Proof.
  intros Na Nb Nc L1 L2.
  destruct (SFleb_NonNeg_cases _ _ Na Nb L1) as [-> | [-> | [Pa Pb]]].
  - apply SFleb_zero_l, Nc.
  - destruct Nc as [-> | [(m & e & -> & _) | ->]]; try discriminate.
    apply SFleb_inf_r, Na.
  - destruct (SFleb_NonNeg_cases _ _ Nb Nc L2) as [-> | [-> | [_ Pc]]].
    + destruct Pb as (m & e & E & _). discriminate.
    + apply SFleb_inf_r, Na.
    + apply (SFleb_PosFin _ _ Pa Pc).
      apply (SFleb_PosFin _ _ Pa Pb) in L1. apply (SFleb_PosFin _ _ Pb Pc) in L2. lra.
Qed.

(** Division is antitone in a divisor that is not negative. *)
Lemma SFdiv_anti_den a b b' :
  SPosFin a -> SNonNeg b -> SNonNeg b' -> SFleb b' b = true ->
  SFleb (SFdiv prec emax a b) (SFdiv prec emax a b') = true.
Proof.
  intros Pa Nb Nb' L.
  pose proof (SFdiv_NonNeg_r _ _ Pa Nb) as N1.
  pose proof (SFdiv_NonNeg_r _ _ Pa Nb') as N2.
  destruct (SFleb_NonNeg_cases _ _ Nb' Nb L) as [-> | [-> | [Pb' Pb]]].
  - destruct Pa as (m & e & -> & _).
    change (SFdiv prec emax (S754_finite false m e) (S754_zero false))
      with (S754_infinity false).
    apply SFleb_inf_r. exact N1.
  - destruct Pa as (m & e & -> & _).
    change (SFdiv prec emax (S754_finite false m e) (S754_infinity false))
      with (S754_zero false).
    apply SFleb_zero_l. exact N2.
  - apply SFdiv_mono; try assumption. apply SFleb_refl. right; left; exact Pa.
Qed.

Lemma SFdiv_anti_den_l a b b' :
  SNonNeg a -> SPosFin b -> SPosFin b' -> SFleb b' b = true ->
  SFleb (SFdiv prec emax a b) (SFdiv prec emax a b') = true.
Proof.
  intros [-> | [Pa | ->]] Pb Pb' L.
  - destruct Pb as (m & e & -> & _), Pb' as (m' & e' & -> & _). reflexivity.
  - apply SFdiv_mono; try assumption. apply SFleb_refl. right; left; exact Pa.
  - destruct Pb as (m & e & -> & _), Pb' as (m' & e' & -> & _). reflexivity.
Qed.

Lemma SFmul_mono_r a b b' :
  SNonNeg a -> SPosFin b -> SPosFin b' -> SFleb b b' = true ->
  SFleb (SFmul prec emax a b) (SFmul prec emax a b') = true.
Proof.
  intros [-> | [Pa | ->]] Pb Pb' L.
  - destruct Pb as (m & e & -> & _), Pb' as (m' & e' & -> & _). reflexivity.
  - apply SFmul_mono; try assumption. apply SFleb_refl. right; left; exact Pa.
  - destruct Pb as (m & e & -> & _), Pb' as (m' & e' & -> & _). reflexivity.
Qed.

Lemma SFmul_mono_PosFin_l a a' b :
  SPosFin a -> SPosFin a' -> SNonNeg b -> SFleb a a' = true ->
  SFleb (SFmul prec emax a b) (SFmul prec emax a' b) = true.
Proof.
  intros Pa Pa' [-> | [Pb | ->]] L.
  - destruct Pa as (m & e & -> & _), Pa' as (m' & e' & -> & _). reflexivity.
  - apply SFmul_mono; try assumption. apply SFleb_refl. right; left; exact Pb.
  - destruct Pa as (m & e & -> & _), Pa' as (m' & e' & -> & _). reflexivity.
Qed.

(** A quotient of positive finite numbers that is at least [2^-1022] in
    exact arithmetic does not round to zero. *)
Lemma SFdiv_not_zero a b :
  SPosFin a -> SPosFin b -> (bpow (-1022) <= JS.SF2Q a / JS.SF2Q b)%Q ->
  SFltb (S754_zero false) (SFdiv prec emax a b) = true.
Proof.
  intros Pa Pb L. pose proof (SFdiv_PosFin _ _ Pa Pb) as R.
  destruct (Rounds_cases _ _ R) as (m1 & e1 & m2 & S & H).
  assert (G : grid (2 ^ 52) (-1074)) by (unfold grid; lia).
  assert (E : (inject_Z (2 ^ 52) * bpow (-1074) == bpow (-1022))%Q) by reflexivity.
  pose proof (Slice_ge_grid _ _ _ _ _ _ S G ltac:(rewrite E; exact L)) as K.
  pose proof (bpow_pos (-1022)).
  destruct H as [[Z _] | [[(m & e & -> & _) _] | [-> _]]]; try reflexivity.
  exfalso. subst m2. change (inject_Z 0) with 0%Q in K. rewrite E in K. lra.
Qed.

Lemma SPosFin_le_Qmax z : SPosFin z -> (JS.SF2Q z <= Qmax)%Q.
Proof.
  intros P. destruct (SPosFin_canon _ P) as (m & e & _ & (_ & C & _) & E & ->).
  unfold Qmax. pose proof (bpow_pos e). pose proof (bpow_le e 971 E).
  assert (M : (inject_Z (Zpos m) <= inject_Z (2 ^ 53 - 1))%Q) by (apply inject_Z_le; lia).
  assert (M0 : (0 < inject_Z (Zpos m))%Q) by (apply (inject_Z_lt 0); lia).
  apply Qle_trans with (inject_Z (Z.pos m) * bpow 971)%Q.
  - apply Qmult_le_l; assumption.
  - apply Qmult_le_compat_r; [exact M | pose proof (bpow_pos 971); lra].
Qed.

Lemma SFmul_NotNeg_l a b :
  SNotNeg a -> SPosFin b -> SNotNeg (SFmul prec emax a b).
Proof.
  intros [-> | N] Pb.
  - left. destruct Pb as (m & e & -> & _). reflexivity.
  - right. apply SFmul_NonNeg_l; assumption.
Qed.

Lemma SFadd_one_NotNeg b :
  SNotNeg b -> SNotNeg (SFadd prec emax (Prim2SF 1) b).
Proof.
  intros [-> | [-> | [Pb | ->]]].
  - left. reflexivity.
  - right. right; left. exact PosFin_1.
  - right. apply (Rounds_SNonNeg _ _ (SFadd_PosFin _ _ PosFin_1 Pb)).
  - right. right; right. reflexivity.
Qed.

Lemma integer_pos_PosFin x :
  JS.isInteger x = true -> (0 <? x)%float = true -> PosFin x.
Proof.
  unfold JS.isInteger, PosFin. rewrite FloatAxioms.ltb_spec.
  change (Prim2SF 0) with (S754_zero false).
  pose proof (Prim2SF_valid x) as V.
  destruct (Prim2SF x) as [[]|[]| |[] m e]; try discriminate.
  intros _ _. apply valid_SPosFin, V.
Qed.

(** No number of the format lies strictly between two neighbours of its grid. *)
Lemma PosFin_gap x m e :
  PosFin x -> grid m e -> m < 2 ^ 53 ->
  (JS.F2Q x <= inject_Z m * bpow e)%Q \/ ((inject_Z m + 1) * bpow e <= JS.F2Q x)%Q.
Proof.
  intros P G L. destruct (SPosFin_canon _ P) as (k & ef & _ & C & _ & V).
  unfold JS.F2Q. rewrite V. apply grid_gap; [exact G | exact L | apply canon_grid, C].
Qed.

Lemma SFleb_inf_l z : SNonNeg z -> SFleb (S754_infinity false) z = true -> z = S754_infinity false.
Proof. intros [-> | [(m & e & -> & _) | ->]]; try discriminate; reflexivity. Qed.

#[local] Close Scope Z_scope.

Lemma isInteger_finite x : JS.isInteger x = true -> is_finite x = true.
Proof.
  unfold JS.isInteger. rewrite is_finite_spec.
  destruct (Prim2SF x); try discriminate; reflexivity.
Qed.

Lemma zero_of_leb o o' :
  (0 <=? o) = true -> (o <=? o') = true -> (o' =? 0) = true -> (o =? 0) = true.
Proof.
  rewrite !FloatAxioms.leb_spec, !FloatAxioms.eqb_spec.
  change (Prim2SF 0) with (S754_zero false).
  destruct (Prim2SF o') as [[]|[]| |[] m' e']; try discriminate;
    destruct (Prim2SF o) as [[]|[]| |[] m e]; try discriminate; reflexivity.
Qed.

Lemma overlap_zero_or_positive o :
  (0 <=? o) = true -> (o <? 1) = true ->
  (o =? 0) = true \/ positive_finite o = true.
Proof.
  intros O0 O1. destruct (overlap_cases o O0 O1) as [[s Z] | [P _]].
  - left. rewrite FloatAxioms.eqb_spec, Z. destruct s; reflexivity.
  - right. apply PosFin_positive_finite, P.
Qed.

(** [1 + overlap] grows and [1 - overlap] shrinks with the overlap. *)
Lemma one_plus_overlap_mono o o' :
  (0 <=? o) = true -> (o <=? o') = true -> (o' <? 1) = true ->
  (1 + o <=? 1 + o') = true.
Proof.
  intros O0 L O1'.
  assert (O0' : (0 <=? o') = true).
  { revert O0 L. rewrite !FloatAxioms.leb_spec.
    change (Prim2SF 0) with (S754_zero false).
    destruct (Prim2SF o') as [[]|[]| |[] m' e']; try reflexivity;
      destruct (Prim2SF o) as [[]|[]| |[] m e]; try discriminate; intros; assumption. }
  destruct (overlap_zero_or_positive o' O0' O1') as [Z | P].
  - pose proof (zero_of_leb _ _ O0 L Z) as Zo.
    destruct (add_zero_r 1 o PosFin_1 Zo) as [-> _].
    destruct (add_zero_r 1 o' PosFin_1 Z) as [-> _]. reflexivity.
  - exact (proj2 (one_plus_overlap_Between o o' O0 L O1' P)).
Qed.

Lemma one_minus_overlap_anti o o' :
  (0 <=? o) = true -> (o <=? o') = true -> (o' <? 1) = true ->
  (1 - o' <=? 1 - o) = true.
Proof.
  intros O0 L O1'.
  assert (O0' : (0 <=? o') = true).
  { revert O0 L. rewrite !FloatAxioms.leb_spec.
    change (Prim2SF 0) with (S754_zero false).
    destruct (Prim2SF o') as [[]|[]| |[] m' e']; try reflexivity;
      destruct (Prim2SF o) as [[]|[]| |[] m e]; try discriminate; intros; assumption. }
  destruct (overlap_zero_or_positive o' O0' O1') as [Z | P].
  - pose proof (zero_of_leb _ _ O0 L Z) as Zo.
    destruct (add_zero_r 1 o PosFin_1 Zo) as [_ ->].
    destruct (add_zero_r 1 o' PosFin_1 Z) as [_ ->]. reflexivity.
  - exact (proj1 (one_minus_overlap_Between o o' O0 L O1' P)).
Qed.

Lemma positive_cases d : (0 <? d) = true -> PosFin d \/ d = infinity.
Proof.
  rewrite FloatAxioms.ltb_spec. change (Prim2SF 0) with (S754_zero false).
  pose proof (Prim2SF_valid d) as V. intros H.
  destruct (Prim2SF d) as [[]|[]| |[] m e] eqn:E; try discriminate.
  - right. apply Prim2SF_inj. rewrite E. reflexivity.
  - left. unfold PosFin. rewrite E. apply valid_SPosFin, V.
Qed.

End Binary64.

Import Binary64.

(** * The calculator on valid inputs *)

#[local] Open Scope Z_scope.

Lemma validInputs_spec i :
  validInputs i = true ->
  positive_finite (widthMm i) = true /\ positive_finite (lengthMm i) = true /\
  positive_finite (dpi i) = true /\
  positive_finite (sensorPx i) = true /\ JS.isInteger (sensorPx i) = true /\
  positive_finite (pixelPitchUm i) = true /\ positive_finite (wdMm i) = true /\
  positive_finite (speedMmS i) = true /\
  (0 <=? overlap i)%float = true /\ (overlap i <? 1)%float = true /\
  JS.isInteger (cameras i) = true /\ (0 <=? cameras i)%float = true.
Proof.
  unfold validInputs. rewrite !andb_true_iff. tauto.
Qed.

Lemma PosFin_mmPerInch : PosFin mmPerInch.
Proof. apply positive_finite_PosFin. reflexivity. Qed.

(** The numbers [calc] goes through up to [camsRequired], on valid inputs:
    none is negative or NaN, and the two factors built from [overlap] and
    [sensorPx] are positive and finite. *)
Lemma calc_chain i :
  validInputs i = true ->
  NonNeg (pixelSizeObjMm (calc i)) /\
  NonNeg (pxNeededAcross (calc i)) /\
  PosFin (1 + overlap i) /\
  NonNeg (pxNeededWithMargin (calc i)) /\
  PosFin (sensorPx i * (1 - overlap i)) /\
  NonNeg (camsQuotient i).
Proof.
  intros V. destruct (validInputs_spec i V)
    as (W & _ & D & S & SI & _ & _ & _ & O0 & O1 & _ & _).
  apply positive_finite_PosFin in W, D, S.
  assert (N1 : NonNeg (pixelSizeObjMm (calc i))).
  { unfold NonNeg. simpl. rewrite div_spec.
    apply (Rounds_SNonNeg _ _ (SFdiv_PosFin _ _ PosFin_mmPerInch D)). }
  assert (N2 : NonNeg (pxNeededAcross (calc i))).
  { unfold NonNeg. simpl. rewrite div_spec. apply SFdiv_NonNeg_r; assumption. }
  destruct (one_plus_overlap _ O0 O1) as (P3 & _).
  assert (N4 : NonNeg (pxNeededWithMargin (calc i))).
  { unfold NonNeg. simpl. rewrite mul_spec. apply SFmul_NonNeg_l; assumption. }
  pose proof (sensor_span_PosFin _ _ S SI O0 O1) as P5.
  repeat (split; [assumption|]).
  unfold NonNeg, camsQuotient. rewrite div_spec. apply SFdiv_NonNeg_l; assumption.
Qed.

(** On valid inputs the magnification is not negative (it can be 0,
    [Infinity] or NaN at the ends of the range of the format). *)
Lemma magnification_NotNeg i :
  validInputs i = true -> SNotNeg (Prim2SF (magnification (calc i))).
Proof.
  intros V. destruct (calc_chain i V) as (_ & _ & P3 & _ & _ & N6).
  destruct (validInputs_spec i V)
    as (W & _ & _ & S & _ & P & _ & _ & _ & _ & CI & C0).
  apply positive_finite_PosFin in W, S, P.
  assert (P1000 : PosFin 1000) by (apply positive_finite_PosFin; reflexivity).
  assert (Nsl : SNonNeg (Prim2SF (sensorLengthMm (calc i)))).
  { simpl. rewrite mul_spec, div_spec. apply SFmul_NonNeg_r; [exact S|].
    apply (Rounds_SNonNeg _ _ (SFdiv_PosFin _ _ P P1000)). }
  assert (Nt : SNonNeg (Prim2SF (widthMm i * (1 + overlap i)))).
  { rewrite mul_spec. apply (Rounds_SNonNeg _ _ (SFmul_PosFin _ _ W P3)). }
  assert (Ncu : SNonNeg (Prim2SF (JS.or (cameras i) (camsRequired (calc i))))).
  { unfold JS.or. destruct (JS.truthy (cameras i)) eqn:T.
    - unfold JS.truthy, is_zero, JS.isInteger in *.
      rewrite is_nan_spec, FloatAxioms.eqb_spec in T.
      rewrite FloatAxioms.leb_spec in C0.
      change (Prim2SF 0) with (S754_zero false) in C0.
      change (Prim2SF zero) with (S754_zero false) in T.
      pose proof (Prim2SF_valid (cameras i)) as Vc.
      destruct (Prim2SF (cameras i)) as [[]|[]| |[] m e]; try discriminate.
      right; left. apply valid_SPosFin, Vc.
    - apply Math_ceil_NonNeg, N6. }
  change (magnification (calc i))
    with (sensorLengthMm (calc i)
          / (widthMm i * (1 + overlap i) / JS.or (cameras i) (camsRequired (calc i))))%float.
  rewrite !div_spec.
  apply SFdiv_NotNeg; [right; exact Nsl|].
  apply SFdiv_NotNeg; right; assumption.
Qed.

#[local] Close Scope Z_scope.
#[local] Open Scope float_scope.

(** On valid inputs of a plausible order of magnitude the camera
    quotient is positive and the magnification stays in [2^-52, 2^51]. *)
Lemma plausible_chain i :
  validInputs i = true -> plausibleInputs i = true ->
  (0 <? camsQuotient i) = true /\
  Between 0x1p-52 0x1p51 (magnification (calc i)) /\
  Between 0x1p-900 0x1p900 (wdMm i).
Proof.
  intros V B.
  destruct (validInputs_spec i V)
    as (W & _ & D & S & SI & P & Wd & _ & O0 & O1 & CI & C0).
  unfold plausibleInputs in B. rewrite !andb_true_iff in B.
  destruct B as ((((((((((W1 & W2) & D1) & D2) & S2) & P1) & P2) & O2) & C2) & Wd1) & Wd2).
  pose proof (leb_of_integer _ S SI) as S1.
  assert (Bw : Between 0.1 1e5 (widthMm i)) by (split; assumption).
  assert (Bd : Between 1 1e5 (dpi i)) by (split; assumption).
  assert (Bs : Between 1 1e5 (sensorPx i)) by (split; assumption).
  assert (Bp : Between 0.1 100 (pixelPitchUm i)) by (split; assumption).
  assert (Bwd : Between 0.001 1e6 (wdMm i)) by (split; assumption).
  pose proof (Between_refl mmPerInch eq_refl) as Bk.
  pose proof (Between_refl 1000 eq_refl) as Bk'.
  interval_step div_Between Bk Bd Bps.
  interval_step div_Between Bw Bps BpxA.
  pose proof (one_plus_overlap_Between (overlap i) 0.5 O0 O2 eq_refl eq_refl) as Bc1.
  interval_step mul_Between BpxA Bc1 BpxM.
  pose proof (one_minus_overlap_Between (overlap i) 0.5 O0 O2 eq_refl eq_refl) as Bc2.
  interval_step mul_Between Bs Bc2 Bden.
  interval_step div_Between BpxM Bden Bq.
  change (widthMm i / (mmPerInch / dpi i) * (1 + overlap i)
          / (sensorPx i * (1 - overlap i))) with (camsQuotient i) in Bq.
  match type of Bq with
  | Between ?l ?h _ =>
      pose proof (Math_ceil_Between l h _ eq_refl eq_refl Bq) as Bcr
  end.
  change (JS.Math_ceil (camsQuotient i)) with (camsRequired (calc i)) in Bcr.
  match type of Bcr with
  | Between ?l ?h _ =>
      assert (Bcu : Between 1 h (JS.or (cameras i) (camsRequired (calc i))))
  end.
  { unfold JS.or. destruct (0 <? cameras i) eqn:Cp.
    - rewrite (truthy_positive _ Cp).
      assert (Pc : positive_finite (cameras i) = true).
      { apply PosFin_positive_finite.
        apply (between_PosFin 0x1p-1074 1e5); try assumption;
          try (apply positive_finite_PosFin; reflexivity).
        rewrite FloatAxioms.leb_spec, FloatAxioms.ltb_spec in *.
        change (Prim2SF 0) with (S754_zero false) in Cp.
        pose proof (Prim2SF_valid (cameras i)) as Vc.
        destruct (Prim2SF (cameras i)) as [[]|[]| |[] m e]; try discriminate;
          try reflexivity.
        apply (SFleb_PosFin (Prim2SF 0x1p-1074) _).
        - apply positive_finite_PosFin. reflexivity.
        - apply valid_SPosFin, Vc.
        - setoid_replace (JS.SF2Q (Prim2SF 0x1p-1074)) with (bpow (-1074)) by reflexivity.
          apply PosFin_ge_min, valid_SPosFin, Vc. }
      eapply (Between_widen 1 1e5); try reflexivity.
      split; [apply leb_of_integer; assumption | assumption].
    - rewrite (truthy_not_positive _ C0 Cp).
      eapply Between_widen; [| | | | | |exact Bcr]; reflexivity. }
  interval_step mul_Between Bw Bc1 Bt.
  interval_step div_Between Bt Bcu Bfov.
  interval_step div_Between Bp Bk' Bpm.
  interval_step mul_Between Bs Bpm Bsl.
  interval_step div_Between Bsl Bfov BM.
  split; [|split].
  - match type of Bq with
    | Between ?l ?h _ =>
        pose proof (Between_PosFin l h _ eq_refl eq_refl Bq) as Pq
    end.
    apply PosFin_positive_finite in Pq. unfold positive_finite in Pq.
    apply andb_true_iff in Pq. tauto.
  - eapply Between_widen; [| | | | | |exact BM]; reflexivity.
  - eapply Between_widen; [| | | | | |exact Bwd]; reflexivity.
Qed.

(** * The input resolver *)

Lemma ask_accepted validate typed v :
  ask validate typed = Some v -> validate v = Accepted.
Proof.
  induction typed as [|a rest IH]; simpl; [discriminate|].
  destruct (validate a) eqn:E; [|exact IH].
  intros H. injection H as <-. exact E.
Qed.

Lemma or_message_accepted ok message :
  or_message ok message = Accepted -> ok = true.
Proof. destruct ok; [reflexivity | discriminate]. Qed.

(** What the interactive path does check before calling [calc]: every
    answer is a number, positive where a positive one is asked for, in
    [0, 1[ for [overlap], not negative for [cameras]. *)
Lemma main_interactive_checked argv u inputs result :
  noFlags argv = true ->
  main argv u = Computed inputs result ->
  result = calc inputs /\
  (0 <? widthMm inputs) = true /\ (0 <? lengthMm inputs) = true /\
  (0 <? dpi inputs) = true /\ (0 <? sensorPx inputs) = true /\
  (0 <? pixelPitchUm inputs) = true /\ (0 <? wdMm inputs) = true /\
  (0 <? speedMmS inputs) = true /\
  ((0 <=? overlap inputs) = true /\ (overlap inputs <? 1) = true) /\
  (0 <=? cameras inputs) = true.
Proof.
  intros NF. unfold main. rewrite NF.
  destruct (pick_lang u) as [lang|]; [|discriminate].
  unfold prompts, bind.
  repeat match goal with
  | |- context [ask ?f ?l] =>
      let E := fresh "E" in
      destruct (ask f l) eqn:E; [apply ask_accepted in E | discriminate]
  end.
  intros H. injection H as <- <-. simpl.
  repeat match goal with
  | E : _ = Accepted |- _ =>
      apply or_message_accepted in E; rewrite ?andb_true_iff in E
  end.
  intuition.
Qed.

(** The prompt for the sensor pixels asks for a positive integer and
    accepts any positive number. *)
Lemma interactive_accepts_fractional_sensorPx :
  exists inputs,
    main argv_empty user_fractional_sensor = Computed inputs (calc inputs) /\
    sensorPx inputs = 8192.5 /\ validInputs inputs = false.
Proof. eexists. split; [reflexivity|]. split; reflexivity. Qed.

(** * The documented properties of [calc] and [main] *)

(** ** C1: the documented example *)

(** The result of the documented example, bit for bit. *)
Lemma example_result :
  calc example_inputs =
  {| pixelSizeObjMm := 0.1016;
     eqDpi := 250;
     pxNeededAcross := 11811.023622047245;
     pxNeededWithMargin := 13228.346456692916;
     usablePxPerCam := 8192;
     camsRequired := 2;
     fovPerCamMm := 672.00000000000011;
     sensorLengthMm := 57.344000000000001;
     magnification := 0.085333333333333317;
     focalLengthMm := 47.174447174447167;
     linePitchMm := 0.1016;
     linesNeeded := 11811.023622047245;
     lineRateHz := 1968.5039370078741 |}.
Proof. vm_compute. reflexivity. Qed.

(** C1: on the documented example, [calc] gives the documented figures:
    each figure shown rounded is within half a unit of its last digit,
    [camsRequired] is exactly 2, and [fovPerCamMm] and [sensorLengthMm]
    are 672 and 57.344 up to a relative error of 1e-9. *)
Theorem C1_documented_example :
  let r := calc example_inputs in
  near (pixelSizeObjMm r) 0.1016 0.00005 = true /\
  near (pxNeededAcross r) 11811 0.5 = true /\
  near (pxNeededWithMargin r) 13228 0.5 = true /\
  camsRequired r = 2 /\
  near (fovPerCamMm r) 672 (672 * 1e-9) = true /\
  near (sensorLengthMm r) 57.344 (57.344 * 1e-9) = true /\
  near (magnification r) 0.0853 0.00005 = true /\
  near (focalLengthMm r) 47.2 0.05 = true /\
  near (linePitchMm r) 0.102 0.0005 = true /\
  near (linesNeeded r) 11811 0.5 = true /\
  near (lineRateHz r) 1968.50 0.005 = true.
Proof. vm_compute. repeat split; reflexivity. Qed.

(** ** C2: validation before the calculator *)

(** C2 does not hold on the flag path: with [--dpi 0] on the command line
    [main] asks nothing and calls [calc] on inputs whose [dpi] is 0,
    whoever the user is.  The values of the flags are never validated;
    only the answers to the prompts are ([main_interactive_checked]). *)
Theorem C2_flag_value_reaches_calc_unvalidated (u : User) :
  exists inputs,
    main argv_dpi_zero u = Computed inputs (calc inputs) /\
    dpi inputs = 0 /\ validInputs inputs = false.
Proof.
  eexists. split; [reflexivity|]. split; reflexivity.
Qed.

(** ** C3: the ceiling property *)

(** C3 does not hold on overflow: these inputs satisfy the constraints,
    the quotient overflows, and [camsRequired] is [Infinity], which is no
    integer. *)
Lemma C3_overflow_counterexample :
  validInputs overflow_inputs = true /\
  camsRequired (calc overflow_inputs) = infinity /\
  JS.isInteger (camsRequired (calc overflow_inputs)) = false.
Proof. vm_compute. repeat split; reflexivity. Qed.

(** C3, overflow set apart: on valid inputs, either the quotient
    [pxNeededWithMargin / (sensorPx * (1 - overlap))] has overflowed and
    [camsRequired] is [Infinity] with it, or the quotient is finite and
    [camsRequired] is an integer [n] with [quotient <= n < quotient + 1],
    the comparisons being exact. *)
Theorem C3_ceiling_of_finite_quotient (i : Inputs) :
  validInputs i = true ->
  (camsQuotient i = infinity /\ camsRequired (calc i) = infinity) \/
  (is_finite (camsQuotient i) = true /\
   JS.isInteger (camsRequired (calc i)) = true /\
   exists n : Z,
     (JS.F2Q (camsRequired (calc i)) == inject_Z n)%Q /\
     (JS.F2Q (camsQuotient i) <= inject_Z n)%Q /\
     (inject_Z n < JS.F2Q (camsQuotient i) + 1)%Q).
Proof.
  intros V. destruct (calc_chain i V) as (_ & _ & _ & _ & _ & N).
  change (camsRequired (calc i)) with (JS.Math_ceil (camsQuotient i)).
  destruct (is_finite (camsQuotient i)) eqn:F.
  - right. destruct (Math_ceil_finite _ F) as (Fc & n & Vn & L & U).
    split; [reflexivity|]. split; [exact (isInteger_of_value _ n Fc Vn)|].
    exists n. auto.
  - left. rewrite (Math_ceil_not_finite _ F).
    assert (E : camsQuotient i = infinity).
    { apply Prim2SF_inj. rewrite is_finite_spec in F.
      destruct N as [Z | [(m & e & P & _) | I]].
      - rewrite Z in F. discriminate.
      - rewrite P in F. discriminate.
      - exact I. }
    auto.
Qed.

Lemma C3_ceiling_of_finite_quotient_witness :
  validInputs example_inputs = true /\
  ((camsQuotient example_inputs = infinity
    /\ camsRequired (calc example_inputs) = infinity) \/
   (is_finite (camsQuotient example_inputs) = true /\
    JS.isInteger (camsRequired (calc example_inputs)) = true /\
    exists n : Z,
      (JS.F2Q (camsRequired (calc example_inputs)) == inject_Z n)%Q /\
      (JS.F2Q (camsQuotient example_inputs) <= inject_Z n)%Q /\
      (inject_Z n < JS.F2Q (camsQuotient example_inputs) + 1)%Q)).
Proof.
  split; [reflexivity|].
  apply (C3_ceiling_of_finite_quotient example_inputs). reflexivity.
Defined.

(** ** C4: the camera count override *)

(** C4: on valid inputs every formula after the camera count uses
    [cameras] when it is positive and [camsRequired] when it is 0:
    [fovPerCamMm], [magnification] and [focalLengthMm] are computed from
    that count, and [camsRequired] itself does not depend on [cameras]. *)
Theorem C4_camsUsed_override (i : Inputs) :
  validInputs i = true ->
  let r := calc i in
  let camsUsed := if 0 <? cameras i then cameras i else camsRequired r in
  fovPerCamMm r = (widthMm i * (1 + overlap i)) / camsUsed /\
  magnification r = (sensorPx i * (pixelPitchUm i / 1000)) / fovPerCamMm r /\
  focalLengthMm r = (magnification r * wdMm i) / (1 + magnification r) /\
  forall c, camsRequired (calc (with_cameras c i)) = camsRequired r.
Proof.
  intros V r camsUsed.
  destruct (validInputs_spec i V) as (_ & _ & _ & _ & _ & _ & _ & _ & _ & _ & _ & C0).
  assert (E : JS.or (cameras i) (camsRequired r) = camsUsed).
  { unfold JS.or, camsUsed. destruct (0 <? cameras i) eqn:P.
    - rewrite (truthy_positive _ P). reflexivity.
    - rewrite (truthy_not_positive _ C0 P). reflexivity. }
  split; [|split; [|split]]; try reflexivity.
  unfold r at 1. simpl fovPerCamMm.
  change (JS.or (cameras i) _) with (JS.or (cameras i) (camsRequired r)).
  rewrite E. reflexivity.
Qed.

Lemma C4_camsUsed_override_witness :
  validInputs (with_cameras 3 example_inputs) = true /\
  fovPerCamMm (calc (with_cameras 3 example_inputs)) = (1200 * (1 + 0.12)) / 3 /\
  camsRequired (calc (with_cameras 3 example_inputs)) = 2.
Proof.
  split; [reflexivity|].
  destruct (C4_camsUsed_override (with_cameras 3 example_inputs) eq_refl)
    as (F & _ & _ & C).
  split; [exact F | reflexivity].
Defined.

(** ** C5: the density round trip *)

(** C5 does not hold for a tiny density: [dpi = 1e-310] is positive,
    [pixelSizeObjMm] overflows to [Infinity] and [eqDpi] comes back as 0. *)
Lemma C5_tiny_dpi_counterexample :
  validInputs tiny_dpi_inputs = true /\
  pixelSizeObjMm (calc tiny_dpi_inputs) = infinity /\
  eqDpi (calc tiny_dpi_inputs) = 0 /\
  rel_near (eqDpi (calc tiny_dpi_inputs)) (dpi tiny_dpi_inputs) 1e-9 = false.
Proof. vm_compute. repeat split; reflexivity. Qed.

(** Below [dpi_min] the pixel size overflows. *)
Lemma below_dpi_min d :
  PosFin d -> (dpi_min <=? d) = false -> mmPerInch / d = infinity.
Proof.
  intros Pd L.
  assert (PT : PosFin dpi_min) by (apply positive_finite_PosFin; reflexivity).
  assert (PT' : PosFin 0x1.9666666666666p-1020)
    by (apply positive_finite_PosFin; reflexivity).
  assert (G : grid 7149464408450662 (-1072)) by (unfold grid; lia).
  destruct (PosFin_gap d 7149464408450662 (-1072) Pd G ltac:(lia)) as [Le | Ge].
  - apply Prim2SF_inj. rewrite div_spec.
    change (Prim2SF infinity) with (S754_infinity false).
    apply SFleb_inf_l.
    + apply (Rounds_SNonNeg _ _ (SFdiv_PosFin _ _ PosFin_mmPerInch Pd)).
    + change (S754_infinity false)
        with (SFdiv prec emax (Prim2SF mmPerInch) (Prim2SF 0x1.9666666666666p-1020)).
      apply SFdiv_mono; try assumption; try exact PosFin_mmPerInch.
      * apply SFleb_refl. right; left. exact PosFin_mmPerInch.
      * apply (SFleb_PosFin _ _ Pd PT'). exact Le.
  - exfalso.
    assert (E : ((inject_Z 7149464408450662 + 1) * bpow (-1072) == JS.F2Q dpi_min)%Q)
      by reflexivity.
    rewrite E in Ge. apply (proj2 (leb_PosFin _ _ PT Pd)) in Ge. congruence.
Qed.

(** The only finite number above the last but one is the largest. *)
Lemma above_last_but_one d :
  PosFin d -> (d <=? 0x1.ffffffffffffep1023) = false -> d = Number_MAX_VALUE.
Proof.
  intros Pd L.
  assert (PM : PosFin Number_MAX_VALUE) by (apply positive_finite_PosFin; reflexivity).
  assert (PM' : PosFin 0x1.ffffffffffffep1023)
    by (apply positive_finite_PosFin; reflexivity).
  assert (G : grid 9007199254740990 971) by (unfold grid; lia).
  destruct (PosFin_gap d 9007199254740990 971 Pd G ltac:(lia)) as [Le | Ge].
  - exfalso.
    assert (E : (inject_Z 9007199254740990 * bpow 971 == JS.F2Q 0x1.ffffffffffffep1023)%Q)
      by reflexivity.
    rewrite E in Le. apply (proj2 (leb_PosFin _ _ Pd PM')) in Le. congruence.
  - apply Prim2SF_inj. apply SPosFin_inj; [exact Pd | exact PM |].
    pose proof (SPosFin_le_Qmax _ Pd) as U.
    assert (E : (JS.SF2Q (Prim2SF Number_MAX_VALUE) == Qmax)%Q) by reflexivity.
    assert (E' : ((inject_Z 9007199254740990 + 1) * bpow 971 == Qmax)%Q) by reflexivity.
    unfold JS.F2Q in Ge. rewrite E. rewrite E' in Ge. lra.
Qed.

(** From [dpi_min] to the last finite number but one, the two divisions
    stay in the normal range and the round trip is within two roundings. *)
Lemma round_trip_in_range d :
  PosFin d -> (dpi_min <=? d) = true -> (d <=? 0x1.ffffffffffffep1023) = true ->
  rel_near (mmPerInch / (mmPerInch / d)) d 1e-9 = true.
Proof.
  intros Pd Lo Hi.
  assert (Plo : PosFin dpi_min) by (apply positive_finite_PosFin; reflexivity).
  assert (Phi : PosFin 0x1.ffffffffffffep1023)
    by (apply positive_finite_PosFin; reflexivity).
  apply (leb_PosFin _ _ Plo Pd) in Lo. apply (leb_PosFin _ _ Pd Phi) in Hi.
  pose proof PosFin_mmPerInch as Pc.
  assert (C1 : (25 <= JS.F2Q mmPerInch)%Q) by qle_compute.
  assert (C2 : (JS.F2Q mmPerInch <= Qmax * JS.F2Q dpi_min)%Q) by qle_compute.
  assert (C3 : (2 * bpow (-1022) <= JS.F2Q dpi_min)%Q) by qle_compute.
  assert (C4 : (JS.F2Q 0x1.ffffffffffffep1023
                <= (1 - (1 # 9007199254740992)) * Qmax)%Q) by qle_compute.
  assert (C5 : (bpow (-1022) * Qmax <= 25)%Q) by qle_compute.
  assert (C6 : (JS.F2Q 0x1.ffffffffffffep1023 <= Qmax)%Q) by qle_compute.
  assert (Q0 : (0 < Qmax)%Q) by (pose proof (bpow_pos (-1022)); nra).
  set (c := JS.F2Q mmPerInch) in *. set (d' := JS.F2Q d) in *.
  set (T := JS.F2Q dpi_min) in *. set (P := JS.F2Q 0x1.ffffffffffffep1023) in *.
  pose proof (bpow_pos (-1022)) as Bm1022.
  assert (D0 : (0 < d')%Q) by lra.
  (* the pixel size *)
  set (p := mmPerInch / d).
  assert (W1 : (c / d' * d' == c)%Q) by (field; lra).
  set (w1 := (c / d')%Q) in *.
  assert (W1lo : (bpow (-1022) <= w1)%Q).
  { apply Qle_shift_div_l; [exact D0|].
    apply Qle_trans with (bpow (-1022) * Qmax)%Q; [|lra].
    apply Qmult_le_l; lra. }
  assert (W1hi : (w1 <= Qmax)%Q).
  { apply Qle_shift_div_r; [exact D0|].
    apply Qle_trans with (Qmax * T)%Q; [lra|].
    apply Qmult_le_l; lra. }
  destruct (div_accurate mmPerInch d Pc Pd W1lo W1hi) as (Pp & E1 & E2).
  fold c d' w1 p in Pp, E1, E2.
  set (vp := JS.F2Q p) in *.
  assert (U : (bpow (-53) == 1 # 9007199254740992)%Q) by reflexivity.
  rewrite U in E1, E2.
  assert (Vp0 : (0 < vp)%Q) by lra.
  (* the density back *)
  assert (W2 : (c / vp * vp == c)%Q) by (field; lra).
  set (w2 := (c / vp)%Q) in *.
  assert (W20 : (0 < w2)%Q) by (apply Qlt_shift_div_l; lra).
  assert (K1 : ((1 - (1 # 9007199254740992)) * w2 <= d')%Q).
  { apply (Qmult_le_r _ _ w1); [lra|].
    apply Qle_trans with (w2 * vp)%Q; [|rewrite W2, <- W1; lra].
    setoid_replace ((1 - (1 # 9007199254740992)) * w2 * w1)%Q
      with (w2 * ((1 - (1 # 9007199254740992)) * w1))%Q by ring.
    apply Qmult_le_l; lra. }
  assert (K2 : (d' <= (1 + (1 # 9007199254740992)) * w2)%Q).
  { apply (Qmult_le_r _ _ w1); [lra|].
    apply Qle_trans with (w2 * vp)%Q; [rewrite W2, <- W1; lra|].
    setoid_replace ((1 + (1 # 9007199254740992)) * w2 * w1)%Q
      with (w2 * ((1 + (1 # 9007199254740992)) * w1))%Q by ring.
    apply Qmult_le_l; lra. }
  destruct (div_accurate mmPerInch p Pc Pp) as (Pe & E3 & E4).
  { fold c vp w2. lra. }
  { fold c vp w2. lra. }
  fold c vp w2 in E3, E4. rewrite U in E3, E4.
  unfold rel_near. apply andb_true_iff. split; [exact (PosFin_is_finite _ Pe)|].
  apply Qle_bool_iff. fold d'. fold p.
  setoid_replace 1e-9%Q with (1 # 1000000000)%Q by reflexivity.
  rewrite (Qabs_pos d') by lra.
  apply (proj2 (Qabs_Qle_condition _ _)). split; lra.
Qed.

(** C5, with the exact threshold: for [dpi > 0], whatever the other
    inputs, the round trip holds exactly from
    [dpi_min = 1.412921900152073e-307] on: there, for a finite [dpi] up to
    the largest finite number included, [eqDpi] is finite and equals [dpi]
    within a relative error of 1e-9, and for [dpi = Infinity] it is
    [Infinity] too; below [dpi_min], [pixelSizeObjMm] has overflowed to
    [Infinity], [eqDpi] is 0 and the round trip fails. *)
Theorem C5_eqDpi_round_trip (i : Inputs) :
  (0 <? dpi i) = true ->
  if dpi_min <=? dpi i
  then (is_finite (dpi i) = true ->
        rel_near (eqDpi (calc i)) (dpi i) 1e-9 = true) /\
       (is_finite (dpi i) = false -> eqDpi (calc i) = dpi i)
  else pixelSizeObjMm (calc i) = infinity /\ eqDpi (calc i) = 0 /\
       rel_near (eqDpi (calc i)) (dpi i) 1e-9 = false.
Proof.
  intros D0.
  change (eqDpi (calc i)) with (mmPerInch / (mmPerInch / dpi i)).
  change (pixelSizeObjMm (calc i)) with (mmPerInch / dpi i).
  destruct (positive_cases _ D0) as [D | ->]; [|split; [discriminate | reflexivity]].
  rewrite (PosFin_is_finite _ D).
  destruct (dpi_min <=? dpi i) eqn:Lo.
  - split; [intros _ | discriminate].
    destruct (dpi i <=? 0x1.ffffffffffffep1023) eqn:Hi.
    + exact (round_trip_in_range _ D Lo Hi).
    + rewrite (above_last_but_one _ D Hi). reflexivity.
  - rewrite (below_dpi_min _ D Lo). split; [reflexivity|]. split; [reflexivity|].
    change (mmPerInch / infinity) with 0.
    unfold rel_near. apply andb_false_iff. right.
    apply not_true_is_false. intros H. apply Qle_bool_iff in H.
    pose proof (SPosFin_pos _ D) as Dp. fold (JS.F2Q (dpi i)) in Dp.
    set (d := JS.F2Q (dpi i)) in *.
    setoid_replace 1e-9%Q with (1 # 1000000000)%Q in H by reflexivity.
    setoid_replace (JS.F2Q 0) with 0%Q in H by reflexivity.
    rewrite (Qabs_pos d) in H by lra.
    setoid_replace (0 - d)%Q with (- d)%Q in H by ring.
    rewrite Qabs_opp, (Qabs_pos d) in H by lra. lra.
Qed.

Lemma C5_eqDpi_round_trip_witness :
  (0 <? dpi example_inputs) = true /\ is_finite (dpi example_inputs) = true /\
  rel_near (eqDpi (calc example_inputs)) (dpi example_inputs) 1e-9 = true.
Proof.
  split; [reflexivity|]. split; [reflexivity|].
  exact (proj1 (C5_eqDpi_round_trip example_inputs eq_refl) eq_refl).
Defined.

(** ** C6: no overlap *)

(** C6: with [overlap = 0] (the other inputs valid or not) the margin
    leaves the pixel count as it is and [camsRequired] is
    [Math.ceil(pxNeededAcross / sensorPx)], bit for bit. *)
Theorem C6_zero_overlap (i : Inputs) :
  (overlap i =? 0) = true ->
  pxNeededWithMargin (calc i) = pxNeededAcross (calc i) /\
  camsRequired (calc i) = JS.Math_ceil (pxNeededAcross (calc i) / sensorPx i).
Proof.
  intros O. destruct (add_zero_r 1 (overlap i) PosFin_1 O) as [A S].
  simpl. rewrite A, S, !mul_one_r. split; reflexivity.
Qed.

Lemma C6_zero_overlap_witness :
  validInputs zero_overlap_inputs = true /\
  (overlap zero_overlap_inputs =? 0) = true /\
  pxNeededWithMargin (calc zero_overlap_inputs)
  = pxNeededAcross (calc zero_overlap_inputs) /\
  camsRequired (calc zero_overlap_inputs)
  = JS.Math_ceil (pxNeededAcross (calc zero_overlap_inputs)
                  / sensorPx zero_overlap_inputs).
Proof.
  split; [reflexivity|]. split; [reflexivity|].
  apply (C6_zero_overlap zero_overlap_inputs). reflexivity.
Defined.

(** ** C7: monotonicity in the width *)

(** C7: widening the object, everything else kept, never lowers
    [pxNeededAcross], [pxNeededWithMargin] or [camsRequired]. *)
Theorem C7_monotone_in_widthMm (i : Inputs) (w' : float) :
  validInputs i = true -> validInputs (with_widthMm w' i) = true ->
  (widthMm i <=? w') = true ->
  (pxNeededAcross (calc i) <=? pxNeededAcross (calc (with_widthMm w' i))) = true /\
  (pxNeededWithMargin (calc i) <=? pxNeededWithMargin (calc (with_widthMm w' i))) = true /\
  (camsRequired (calc i) <=? camsRequired (calc (with_widthMm w' i))) = true.
Proof.
  intros V V' L.
  destruct (calc_chain i V) as (N1 & N2 & P3 & N4 & P5 & N6).
  destruct (calc_chain _ V') as (_ & N2' & _ & N4' & _ & N6').
  destruct (validInputs_spec i V) as (W & _).
  destruct (validInputs_spec _ V') as (W' & _).
  apply positive_finite_PosFin in W, W'. simpl in W'.
  assert (A : (pxNeededAcross (calc i)
               <=? pxNeededAcross (calc (with_widthMm w' i))) = true).
  { simpl. rewrite FloatAxioms.leb_spec, !div_spec.
    rewrite FloatAxioms.leb_spec in L.
    unfold NonNeg in N1. simpl in N1. rewrite div_spec in N1.
    apply SFdiv_mono_num; [exact W | exact W' | exact N1 | exact L]. }
  assert (B : (pxNeededWithMargin (calc i)
               <=? pxNeededWithMargin (calc (with_widthMm w' i))) = true).
  { change (pxNeededWithMargin (calc i))
      with (pxNeededAcross (calc i) * (1 + overlap i)).
    change (pxNeededWithMargin (calc (with_widthMm w' i)))
      with (pxNeededAcross (calc (with_widthMm w' i)) * (1 + overlap i)).
    rewrite FloatAxioms.leb_spec, !mul_spec.
    rewrite FloatAxioms.leb_spec in A.
    apply SFmul_mono_l; [exact N2 | exact N2' | exact P3 | exact A]. }
  split; [exact A|]. split; [exact B|].
  change (camsRequired (calc i)) with (JS.Math_ceil (camsQuotient i)).
  change (camsRequired (calc (with_widthMm w' i)))
    with (JS.Math_ceil (camsQuotient (with_widthMm w' i))).
  apply Math_ceil_mono; [assumption | assumption |].
  unfold camsQuotient. simpl sensorPx. simpl overlap.
  rewrite FloatAxioms.leb_spec, !div_spec.
  rewrite FloatAxioms.leb_spec in B.
  apply SFdiv_mono_l; [exact N4 | exact N4' | exact P5 | exact B].
Qed.

Lemma C7_monotone_in_widthMm_witness :
  let i := example_inputs in
  let i' := with_widthMm 2400 example_inputs in
  (pxNeededAcross (calc i) <=? pxNeededAcross (calc i')) = true /\
  (pxNeededWithMargin (calc i) <=? pxNeededWithMargin (calc i')) = true /\
  (camsRequired (calc i) <=? camsRequired (calc i')) = true.
Proof.
  apply (C7_monotone_in_widthMm example_inputs 2400); reflexivity.
Defined.

(** ** C9: at least one camera *)

(** C9 does not hold on underflow: these inputs satisfy the constraints,
    the pixel count underflows to 0, and [camsRequired] is 0. *)
Lemma C9_underflow_counterexample :
  validInputs underflow_inputs = true /\
  camsRequired (calc underflow_inputs) = 0 /\
  (1 <=? camsRequired (calc underflow_inputs)) = false.
Proof. vm_compute. repeat split; reflexivity. Qed.

(** C9, underflow set apart: on valid inputs, [camsRequired >= 1]
    whenever the quotient [pxNeededWithMargin / (sensorPx * (1 - overlap))]
    is positive, and otherwise the quotient has underflowed to 0 and
    [camsRequired] is 0; on valid inputs of a plausible order of magnitude
    ([plausibleInputs]) the quotient is positive and [camsRequired >= 1]. *)
Theorem C9_at_least_one_camera (i : Inputs) :
  validInputs i = true ->
  (if 0 <? camsQuotient i
   then (1 <=? camsRequired (calc i)) = true
   else camsQuotient i = 0 /\ camsRequired (calc i) = 0) /\
  (plausibleInputs i = true -> (1 <=? camsRequired (calc i)) = true).
Proof.
  intros V. destruct (calc_chain i V) as (_ & _ & _ & _ & _ & N).
  change (camsRequired (calc i)) with (JS.Math_ceil (camsQuotient i)).
  split.
  - destruct (0 <? camsQuotient i) eqn:P.
    + apply one_le_Math_ceil, P.
    + rewrite FloatAxioms.ltb_spec in P.
      change (Prim2SF 0) with (S754_zero false) in P.
      assert (E : camsQuotient i = 0).
      { apply Prim2SF_inj.
        destruct N as [Z | [(m & e & F & _) | I]].
        - exact Z.
        - rewrite F in P. discriminate.
        - rewrite I in P. discriminate. }
      rewrite E. split; reflexivity.
  - intros B. destruct (plausible_chain i V B) as (Q & _).
    exact (one_le_Math_ceil _ Q).
Qed.

Lemma C9_at_least_one_camera_witness :
  validInputs example_inputs = true /\ plausibleInputs example_inputs = true /\
  (1 <=? camsRequired (calc example_inputs)) = true.
Proof.
  split; [reflexivity|]. split; [reflexivity|].
  exact (proj2 (C9_at_least_one_camera example_inputs eq_refl) eq_refl).
Defined.

(** ** C10: the thin-lens formula *)

(** C10 does not hold for a huge magnification: these inputs satisfy the
    constraints, the magnification is [2^60], [1 + magnification] rounds
    to [magnification] and [focalLengthMm] equals [wdMm] instead of lying
    below it. *)
Lemma C10_huge_magnification_counterexample :
  validInputs huge_magnification_inputs = true /\
  magnification (calc huge_magnification_inputs) = 0x1p60 /\
  1 + magnification (calc huge_magnification_inputs)
  = magnification (calc huge_magnification_inputs) /\
  focalLengthMm (calc huge_magnification_inputs) = wdMm huge_magnification_inputs /\
  (focalLengthMm (calc huge_magnification_inputs)
   <? wdMm huge_magnification_inputs) = false.
Proof. vm_compute. repeat split; reflexivity. Qed.

(** C10, within the precision of the format: on valid inputs the
    magnification is never negative and [1 + magnification] is never zero
    or negative, so the [magnification = -1] degeneracy is out of reach;
    when the magnification lies in [2^-52, 2^51] and [wdMm] in
    [2^-900, 2^900], the magnification is positive, [1 + magnification] is
    above 1 and [0 < focalLengthMm < wdMm]; and valid inputs of a plausible
    order of magnitude ([plausibleInputs]) are in that case. *)
Theorem C10_thin_lens_in_range (i : Inputs) :
  validInputs i = true ->
  (magnification (calc i) <? 0) = false /\
  (1 + magnification (calc i) <=? 0) = false /\
  (Between 0x1p-52 0x1p51 (magnification (calc i)) ->
   Between 0x1p-900 0x1p900 (wdMm i) ->
   (0 <? magnification (calc i)) = true /\
   (1 <? 1 + magnification (calc i)) = true /\
   (0 <? focalLengthMm (calc i)) = true /\
   (focalLengthMm (calc i) <? wdMm i) = true) /\
  (plausibleInputs i = true ->
   (0 <? magnification (calc i)) = true /\
   (1 <? 1 + magnification (calc i)) = true /\
   (0 <? focalLengthMm (calc i)) = true /\
   (focalLengthMm (calc i) <? wdMm i) = true).
Proof.
  intros V. pose proof (magnification_NotNeg i V) as N.
  split; [exact (NotNeg_not_lt _ N)|].
  split; [exact (one_plus_NotNeg _ N)|].
  split.
  - intros [M1 M2] [W1 W2].
    exact (thin_lens_bounds (magnification (calc i)) (wdMm i) M1 M2 W1 W2).
  - intros B. destruct (plausible_chain i V B) as (_ & [M1 M2] & [W1 W2]).
    exact (thin_lens_bounds (magnification (calc i)) (wdMm i) M1 M2 W1 W2).
Qed.

Lemma C10_thin_lens_in_range_witness :
  validInputs example_inputs = true /\ plausibleInputs example_inputs = true /\
  (0 <? magnification (calc example_inputs)) = true /\
  (1 <? 1 + magnification (calc example_inputs)) = true /\
  (0 <? focalLengthMm (calc example_inputs)) = true /\
  (focalLengthMm (calc example_inputs) <? wdMm example_inputs) = true.
Proof.
  split; [reflexivity|]. split; [reflexivity|].
  exact (proj2 (proj2 (proj2 (C10_thin_lens_in_range example_inputs eq_refl))) eq_refl).
Defined.

(** * Further properties of the calculator *)

(** [25.4 / dpi] never rounds to zero. *)
Lemma pixelSize_positive d : PosFin d -> (0 <? mmPerInch / d) = true.
Proof.
  intros Pd. rewrite FloatAxioms.ltb_spec, div_spec.
  change (Prim2SF 0) with (S754_zero false).
  apply SFdiv_not_zero; [exact PosFin_mmPerInch | exact Pd |].
  pose proof (SPosFin_le_Qmax _ Pd) as U. pose proof (SPosFin_pos _ Pd) as D0.
  assert (C1 : (25 <= JS.SF2Q (Prim2SF mmPerInch))%Q) by qle_compute.
  assert (C2 : (bpow (-1022) * Qmax <= 25)%Q) by qle_compute.
  apply Qle_shift_div_l; [exact D0|].
  apply Qle_trans with (bpow (-1022) * Qmax)%Q; [|lra].
  apply Qmult_le_l; [apply bpow_pos | exact U].
Qed.

(** The last three numbers of [calc] on valid inputs are not negative
    (NaN is not excluded). *)
Lemma calc_tail_NotNeg i :
  validInputs i = true ->
  SNotNeg (Prim2SF (fovPerCamMm (calc i))) /\
  SNotNeg (Prim2SF (magnification (calc i))) /\
  SNotNeg (Prim2SF (focalLengthMm (calc i))).
Proof.
  intros V. pose proof (magnification_NotNeg i V) as NM.
  destruct (calc_chain i V) as (_ & _ & P3 & _ & _ & N6).
  destruct (validInputs_spec i V)
    as (W & _ & _ & _ & _ & _ & Wd & _ & _ & _ & CI & C0).
  apply positive_finite_PosFin in W, Wd.
  split; [|split; [exact NM|]].
  - assert (Nt : SNonNeg (Prim2SF (widthMm i * (1 + overlap i)))).
    { rewrite mul_spec. apply (Rounds_SNonNeg _ _ (SFmul_PosFin _ _ W P3)). }
    assert (Ncu : SNonNeg (Prim2SF (JS.or (cameras i) (camsRequired (calc i))))).
    { unfold JS.or. destruct (JS.truthy (cameras i)) eqn:T.
      - unfold JS.truthy, is_zero in T.
        rewrite is_nan_spec, FloatAxioms.eqb_spec in T.
        rewrite FloatAxioms.leb_spec in C0.
        change (Prim2SF 0) with (S754_zero false) in C0.
        change (Prim2SF zero) with (S754_zero false) in T.
        pose proof (Prim2SF_valid (cameras i)) as Vc.
        destruct (Prim2SF (cameras i)) as [[]|[]| |[] m e]; try discriminate.
        + right; right. reflexivity.
        + right; left. apply valid_SPosFin, Vc.
      - apply Math_ceil_NonNeg, N6. }
    change (fovPerCamMm (calc i))
      with (widthMm i * (1 + overlap i) / JS.or (cameras i) (camsRequired (calc i)))%float.
    rewrite div_spec. apply SFdiv_NotNeg; right; assumption.
  - change (focalLengthMm (calc i))
      with (magnification (calc i) * wdMm i / (1 + magnification (calc i)))%float.
    rewrite div_spec, mul_spec, add_spec.
    apply SFdiv_NotNeg.
    + apply SFmul_NotNeg_l; assumption.
    + apply SFadd_one_NotNeg; assumption.
Qed.

(** ** Signs and divisors *)

(** X1: on valid inputs the divisors of the first formulas are strictly
    positive: [pixelSizeObjMm] (the divisor of [pxNeededAcross], [eqDpi],
    [linesNeeded] and [lineRateHz]) never rounds to zero, and [1 + overlap]
    and [sensorPx * (1 - overlap)] (the divisor under [camsRequired]) are
    positive and finite, however close to 1 the overlap is. *)
Theorem calc_divisors_positive (i : Inputs) :
  validInputs i = true ->
  (0 <? pixelSizeObjMm (calc i)) = true /\
  (0 <? linePitchMm (calc i)) = true /\
  positive_finite (1 + overlap i) = true /\
  positive_finite (sensorPx i * (1 - overlap i)) = true.
Proof.
  intros V. destruct (calc_chain i V) as (_ & _ & P3 & _ & P5 & _).
  destruct (validInputs_spec i V) as (_ & _ & D & _).
  apply positive_finite_PosFin in D.
  split; [exact (pixelSize_positive _ D)|].
  split; [exact (pixelSize_positive _ D)|].
  split; apply PosFin_positive_finite; assumption.
Qed.

Lemma calc_divisors_positive_witness :
  validInputs example_inputs = true /\
  (0 <? pixelSizeObjMm (calc example_inputs)) = true /\
  (0 <? linePitchMm (calc example_inputs)) = true /\
  positive_finite (1 + overlap example_inputs) = true /\
  positive_finite (sensorPx example_inputs * (1 - overlap example_inputs)) = true.
Proof.
  split; [reflexivity|]. apply (calc_divisors_positive example_inputs). reflexivity.
Defined.

(** X2: on valid inputs no output of [calc] is negative.  Ten of them
    compare [>= 0] (so they are not NaN either); [fovPerCamMm],
    [magnification] and [focalLengthMm], which divide by numbers that can
    overflow, are never below 0. *)
Theorem calc_outputs_not_negative (i : Inputs) :
  validInputs i = true ->
  let r := calc i in
  (0 <=? pixelSizeObjMm r) = true /\ (0 <=? eqDpi r) = true /\
  (0 <=? pxNeededAcross r) = true /\ (0 <=? pxNeededWithMargin r) = true /\
  (0 <=? usablePxPerCam r) = true /\ (0 <=? camsRequired r) = true /\
  (0 <=? sensorLengthMm r) = true /\ (0 <=? linePitchMm r) = true /\
  (0 <=? linesNeeded r) = true /\ (0 <=? lineRateHz r) = true /\
  (fovPerCamMm r <? 0) = false /\ (magnification r <? 0) = false /\
  (focalLengthMm r <? 0) = false.
Proof.
  intros V r. destruct (calc_chain i V) as (N1 & N2 & P3 & N4 & P5 & N6).
  destruct (calc_tail_NotNeg i V) as (T1 & T2 & T3).
  destruct (validInputs_spec i V)
    as (W & L & D & S & SI & P & Wd & Sp & _).
  apply positive_finite_PosFin in W, L, D, S, P, Wd, Sp.
  assert (P1000 : PosFin 1000) by (apply positive_finite_PosFin; reflexivity).
  assert (Nsl : NonNeg (sensorLengthMm r)).
  { unfold NonNeg. simpl. rewrite mul_spec, div_spec. apply SFmul_NonNeg_r; [exact S|].
    apply (Rounds_SNonNeg _ _ (SFdiv_PosFin _ _ P P1000)). }
  assert (Ne : NonNeg (eqDpi r)).
  { unfold NonNeg. change (eqDpi r) with (mmPerInch / pixelSizeObjMm (calc i)).
    rewrite div_spec. apply SFdiv_NonNeg_r; [exact PosFin_mmPerInch | exact N1]. }
  assert (Nl : NonNeg (linesNeeded r)).
  { unfold NonNeg. change (linesNeeded r) with (lengthMm i / pixelSizeObjMm (calc i)).
    rewrite div_spec. apply SFdiv_NonNeg_r; [exact L | exact N1]. }
  assert (Nr : NonNeg (lineRateHz r)).
  { unfold NonNeg. change (lineRateHz r) with (speedMmS i / pixelSizeObjMm (calc i)).
    rewrite div_spec. apply SFdiv_NonNeg_r; [exact Sp | exact N1]. }
  assert (Nu : NonNeg (usablePxPerCam r)) by (right; left; exact S).
  pose proof (Math_ceil_NonNeg _ N6) as Nc.
  repeat (split; [apply NonNeg_zero_leb; assumption|]).
  split; [exact (NotNeg_not_lt _ T1)|].
  split; [exact (NotNeg_not_lt _ T2) | exact (NotNeg_not_lt _ T3)].
Qed.

Lemma calc_outputs_not_negative_witness :
  (0 <=? camsRequired (calc example_inputs)) = true /\
  (focalLengthMm (calc example_inputs) <? 0) = false.
Proof.
  pose proof (calc_outputs_not_negative example_inputs eq_refl) as H.
  cbv zeta in H. split; [apply H | apply H].
Defined.

(** ** Monotonicity in the other inputs *)

(** X3: a finer sampling never lowers a requirement.  Raising [dpi],
    everything else kept, never raises [pixelSizeObjMm] and never lowers
    [eqDpi], [pxNeededAcross], [pxNeededWithMargin], [camsRequired],
    [linesNeeded] or [lineRateHz]. *)
Theorem calc_monotone_in_dpi (i : Inputs) (d' : float) :
  validInputs i = true -> validInputs (with_dpi d' i) = true ->
  (dpi i <=? d') = true ->
  let r := calc i in
  let r' := calc (with_dpi d' i) in
  (pixelSizeObjMm r' <=? pixelSizeObjMm r) = true /\
  (eqDpi r <=? eqDpi r') = true /\
  (pxNeededAcross r <=? pxNeededAcross r') = true /\
  (pxNeededWithMargin r <=? pxNeededWithMargin r') = true /\
  (camsRequired r <=? camsRequired r') = true /\
  (linesNeeded r <=? linesNeeded r') = true /\
  (lineRateHz r <=? lineRateHz r') = true.
Proof.
  intros V V' L r r'.
  destruct (calc_chain i V) as (N1 & N2 & P3 & N4 & P5 & N6).
  destruct (calc_chain _ V') as (N1' & N2' & _ & N4' & _ & N6').
  destruct (validInputs_spec i V) as (W & Le & D & _ & _ & _ & _ & Sp & _).
  destruct (validInputs_spec _ V') as (_ & _ & D' & _).
  apply positive_finite_PosFin in W, Le, D, D', Sp. simpl in D'.
  pose proof PosFin_mmPerInch as K.
  assert (A : (pixelSizeObjMm r' <=? pixelSizeObjMm r) = true).
  { simpl. rewrite FloatAxioms.leb_spec, !div_spec.
    rewrite FloatAxioms.leb_spec in L.
    apply SFdiv_mono; try assumption. apply SFleb_refl. right; left; exact K. }
  pose proof A as A'. rewrite FloatAxioms.leb_spec in A'.
  assert (Q : forall x, PosFin x ->
            (x / pixelSizeObjMm r <=? x / pixelSizeObjMm r') = true).
  { intros x Px. rewrite FloatAxioms.leb_spec, !div_spec.
    apply SFdiv_anti_den; assumption. }
  assert (B : (pxNeededAcross r <=? pxNeededAcross r') = true) by exact (Q _ W).
  assert (C : (pxNeededWithMargin r <=? pxNeededWithMargin r') = true).
  { change (pxNeededWithMargin r) with (pxNeededAcross r * (1 + overlap i)).
    change (pxNeededWithMargin r') with (pxNeededAcross r' * (1 + overlap i)).
    rewrite FloatAxioms.leb_spec, !mul_spec. rewrite FloatAxioms.leb_spec in B.
    apply SFmul_mono_l; assumption. }
  split; [exact A|]. split; [exact (Q _ K)|]. split; [exact B|]. split; [exact C|].
  split; [|split; [exact (Q _ Le) | exact (Q _ Sp)]].
  change (camsRequired r) with (JS.Math_ceil (camsQuotient i)).
  change (camsRequired r') with (JS.Math_ceil (camsQuotient (with_dpi d' i))).
  apply Math_ceil_mono; [assumption | assumption |].
  unfold camsQuotient. simpl sensorPx. simpl overlap.
  rewrite FloatAxioms.leb_spec, !div_spec. rewrite FloatAxioms.leb_spec in C.
  apply SFdiv_mono_l; assumption.
Qed.

Lemma calc_monotone_in_dpi_witness :
  let r := calc example_inputs in
  let r' := calc (with_dpi 300 example_inputs) in
  (pixelSizeObjMm r' <=? pixelSizeObjMm r) = true /\
  (eqDpi r <=? eqDpi r') = true /\
  (pxNeededAcross r <=? pxNeededAcross r') = true /\
  (pxNeededWithMargin r <=? pxNeededWithMargin r') = true /\
  (camsRequired r <=? camsRequired r') = true /\
  (linesNeeded r <=? linesNeeded r') = true /\
  (lineRateHz r <=? lineRateHz r') = true.
Proof.
  apply (calc_monotone_in_dpi example_inputs 300); reflexivity.
Defined.

(** X4: a longer sensor never needs more cameras.  Raising [sensorPx],
    everything else kept, never raises [camsRequired] and never lowers
    [sensorLengthMm]. *)
Theorem calc_monotone_in_sensorPx (i : Inputs) (s' : float) :
  validInputs i = true -> validInputs (with_sensorPx s' i) = true ->
  (sensorPx i <=? s') = true ->
  (camsRequired (calc (with_sensorPx s' i)) <=? camsRequired (calc i)) = true /\
  (sensorLengthMm (calc i) <=? sensorLengthMm (calc (with_sensorPx s' i))) = true.
Proof.
  intros V V' L.
  destruct (calc_chain i V) as (N1 & N2 & P3 & N4 & P5 & N6).
  destruct (calc_chain _ V') as (_ & _ & _ & _ & P5' & N6').
  destruct (validInputs_spec i V)
    as (_ & _ & _ & S & _ & P & _ & _ & O0 & O1 & _).
  destruct (validInputs_spec _ V') as (_ & _ & _ & S' & _).
  apply positive_finite_PosFin in S, S', P. simpl in S', P5'.
  destruct (one_minus_overlap _ O0 O1) as [Pm _].
  rewrite FloatAxioms.leb_spec in L.
  split.
  - change (camsRequired (calc i)) with (JS.Math_ceil (camsQuotient i)).
    change (camsRequired (calc (with_sensorPx s' i)))
      with (JS.Math_ceil (camsQuotient (with_sensorPx s' i))).
    apply Math_ceil_mono; [assumption | assumption |].
    unfold camsQuotient.
    change (pxNeededWithMargin (calc (with_sensorPx s' i)))
      with (pxNeededWithMargin (calc i)).
    simpl sensorPx. simpl overlap.
    rewrite FloatAxioms.leb_spec, !div_spec.
    apply SFdiv_anti_den_l; try assumption.
    rewrite !mul_spec. apply SFmul_mono; try assumption.
    apply SFleb_refl. right; left; exact Pm.
  - simpl. rewrite FloatAxioms.leb_spec, !mul_spec, !div_spec.
    apply SFmul_mono_PosFin_l; try assumption.
    assert (P1000 : PosFin 1000) by (apply positive_finite_PosFin; reflexivity).
    apply (Rounds_SNonNeg _ _ (SFdiv_PosFin _ _ P P1000)).
Qed.

Lemma calc_monotone_in_sensorPx_witness :
  (camsRequired (calc (with_sensorPx 16384 example_inputs))
   <=? camsRequired (calc example_inputs)) = true /\
  (sensorLengthMm (calc example_inputs)
   <=? sensorLengthMm (calc (with_sensorPx 16384 example_inputs))) = true.
Proof.
  apply (calc_monotone_in_sensorPx example_inputs 16384); reflexivity.
Defined.

(** X5: more overlap never needs fewer cameras.  Raising [overlap],
    everything else kept, never lowers [pxNeededWithMargin] or
    [camsRequired]. *)
Theorem calc_monotone_in_overlap (i : Inputs) (o' : float) :
  validInputs i = true -> validInputs (with_overlap o' i) = true ->
  (overlap i <=? o') = true ->
  (pxNeededWithMargin (calc i) <=? pxNeededWithMargin (calc (with_overlap o' i))) = true /\
  (camsRequired (calc i) <=? camsRequired (calc (with_overlap o' i))) = true.
Proof.
  intros V V' L.
  destruct (calc_chain i V) as (N1 & N2 & P3 & N4 & P5 & N6).
  destruct (calc_chain _ V') as (_ & _ & P3' & N4' & P5' & N6').
  destruct (validInputs_spec i V)
    as (_ & _ & _ & S & _ & _ & _ & _ & O0 & O1 & _).
  destruct (validInputs_spec _ V')
    as (_ & _ & _ & _ & _ & _ & _ & _ & O0' & O1' & _).
  apply positive_finite_PosFin in S. simpl in P3', P5', O0', O1'.
  destruct (one_minus_overlap _ O0 O1) as [Pm _].
  destruct (one_minus_overlap _ O0' O1') as [Pm' _].
  pose proof (one_plus_overlap_mono _ _ O0 L O1') as Lp.
  pose proof (one_minus_overlap_anti _ _ O0 L O1') as Lm.
  rewrite FloatAxioms.leb_spec in Lp, Lm.
  assert (B : (pxNeededWithMargin (calc i)
               <=? pxNeededWithMargin (calc (with_overlap o' i))) = true).
  { change (pxNeededWithMargin (calc i))
      with (pxNeededAcross (calc i) * (1 + overlap i)).
    change (pxNeededWithMargin (calc (with_overlap o' i)))
      with (pxNeededAcross (calc i) * (1 + o')).
    rewrite FloatAxioms.leb_spec, !mul_spec.
    apply SFmul_mono_r; assumption. }
  split; [exact B|].
  change (camsRequired (calc i)) with (JS.Math_ceil (camsQuotient i)).
  change (camsRequired (calc (with_overlap o' i)))
    with (JS.Math_ceil (camsQuotient (with_overlap o' i))).
  apply Math_ceil_mono; [assumption | assumption |].
  unfold camsQuotient. simpl sensorPx. simpl overlap.
  rewrite FloatAxioms.leb_spec in B |- *. rewrite !div_spec.
  assert (Ld : SFleb (Prim2SF (sensorPx i * (1 - o')))
                     (Prim2SF (sensorPx i * (1 - overlap i))) = true).
  { rewrite !mul_spec. apply SFmul_mono; try assumption.
    apply SFleb_refl. right; left; exact S. }
  apply SFleb_trans
    with (SFdiv prec emax (Prim2SF (pxNeededWithMargin (calc (with_overlap o' i))))
                          (Prim2SF (sensorPx i * (1 - overlap i)))).
  - unfold NonNeg, camsQuotient in N6. rewrite div_spec in N6. exact N6.
  - apply SFdiv_NonNeg_l; assumption.
  - unfold NonNeg, camsQuotient in N6'. simpl sensorPx in N6'. simpl overlap in N6'.
    rewrite div_spec in N6'. exact N6'.
  - apply SFdiv_mono_l; assumption.
  - apply SFdiv_anti_den_l; assumption.
Qed.

Lemma calc_monotone_in_overlap_witness :
  (pxNeededWithMargin (calc example_inputs)
   <=? pxNeededWithMargin (calc (with_overlap 0.5 example_inputs))) = true /\
  (camsRequired (calc example_inputs)
   <=? camsRequired (calc (with_overlap 0.5 example_inputs))) = true.
Proof.
  apply (calc_monotone_in_overlap example_inputs 0.5); reflexivity.
Defined.

(** X6: a longer object never needs fewer lines and a faster traverse
    never a lower line rate.  Raising [lengthMm] never lowers
    [linesNeeded], raising [speedMmS] never lowers [lineRateHz], and
    neither changes the number of cameras required. *)
Theorem calc_monotone_in_travel (i : Inputs) (l' s' : float) :
  validInputs i = true ->
  validInputs (with_lengthMm l' i) = true -> (lengthMm i <=? l') = true ->
  validInputs (with_speedMmS s' i) = true -> (speedMmS i <=? s') = true ->
  (linesNeeded (calc i) <=? linesNeeded (calc (with_lengthMm l' i))) = true /\
  (lineRateHz (calc i) <=? lineRateHz (calc (with_speedMmS s' i))) = true /\
  camsRequired (calc (with_lengthMm l' i)) = camsRequired (calc i) /\
  camsRequired (calc (with_speedMmS s' i)) = camsRequired (calc i).
Proof.
  intros V Vl Ll Vs Ls.
  destruct (calc_chain i V) as (N1 & _).
  destruct (validInputs_spec i V) as (_ & L & _ & _ & _ & _ & _ & Sp & _).
  destruct (validInputs_spec _ Vl) as (_ & L' & _).
  destruct (validInputs_spec _ Vs) as (_ & _ & _ & _ & _ & _ & _ & Sp' & _).
  apply positive_finite_PosFin in L, L', Sp, Sp'. simpl in L', Sp'.
  rewrite FloatAxioms.leb_spec in Ll, Ls.
  split; [|split; [|split; reflexivity]].
  - change (linesNeeded (calc i)) with (lengthMm i / pixelSizeObjMm (calc i)).
    change (linesNeeded (calc (with_lengthMm l' i))) with (l' / pixelSizeObjMm (calc i)).
    rewrite FloatAxioms.leb_spec, !div_spec. apply SFdiv_mono_num; assumption.
  - change (lineRateHz (calc i)) with (speedMmS i / pixelSizeObjMm (calc i)).
    change (lineRateHz (calc (with_speedMmS s' i))) with (s' / pixelSizeObjMm (calc i)).
    rewrite FloatAxioms.leb_spec, !div_spec. apply SFdiv_mono_num; assumption.
Qed.

Lemma calc_monotone_in_travel_witness :
  (linesNeeded (calc example_inputs)
   <=? linesNeeded (calc (with_lengthMm 2400 example_inputs))) = true /\
  (lineRateHz (calc example_inputs)
   <=? lineRateHz (calc (with_speedMmS 400 example_inputs))) = true /\
  camsRequired (calc (with_lengthMm 2400 example_inputs))
  = camsRequired (calc example_inputs) /\
  camsRequired (calc (with_speedMmS 400 example_inputs))
  = camsRequired (calc example_inputs).
Proof.
  apply (calc_monotone_in_travel example_inputs 2400 400); reflexivity.
Defined.

(** X7: more cameras, narrower fields.  When a camera count is given
    ([cameras > 0]), raising it, everything else kept, never widens
    [fovPerCamMm]. *)
Theorem calc_fov_antitone_in_cameras (i : Inputs) (c' : float) :
  validInputs i = true -> validInputs (with_cameras c' i) = true ->
  (0 <? cameras i) = true -> (cameras i <=? c') = true ->
  (fovPerCamMm (calc (with_cameras c' i)) <=? fovPerCamMm (calc i)) = true.
Proof.
  intros V V' C0 L.
  destruct (calc_chain i V) as (_ & _ & P3 & _).
  destruct (validInputs_spec i V)
    as (W & _ & _ & _ & _ & _ & _ & _ & _ & _ & CI & _).
  destruct (validInputs_spec _ V')
    as (_ & _ & _ & _ & _ & _ & _ & _ & _ & _ & CI' & _).
  simpl in CI'. apply positive_finite_PosFin in W.
  pose proof (integer_pos_PosFin _ CI C0) as Pc.
  assert (C0' : (0 <? c') = true).
  { revert L CI'. unfold JS.isInteger.
    rewrite FloatAxioms.leb_spec, FloatAxioms.ltb_spec.
    change (Prim2SF 0) with (S754_zero false).
    destruct Pc as (m & e & -> & _).
    destruct (Prim2SF c') as [[]|[]| |[] m' e']; try discriminate; reflexivity. }
  pose proof (integer_pos_PosFin _ CI' C0') as Pc'.
  change (fovPerCamMm (calc i))
    with (widthMm i * (1 + overlap i) / JS.or (cameras i) (camsRequired (calc i))).
  change (fovPerCamMm (calc (with_cameras c' i)))
    with (widthMm i * (1 + overlap i) / JS.or c' (camsRequired (calc i))).
  unfold JS.or. rewrite (truthy_positive _ C0), (truthy_positive _ C0').
  rewrite FloatAxioms.leb_spec in L |- *. rewrite !div_spec.
  apply SFdiv_anti_den_l; try assumption.
  rewrite mul_spec. apply (Rounds_SNonNeg _ _ (SFmul_PosFin _ _ W P3)).
Qed.

Lemma calc_fov_antitone_in_cameras_witness :
  (fovPerCamMm (calc (with_cameras 3 example_inputs))
   <=? fovPerCamMm (calc example_inputs)) = true.
Proof.
  apply (calc_fov_antitone_in_cameras example_inputs 3); reflexivity.
Defined.

(** ** The camera count given *)

(** X8: a camera count that is falsy means no camera count.  With
    [cameras] equal to [0], [-0] or [NaN] (the last is what an unreadable
    [--cameras] flag gives) [calc] returns, bit for bit, what it returns
    for [cameras = 0]: every formula falls back to [camsRequired]. *)
Theorem calc_cameras_falsy (i : Inputs) :
  (cameras i =? 0) = true \/ is_nan (cameras i) = true ->
  calc i = calc (with_cameras 0 i).
Proof.
  intros H.
  assert (T : JS.truthy (cameras i) = false).
  { unfold JS.truthy, is_zero. change zero with 0.
    destruct H as [-> | ->]; [reflexivity | apply negb_false_iff, orb_true_r]. }
  unfold calc, JS.or. simpl. rewrite T. reflexivity.
Qed.

Lemma calc_cameras_falsy_witness :
  calc (with_cameras nan example_inputs) = calc (with_cameras 0 example_inputs).
Proof.
  apply (calc_cameras_falsy (with_cameras nan example_inputs)).
  right. reflexivity.
Defined.

(** ** Inputs of a plausible order of magnitude *)

Ltac widen B := eapply Between_widen; [| | | | | |exact B]; reflexivity.

Lemma Between_plain lo hi x :
  positive_finite lo = true -> positive_finite hi = true -> (hi <? 1e21) = true ->
  Between lo hi x -> plainNumber x = true.
Proof.
  intros Pl Ph H B. pose proof (Between_PosFin _ _ _ Pl Ph B) as Px.
  unfold plainNumber. rewrite (PosFin_positive_finite _ Px). simpl.
  destruct B as [_ B2]. apply positive_finite_PosFin in Ph.
  assert (P21 : PosFin 1e21) by (apply positive_finite_PosFin; reflexivity).
  apply (leb_PosFin _ _ Px Ph) in B2. apply (ltb_PosFin _ _ Ph P21) in H.
  apply (ltb_PosFin _ _ Px P21). lra.
Qed.

(** The numbers [calc] goes through on valid inputs of a plausible order
    of magnitude. *)
Lemma plausible_intervals i :
  validInputs i = true -> plausibleInputs i = true ->
  Between 0x1p-12 0x1p5 (pixelSizeObjMm (calc i)) /\
  Between 0x1p-1 0x1p17 (eqDpi (calc i)) /\
  Between 0x1p-9 0x1p29 (pxNeededAcross (calc i)) /\
  Between 0x1p-9 0x1p30 (pxNeededWithMargin (calc i)) /\
  Between 0x1p-1 0x1p17 (sensorPx i * (1 - overlap i)) /\
  Between 0x1p-26 0x1p31 (camsQuotient i) /\
  Between 1 0x1p31 (camsRequired (calc i)) /\
  Between 0x1p-35 0x1p18 (fovPerCamMm (calc i)) /\
  Between 0x1p-14 0x1p14 (sensorLengthMm (calc i)) /\
  Between 0x1p-32 0x1p49 (magnification (calc i)).
Proof.
  intros V B.
  destruct (validInputs_spec i V)
    as (W & _ & D & S & SI & P & Wd & _ & O0 & O1 & CI & C0).
  unfold plausibleInputs in B. rewrite !andb_true_iff in B.
  destruct B as ((((((((((W1 & W2) & D1) & D2) & S2) & P1) & P2) & O2) & C2) & Wd1) & Wd2).
  pose proof (leb_of_integer _ S SI) as S1.
  assert (Bw : Between 0.1 1e5 (widthMm i)) by (split; assumption).
  assert (Bd : Between 1 1e5 (dpi i)) by (split; assumption).
  assert (Bs : Between 1 1e5 (sensorPx i)) by (split; assumption).
  assert (Bp : Between 0.1 100 (pixelPitchUm i)) by (split; assumption).
  pose proof (Between_refl mmPerInch eq_refl) as Bk.
  pose proof (Between_refl 1000 eq_refl) as Bk'.
  interval_step div_Between Bk Bd Bps.
  interval_step div_Between Bk Bps Beq.
  interval_step div_Between Bw Bps BpxA.
  pose proof (one_plus_overlap_Between (overlap i) 0.5 O0 O2 eq_refl eq_refl) as Bc1.
  interval_step mul_Between BpxA Bc1 BpxM.
  pose proof (one_minus_overlap_Between (overlap i) 0.5 O0 O2 eq_refl eq_refl) as Bc2.
  interval_step mul_Between Bs Bc2 Bden.
  interval_step div_Between BpxM Bden Bq.
  change (widthMm i / (mmPerInch / dpi i) * (1 + overlap i)
          / (sensorPx i * (1 - overlap i))) with (camsQuotient i) in Bq.
  match type of Bq with
  | Between ?l ?h _ =>
      pose proof (Math_ceil_Between l h _ eq_refl eq_refl Bq) as Bcr
  end.
  change (JS.Math_ceil (camsQuotient i)) with (camsRequired (calc i)) in Bcr.
  match type of Bcr with
  | Between ?l ?h _ =>
      assert (Bcu : Between 1 h (JS.or (cameras i) (camsRequired (calc i))))
  end.
  { unfold JS.or. destruct (0 <? cameras i) eqn:Cp.
    - rewrite (truthy_positive _ Cp).
      pose proof (integer_pos_PosFin _ CI Cp) as Pc.
      apply PosFin_positive_finite in Pc.
      eapply (Between_widen 1 1e5); try reflexivity.
      split; [apply leb_of_integer; assumption | assumption].
    - rewrite (truthy_not_positive _ C0 Cp). widen Bcr. }
  interval_step mul_Between Bw Bc1 Bt.
  interval_step div_Between Bt Bcu Bfov.
  interval_step div_Between Bp Bk' Bpm.
  interval_step mul_Between Bs Bpm Bsl.
  interval_step div_Between Bsl Bfov BM.
  split; [widen Bps|]. split; [widen Beq|]. split; [widen BpxA|].
  split; [widen BpxM|]. split; [widen Bden|]. split; [widen Bq|].
  split; [widen Bcr|]. split; [widen Bfov|]. split; [widen Bsl | widen BM].
Qed.

Ltac plain B := eapply Between_plain; [| | |exact B]; reflexivity.

Lemma below_plain f wd :
  (0 <? f) = true -> (f <? wd) = true -> PosFin wd -> (wd <=? 1e6) = true ->
  plainNumber f = true.
Proof.
  intros F0 Fw Pw W.
  assert (Pf : PosFin f).
  { revert F0 Fw. unfold PosFin. rewrite !FloatAxioms.ltb_spec.
    change (Prim2SF 0) with (S754_zero false).
    pose proof (Prim2SF_valid f) as Vf. destruct Pw as (m & e & -> & _).
    destruct (Prim2SF f) as [[]|[]| |[] mf ef]; try discriminate.
    intros _ _. apply valid_SPosFin, Vf. }
  unfold plainNumber. rewrite (PosFin_positive_finite _ Pf). simpl.
  assert (P6 : PosFin 1e6) by (apply positive_finite_PosFin; reflexivity).
  assert (P21 : PosFin 1e21) by (apply positive_finite_PosFin; reflexivity).
  apply (ltb_PosFin _ _ Pf Pw) in Fw. apply (leb_PosFin _ _ Pw P6) in W.
  apply (ltb_PosFin _ _ Pf P21).
  assert (C : (JS.F2Q 1e6 < JS.F2Q 1e21)%Q) by reflexivity. lra.
Qed.

(** X9: on valid inputs of a plausible order of magnitude every output
    of [calc] is a positive finite number below [1e21]: no [NaN], no
    [Infinity], no zero, nothing that [toFixed] would print in exponent
    notation. *)
Theorem calc_plausible_outputs_plain (i : Inputs) :
  validInputs i = true -> plausibleInputs i = true -> plausibleTravel i = true ->
  let r := calc i in
  plainNumber (pixelSizeObjMm r) = true /\ plainNumber (eqDpi r) = true /\
  plainNumber (pxNeededAcross r) = true /\ plainNumber (pxNeededWithMargin r) = true /\
  plainNumber (usablePxPerCam r) = true /\ plainNumber (camsRequired r) = true /\
  plainNumber (fovPerCamMm r) = true /\ plainNumber (sensorLengthMm r) = true /\
  plainNumber (magnification r) = true /\ plainNumber (focalLengthMm r) = true /\
  plainNumber (linePitchMm r) = true /\ plainNumber (linesNeeded r) = true /\
  plainNumber (lineRateHz r) = true.
Proof.
  intros V B T r.
  destruct (plausible_intervals i V B)
    as (Bps & Beq & BpxA & BpxM & _ & _ & Bcr & Bfov & Bsl & BM).
  destruct (plausible_chain i V B) as (_ & [M1 M2] & [W1 W2]).
  destruct (thin_lens_bounds (magnification (calc i)) (wdMm i) M1 M2 W1 W2)
    as (_ & _ & F0 & Fw).
  destruct (validInputs_spec i V) as (_ & _ & _ & S & SI & _ & Wd & _).
  pose proof B as B'. unfold plausibleInputs in B'. rewrite !andb_true_iff in B'.
  destruct B' as (((((((_ & S2) & _) & _) & _) & _) & _) & Wd2).
  unfold plausibleTravel in T. rewrite !andb_true_iff in T.
  destruct T as (((L1 & L2) & Sp1) & Sp2).
  assert (Bl : Between 0.1 1e5 (lengthMm i)) by (split; assumption).
  assert (Bv : Between 0.001 1e5 (speedMmS i)) by (split; assumption).
  interval_step div_Between Bl Bps Blines.
  interval_step div_Between Bv Bps Brate.
  assert (Bs : Between 1 1e5 (sensorPx i))
    by (split; [apply leb_of_integer; assumption | assumption]).
  split; [plain Bps|].
  split; [plain Beq|].
  split; [plain BpxA|].
  split; [plain BpxM|].
  split; [plain Bs|].
  split; [plain Bcr|].
  split; [plain Bfov|].
  split; [plain Bsl|].
  split; [plain BM|].
  split; [exact (below_plain _ _ F0 Fw (positive_finite_PosFin _ Wd) Wd2)|].
  split; [plain Bps|].
  split; [plain Blines|].
  plain Brate.
Qed.

Lemma calc_plausible_outputs_plain_witness :
  validInputs example_inputs = true /\ plausibleInputs example_inputs = true /\
  plausibleTravel example_inputs = true /\
  plainNumber (camsRequired (calc example_inputs)) = true /\
  plainNumber (focalLengthMm (calc example_inputs)) = true.
Proof.
  split; [reflexivity|]. split; [reflexivity|]. split; [reflexivity|].
  pose proof (calc_plausible_outputs_plain example_inputs eq_refl eq_refl eq_refl) as H.
  cbv zeta in H. split; apply H.
Defined.

(** X10: [camsRequired] cameras cover the pixels, and one camera fewer
    would not.  On valid inputs of a plausible order of magnitude, with
    [n = camsRequired], [span = sensorPx * (1 - overlap)] and
    [need = pxNeededWithMargin] as computed, and [u = 2^-53] the rounding
    unit of the one division in between: [n * span >= (1 - u) * need] and
    [(n - 1) * span < (1 + u) * need], in exact arithmetic. *)
Theorem calc_camsRequired_covers (i : Inputs) :
  validInputs i = true -> plausibleInputs i = true ->
  let n := JS.F2Q (camsRequired (calc i)) in
  let span := JS.F2Q (sensorPx i * (1 - overlap i)) in
  let need := JS.F2Q (pxNeededWithMargin (calc i)) in
  ((1 - bpow (-53)) * need <= n * span)%Q /\
  ((n - 1) * span < (1 + bpow (-53)) * need)%Q.
Proof.
  intros V B n span need.
  destruct (plausible_intervals i V B)
    as (_ & _ & _ & BpxM & Bden & Bq & _).
  assert (Pm : PosFin (pxNeededWithMargin (calc i)))
    by (eapply Between_PosFin; [| |exact BpxM]; reflexivity).
  assert (Pd : PosFin (sensorPx i * (1 - overlap i)))
    by (eapply Between_PosFin; [| |exact Bden]; reflexivity).
  assert (Pq : PosFin (camsQuotient i))
    by (eapply Between_PosFin; [| |exact Bq]; reflexivity).
  assert (Plo : PosFin 0x1p-9) by (apply positive_finite_PosFin; reflexivity).
  assert (Phi : PosFin 0x1p30) by (apply positive_finite_PosFin; reflexivity).
  assert (Dlo : PosFin 0x1p-1) by (apply positive_finite_PosFin; reflexivity).
  assert (Dhi : PosFin 0x1p17) by (apply positive_finite_PosFin; reflexivity).
  destruct BpxM as [M1 M2], Bden as [D1 D2].
  apply (leb_PosFin _ _ Plo Pm) in M1. apply (leb_PosFin _ _ Pm Phi) in M2.
  apply (leb_PosFin _ _ Dlo Pd) in D1. apply (leb_PosFin _ _ Pd Dhi) in D2.
  setoid_replace (JS.F2Q 0x1p-9) with (1 # 512)%Q in M1 by reflexivity.
  setoid_replace (JS.F2Q 0x1p30) with (1073741824 # 1)%Q in M2 by reflexivity.
  setoid_replace (JS.F2Q 0x1p-1) with (1 # 2)%Q in D1 by reflexivity.
  setoid_replace (JS.F2Q 0x1p17) with (131072 # 1)%Q in D2 by reflexivity.
  fold need in M1, M2. fold span in D1, D2.
  assert (S0 : (0 < span)%Q) by lra.
  assert (E : (need / span * span == need)%Q) by (field; lra).
  set (w := (need / span)%Q) in *.
  assert (Wlo : (bpow (-1022) <= w)%Q).
  { apply Qle_shift_div_l; [exact S0|].
    assert (C : (bpow (-1022) * (131072 # 1) <= 1 # 512)%Q) by qle_compute.
    apply Qle_trans with (bpow (-1022) * (131072 # 1))%Q; [|lra].
    apply Qmult_le_l; [apply bpow_pos | exact D2]. }
  assert (Whi : (w <= Qmax)%Q).
  { apply Qle_shift_div_r; [exact S0|].
    assert (C : ((1073741824 # 1) <= Qmax * (1 # 2))%Q) by qle_compute.
    assert (Q0 : (0 < Qmax)%Q) by lra.
    apply Qle_trans with (Qmax * (1 # 2))%Q; [lra|].
    apply Qmult_le_l; [exact Q0 | exact D1]. }
  destruct (div_accurate (pxNeededWithMargin (calc i)) (sensorPx i * (1 - overlap i))
              Pm Pd Wlo Whi) as (_ & A1 & A2).
  fold need span w in A1, A2.
  change (pxNeededWithMargin (calc i) / (sensorPx i * (1 - overlap i)))
    with (camsQuotient i) in A1, A2.
  destruct (Math_ceil_PosFin _ Pq) as (_ & k & Vk & L & U).
  change (JS.Math_ceil (camsQuotient i)) with (camsRequired (calc i)) in Vk.
  fold n in Vk. set (q := JS.F2Q (camsQuotient i)) in *.
  assert (Ub : (bpow (-53) == 1 # 9007199254740992)%Q) by reflexivity.
  rewrite Ub in *.
  assert (W0 : (0 < w)%Q) by (pose proof (bpow_pos (-1022)); lra).
  split.
  - apply Qle_trans with (q * span)%Q.
    + setoid_replace ((1 - (1 # 9007199254740992)) * need)%Q
        with ((1 - (1 # 9007199254740992)) * w * span)%Q by (rewrite <- E; ring).
      apply Qmult_le_compat_r; lra.
    + apply Qmult_le_compat_r; lra.
  - apply Qlt_le_trans with (q * span)%Q.
    + apply Qmult_lt_compat_r; lra.
    + setoid_replace ((1 + (1 # 9007199254740992)) * need)%Q
        with ((1 + (1 # 9007199254740992)) * w * span)%Q by (rewrite <- E; ring).
      apply Qmult_le_compat_r; lra.
Qed.

Lemma calc_camsRequired_covers_witness :
  let n := JS.F2Q (camsRequired (calc example_inputs)) in
  let span := JS.F2Q (sensorPx example_inputs * (1 - overlap example_inputs)) in
  let need := JS.F2Q (pxNeededWithMargin (calc example_inputs)) in
  ((1 - bpow (-53)) * need <= n * span)%Q /\
  ((n - 1) * span < (1 + bpow (-53)) * need)%Q.
Proof.
  apply (calc_camsRequired_covers example_inputs); reflexivity.
Defined.

(** * Further properties of the input resolver and its console *)

Lemma noFlags_json argv : noFlags argv = true -> json (inputs_of_argv argv) = false.
Proof.
  unfold noFlags. rewrite negb_true_iff, !orb_false_iff. intros (_ & J).
  simpl. destruct (arg_json argv); [discriminate | reflexivity].
Qed.

(** What the prompts check on the answers they return, and that they
    leave [json] alone. *)
Lemma prompts_checked lang inputs u inputs' :
  prompts lang inputs u = Some inputs' ->
  json inputs' = json inputs /\
  (0 <? widthMm inputs') = true /\ (0 <? lengthMm inputs') = true /\
  (0 <? dpi inputs') = true /\ (0 <? sensorPx inputs') = true /\
  (0 <? pixelPitchUm inputs') = true /\ (0 <? wdMm inputs') = true /\
  (0 <? speedMmS inputs') = true /\
  ((0 <=? overlap inputs') = true /\ (overlap inputs' <? 1) = true) /\
  (0 <=? cameras inputs') = true.
Proof.
  unfold prompts, bind.
  repeat match goal with
  | |- context [ask ?f ?l] =>
      let E := fresh "E" in
      destruct (ask f l) eqn:E; [apply ask_accepted in E | discriminate]
  end.
  intros H. injection H as <-. simpl.
  repeat match goal with
  | E : _ = Accepted |- _ =>
      apply or_message_accepted in E; rewrite ?andb_true_iff in E
  end.
  intuition.
Qed.

(** X11: on the interactive path every number that reaches [calc] has
    passed the check of its prompt (positive; in [0, 1[ for [overlap]; not
    negative for [cameras]), the result is [calc] of those numbers and
    [json] is off.  The data-model constraints hold of them exactly when,
    on top of that, the six measures are finite and [sensorPx] and
    [cameras] are integers, which no prompt checks. *)
Theorem main_interactive_validated (argv : Argv) (u : User)
        (inputs : Inputs) (result : Results) :
  noFlags argv = true ->
  main argv u = Computed inputs result ->
  result = calc inputs /\ json inputs = false /\
  (0 <? widthMm inputs) = true /\ (0 <? lengthMm inputs) = true /\
  (0 <? dpi inputs) = true /\ (0 <? sensorPx inputs) = true /\
  (0 <? pixelPitchUm inputs) = true /\ (0 <? wdMm inputs) = true /\
  (0 <? speedMmS inputs) = true /\
  ((0 <=? overlap inputs) = true /\ (overlap inputs <? 1) = true) /\
  (0 <=? cameras inputs) = true /\
  (validInputs inputs = true <->
   is_finite (widthMm inputs) = true /\ is_finite (lengthMm inputs) = true /\
   is_finite (dpi inputs) = true /\ is_finite (pixelPitchUm inputs) = true /\
   is_finite (wdMm inputs) = true /\ is_finite (speedMmS inputs) = true /\
   JS.isInteger (sensorPx inputs) = true /\ JS.isInteger (cameras inputs) = true).
Proof.
  intros NF. unfold main. rewrite NF.
  destruct (pick_lang u) as [lang|]; [|discriminate].
  destruct (prompts lang (inputs_of_argv argv) u) as [inputs'|] eqn:E; [|discriminate].
  intros H. injection H as <- <-.
  destruct (prompts_checked _ _ _ _ E)
    as (J & W & L & D & S & P & Wd & Sp & (O0 & O1) & C).
  rewrite (noFlags_json _ NF) in J.
  repeat (split; [first [reflexivity | assumption]|]).
  split; [split; assumption|]. split; [assumption|].
  unfold validInputs, positive_finite.
  rewrite W, L, D, S, P, Wd, Sp, O0, O1, C, !andb_true_r.
  rewrite !andb_true_iff. split.
  - tauto.
  - intros (H1 & H2 & H3 & H4 & H5 & H6 & H7 & H8).
    rewrite (isInteger_finite _ H7). tauto.
Qed.

Lemma main_interactive_validated_witness :
  exists inputs,
    main argv_empty user_example = Computed inputs (calc inputs) /\
    dpi inputs = 250 /\ overlap inputs = 0.12 /\ json inputs = false /\
    validInputs inputs = true.
Proof.
  eexists. split; [reflexivity|].
  destruct (main_interactive_validated argv_empty user_example _ _ eq_refl eq_refl)
    as (_ & J & _).
  split; [reflexivity|]. split; [reflexivity|]. split; [exact J | reflexivity].
Defined.

Lemma prompts_json lang inputs u inputs' :
  prompts lang inputs u = Some inputs' -> json inputs' = json inputs.
Proof. intros E. apply (prompts_checked _ _ _ _ E). Qed.

(** X12: a run that [Argv] and [User] describe (documented flags only,
    each at most once; every prompt answered or cancelled) ends with one
    result or one cancellation.  When [main] computes, the console ends
    with the JSON line or the table of exactly the inputs and the result of
    that call of [calc]; when it is cancelled, the console ends with the
    cancelled message; before that last line there is nothing but screen
    clearing and banners. *)
Theorem main_console_ends_with_outcome (argv : Argv) (u : User) :
  exists pre last,
    main_console argv u = pre ++ [last] /\ forallb is_chrome pre = true /\
    match main argv u with
    | Cancelled => exists lang, last = LogCancelled lang
    | Computed inputs result =>
        result = calc inputs /\
        (last = LogJson inputs result \/ exists lang, last = LogTable inputs result lang)
    end.
Proof.
  unfold main, main_console.
  destruct (noFlags argv) eqn:NF.
  - destruct (pick_lang u) as [lang|].
    + destruct (prompts lang (inputs_of_argv argv) u) as [inputs|] eqn:E.
      * rewrite (prompts_json _ _ _ _ E), (noFlags_json _ NF).
        exists [Clear; LogBanner lang; Clear; LogBanner lang],
               (LogTable inputs (calc inputs) lang).
        repeat split; eauto.
      * exists [Clear; LogBanner lang], (LogCancelled lang). repeat split; eauto.
    + exists [], (LogCancelled en). repeat split; eauto.
  - destruct (json (inputs_of_argv argv)).
    + exists [], (LogJson (inputs_of_argv argv) (calc (inputs_of_argv argv))).
      repeat split; eauto.
    + exists [LogBanner en],
             (LogTable (inputs_of_argv argv) (calc (inputs_of_argv argv)) en).
      repeat split; eauto.
Qed.

(** X13: JSON is the output of the [--json] flag and of nothing else.
    With [--json] the console gets the one JSON line, of the flag values
    and their result, without a banner and without asking anything; without
    it, and on every interactive run, no JSON line is written. *)
Theorem main_console_json (argv : Argv) (u : User) :
  (arg_json argv = Some true ->
   main_console argv u
   = [LogJson (inputs_of_argv argv) (calc (inputs_of_argv argv))]) /\
  (forall inputs result,
     In (LogJson inputs result) (main_console argv u) -> arg_json argv = Some true).
Proof.
  split.
  - intros J. unfold main_console, noFlags. rewrite J, !orb_true_r. simpl.
    rewrite J. reflexivity.
  - intros inputs result. unfold main_console.
    destruct (noFlags argv) eqn:NF.
    + destruct (pick_lang u) as [lang|].
      * destruct (prompts lang (inputs_of_argv argv) u) as [inputs'|] eqn:E.
        -- rewrite (prompts_json _ _ _ _ E), (noFlags_json _ NF). simpl.
           intros [H | [H | [H | [H | [H | []]]]]]; discriminate H.
        -- simpl. intros [H | [H | [H | []]]]; discriminate H.
      * simpl. intros [H | []]; discriminate H.
    + destruct (json (inputs_of_argv argv)) eqn:J.
      * intros _. simpl in J. destruct (arg_json argv) as [[]|]; try discriminate.
        reflexivity.
      * simpl. intros [H | [H | []]]; discriminate H.
Qed.

(** X14: Turkish is spoken to those who chose it.  Whatever is written in
    Turkish (banner, table or cancelled message) is written on an
    interactive run whose user picked Turkish at the language prompt; a run
    with flags writes English. *)
Theorem main_console_language (argv : Argv) (u : User) (o : Output) :
  In o (main_console argv u) -> output_lang o = Some tr ->
  noFlags argv = true /\ pick_lang u = Some tr.
Proof.
  unfold main_console.
  destruct (noFlags argv) eqn:NF.
  - destruct (pick_lang u) as [lang|].
    + assert (K : forall l, In o l ->
                   (forall x, In x l -> output_lang x = None \/ output_lang x = Some lang) ->
                   output_lang o = Some tr -> true = true /\ Some lang = Some tr).
      { intros l I A T. destruct (A o I) as [N | N]; rewrite T in N;
          [discriminate | split; [reflexivity | symmetry; exact N]]. }
      destruct (prompts lang (inputs_of_argv argv) u) as [inputs|].
      * destruct (json inputs); intros I; apply (K _ I); simpl;
          intros x H; repeat (destruct H as [<- | H]; [simpl; auto|]); destruct H.
      * intros I; apply (K _ I); simpl;
          intros x H; repeat (destruct H as [<- | H]; [simpl; auto|]); destruct H.
    + simpl. intros [<- | []]. discriminate.
  - destruct (json (inputs_of_argv argv)); simpl.
    + intros [<- | []]. discriminate.
    + intros [<- | [<- | []]]; discriminate.
Qed.

Lemma main_console_language_witness :
  noFlags argv_empty = true /\ pick_lang user_example = Some tr.
Proof.
  apply (main_console_language argv_empty user_example (LogBanner tr)).
  - right. left. reflexivity.
  - reflexivity.
Defined.

(** * The presenter *)

(** On valid inputs of a plausible order of magnitude the camera count
    the optics are computed with is a whole number, at least 1. *)
Lemma camsUsed_whole i :
  validInputs i = true -> plausibleInputs i = true ->
  JS.isInteger (JS.or (cameras i) (camsRequired (calc i))) = true /\
  (1 <=? JS.or (cameras i) (camsRequired (calc i))) = true.
Proof.
  intros V B.
  destruct (validInputs_spec i V)
    as (_ & _ & _ & _ & _ & _ & _ & _ & _ & _ & CI & C0).
  destruct (plausible_intervals i V B) as (_ & _ & _ & _ & _ & Bq & Bcr & _).
  unfold JS.or. destruct (0 <? cameras i) eqn:Cp.
  - rewrite (truthy_positive _ Cp). split; [exact CI|].
    apply leb_of_integer; [|exact CI].
    apply PosFin_positive_finite, integer_pos_PosFin; assumption.
  - rewrite (truthy_not_positive _ C0 Cp). split; [|exact (proj1 Bcr)].
    assert (Pq : PosFin (camsQuotient i))
      by (eapply Between_PosFin; [| |exact Bq]; reflexivity).
    destruct (Math_ceil_PosFin _ Pq) as (Pc & n & Vn & _).
    exact (isInteger_of_value _ n (PosFin_is_finite _ Pc) Vn).
Qed.

(** X15: the count in the [Planned cameras] row is the count the optics
    were computed with.  For every input, in either language and whatever
    the libraries draw, the last of the nine rows of the inputs table
    carries a number [c] such that [fovPerCamMm] of the result is
    [widthMm * (1 + overlap) / c]; on valid inputs of a plausible order of
    magnitude [c] is moreover an integer, at least 1. *)
Theorem prettyTable_planned_cameras `{Terminal} (inputs : Inputs) (lang : Lang) :
  exists c : float,
    List.length (Table.rows (inputsTable inputs (calc inputs) lang)) = 9%nat /\
    nth_error (Table.rows (inputsTable inputs (calc inputs) lang)) 8
    = Some [Text (InputsTable.plannedCams (Locale.inputsTable (loc lang)));
            Number c; Text "pcs"] /\
    fovPerCamMm (calc inputs) = widthMm inputs * (1 + overlap inputs) / c /\
    (validInputs inputs = true -> plausibleInputs inputs = true ->
     JS.isInteger c = true /\ (1 <=? c) = true).
Proof.
  exists (JS.or (cameras inputs) (camsRequired (calc inputs))).
  split; [reflexivity|]. split; [reflexivity|]. split; [reflexivity|].
  exact (camsUsed_whole inputs).
Qed.

Lemma prettyTable_planned_cameras_witness :
  exists c : float,
    nth_error (Table.rows (@inputsTable blank_terminal example_inputs
                             (calc example_inputs) tr)) 8
    = Some [Text "Planlanan kamera sayısı"; Number c; Text "pcs"] /\
    fovPerCamMm (calc example_inputs)
    = widthMm example_inputs * (1 + overlap example_inputs) / c /\
    JS.isInteger c = true /\ (1 <=? c) = true.
Proof.
  destruct (@prettyTable_planned_cameras blank_terminal example_inputs tr)
    as (c & _ & R & F & W).
  exists c. split; [exact R|]. split; [exact F|]. exact (W eq_refl eq_refl).
Defined.

(** X16: the language changes the words and nothing else.  For the same
    inputs and result the English and the Turkish tables have the same
    column widths and, row by row, the same value and the same unit; only
    labels, heads and tips differ. *)
Theorem prettyTable_values_in_any_language `{Terminal}
        (inputs : Inputs) (res : Results) :
  map value_and_unit (Table.rows (inputsTable inputs res en))
  = map value_and_unit (Table.rows (inputsTable inputs res tr)) /\
  map value_and_unit (Table.rows (outputsTable res en))
  = map value_and_unit (Table.rows (outputsTable res tr)) /\
  Table.colWidths (inputsTable inputs res en)
  = Table.colWidths (inputsTable inputs res tr) /\
  Table.colWidths (outputsTable res en) = Table.colWidths (outputsTable res tr).
Proof. repeat split. Qed.
